(** * RustCAM core: geometry, slicer, strategies and orchestrator

    A shallow embedding of [src/geometry.rs], [src/slicer.rs],
    [src/toolpath.rs], [src/lib.rs], [src/gcode.rs], [src/tool.rs], the
    binary reader and format dispatch of [src/stl.rs], and the path-data,
    [points] and attribute readers of [src/svg.rs].

    Numbers.  The Rust code computes with [f64].  The main model reads every
    [f64] as an exact rational [Q]: additions, products, quotients and
    comparisons are the exact ones.  Two places leave that model:
    - [Vec2::dist] is only ever compared with a positive tolerance
      ([dist(p, q) < eps]); this is written as the equivalent comparison of
      the squared distance with [eps * eps], so no square root is needed;
    - the square roots of [offset_polyline] and [ball_end_offset] (which only
      feed coordinates, never control flow that the theorems below inspect)
      are read with [f64_sqrt], a rational approximation.
    The module [BallEndR] embeds [ball_end_offset] over the real numbers,
    where the square root is exact, and [F64] embeds the bounding-box area
    comparator of the perimeter strategy in IEEE binary64 ([PrimFloat]). *)

From Stdlib Require Import List Bool Arith Lia ZArith QArith Qround Qabs Lqa.
From Stdlib Require Strings.String Strings.Byte.
From Stdlib Require Reals Lra.
From Stdlib Require Floats.
Import String.StringSyntax.
Import ListNotations.

Open Scope Q_scope.

(* ------------------------------------------------------------------ *)
(** ** Numeric helpers *)

Definition Qltb (u v : Q) : bool := negb (Qle_bool v u).

(** [f64::min] and [f64::max] on non-NaN operands. *)
Definition fmin (u v : Q) : Q := if Qle_bool u v then u else v.
Definition fmax (u v : Q) : Q := if Qle_bool v u then u else v.

(** [f64::MAX] and [f64::MIN]. *)
Definition f64_MAX : Q := inject_Z (2 ^ 1024 - 2 ^ 971)%Z.
Definition f64_MIN : Q := - f64_MAX.

(** [f64::sqrt], approximated to six decimal places (see the header). *)
Definition f64_sqrt (u : Q) : Q :=
  Qmake (Z.sqrt (Qnum u * Zpos (Qden u) * 10 ^ 12)) (Qden u * 10 ^ 6).

(** [x.max(y)] as written in [step_over.max(0.1)]. *)
Definition step_floor : Q := 1 # 10.

(* ------------------------------------------------------------------ *)
(** ** geometry.rs *)

Record Vec3 := mkVec3 { x3 : Q; y3 : Q; z3 : Q }.
Record Vec2 := mkVec2 { x : Q; y : Q }.

Definition Vec3_lerp (p q : Vec3) (t : Q) : Vec3 :=
  mkVec3 (x3 p + (x3 q - x3 p) * t) (y3 p + (y3 q - y3 p) * t)
         (z3 p + (z3 q - z3 p) * t).

Record Triangle := mkTriangle { normal : Vec3; v0 : Vec3; v1 : Vec3; v2 : Vec3 }.

Definition min_z (t : Triangle) : Q := fmin (fmin (z3 (v0 t)) (z3 (v1 t))) (z3 (v2 t)).
Definition max_z (t : Triangle) : Q := fmax (fmax (z3 (v0 t)) (z3 (v1 t))) (z3 (v2 t)).

Record BoundingBox := mkBoundingBox { bmin : Vec3; bmax : Vec3 }.

Definition bb_step (acc : Vec3 * Vec3) (v : Vec3) : Vec3 * Vec3 :=
  let (mn, mx) := acc in
  (mkVec3 (fmin (x3 mn) (x3 v)) (fmin (y3 mn) (y3 v)) (fmin (z3 mn) (z3 v)),
   mkVec3 (fmax (x3 mx) (x3 v)) (fmax (y3 mx) (y3 v)) (fmax (z3 mx) (z3 v))).

Definition BoundingBox_from_triangles (tris : list Triangle) : option BoundingBox :=
  match tris with
  | [] => None
  | _ =>
      let '(mn, mx) :=
        fold_left (fun acc t => bb_step (bb_step (bb_step acc (v0 t)) (v1 t)) (v2 t))
          tris (mkVec3 f64_MAX f64_MAX f64_MAX, mkVec3 f64_MIN f64_MIN f64_MIN) in
      Some (mkBoundingBox mn mx)
  end.

Record Mesh := mkMesh { triangles : list Triangle; bounds : option BoundingBox }.

Definition Mesh_new (tris : list Triangle) : Mesh :=
  mkMesh tris (BoundingBox_from_triangles tris).

(** [Vec2::dist(p, q) < e] for [e > 0], compared through squares. *)
Definition dist_sq (p q : Vec2) : Q := (x p - x q) * (x p - x q) + (y p - y q) * (y p - y q).
Definition dist_lt (p q : Vec2) (e : Q) : Prop := dist_sq p q < e * e.
Definition dist_ltb (p q : Vec2) (e : Q) : bool := Qltb (dist_sq p q) (e * e).
Definition dist_le (p q : Vec2) (e : Q) : Prop := dist_sq p q <= e * e.

Record BoundingBox2 := mkBoundingBox2 { bmin2 : Vec2; bmax2 : Vec2 }.

Definition bb2_step (acc : Vec2 * Vec2) (p : Vec2) : Vec2 * Vec2 :=
  let (mn, mx) := acc in
  (mkVec2 (fmin (x mn) (x p)) (fmin (y mn) (y p)),
   mkVec2 (fmax (x mx) (x p)) (fmax (y mx) (y p))).

Definition BoundingBox2_from_points (pts : list Vec2) : option BoundingBox2 :=
  match pts with
  | [] => None
  | _ =>
      let '(mn, mx) := fold_left bb2_step pts (mkVec2 f64_MAX f64_MAX, mkVec2 f64_MIN f64_MIN) in
      Some (mkBoundingBox2 mn mx)
  end.

Record Polyline := mkPolyline { points : list Vec2; closed : bool }.

Definition Polyline_bounds (pl : Polyline) : option BoundingBox2 :=
  BoundingBox2_from_points (points pl).

Record Segment2 := mkSegment2 { a : Vec2; b : Vec2 }.

Record ToolpathMove := mkMove { mx : Q; my : Q; mz : Q; rapid : bool }.
Record Toolpath := mkToolpath { moves : list ToolpathMove }.

(** [Toolpath::rapid] and [Toolpath::cut] push one move at the end. *)
Definition tp_rapid (tp : Toolpath) (px py pz : Q) : Toolpath :=
  mkToolpath (moves tp ++ [mkMove px py pz true]).
Definition tp_cut (tp : Toolpath) (px py pz : Q) : Toolpath :=
  mkToolpath (moves tp ++ [mkMove px py pz false]).
Definition Toolpath_new : Toolpath := mkToolpath [].

Definition origin2 : Vec2 := mkVec2 0 0.

(* ------------------------------------------------------------------ *)
(** ** slicer.rs: [chain_segments] *)

Definition chain_eps : Q := 1 # 1000000.

Fixpoint set_nth {A} (l : list A) (i : nat) (v : A) : list A :=
  match l, i with
  | [], _ => []
  | _ :: l', O => v :: l'
  | h :: l', S i' => h :: set_nth l' i' v
  end.

(** The inner [for j in 0..segments.len()] search: the first unused segment
    with an endpoint within [eps] of [tail], and the endpoint to push. *)
Fixpoint find_next (ss : list Segment2) (used : list bool) (j : nat) (tail : Vec2)
  : option (nat * Vec2) :=
  match ss, used with
  | s :: ss', u :: used' =>
      if u then find_next ss' used' (S j) tail
      else if dist_ltb (a s) tail chain_eps then Some (j, b s)
      else if dist_ltb (b s) tail chain_eps then Some (j, a s)
      else find_next ss' used' (S j) tail
  | _, _ => None
  end.

(** The [loop { ... }] extending the chain at its tail.  Every round that
    continues marks one more segment used, so [length segments] rounds
    suffice. *)
Fixpoint extend_chain (fuel : nat) (segs : list Segment2) (used : list bool)
    (chain : list Vec2) : list bool * list Vec2 :=
  match fuel with
  | O => (used, chain)
  | S f =>
      match find_next segs used 0 (last chain origin2) with
      | Some (j, p) => extend_chain f segs (set_nth used j true) (chain ++ [p])
      | None => (used, chain)
      end
  end.

(** [let closed = chain.len() > 2 && dist(chain[0], last) < eps;
     if closed { chain.pop(); }] *)
Definition finish_chain (chain : list Vec2) : Polyline :=
  let cl := Nat.ltb 2 (length chain) && dist_ltb (hd origin2 chain) (last chain origin2) chain_eps in
  mkPolyline (if cl then removelast chain else chain) cl.

Definition seg_dummy : Segment2 := mkSegment2 origin2 origin2.

(** The outer [for start_idx in 0..segments.len()]. *)
Fixpoint chain_loop (segs : list Segment2) (idxs : list nat) (used : list bool)
  : list Polyline :=
  match idxs with
  | [] => []
  | i :: rest =>
      if nth i used false then chain_loop segs rest used
      else
        let s := nth i segs seg_dummy in
        let '(used', chain) :=
          extend_chain (length segs) segs (set_nth used i true) [a s; b s] in
        finish_chain chain :: chain_loop segs rest used'
  end.

Definition chain_segments (segs : list Segment2) : list Polyline :=
  match segs with
  | [] => []
  | _ => chain_loop segs (seq 0 (length segs)) (repeat false (length segs))
  end.

(** Three segments forming a triangle. *)
Definition ptA : Vec2 := mkVec2 0 0.
Definition ptB : Vec2 := mkVec2 1 0.
Definition ptC : Vec2 := mkVec2 0 1.
Definition tri_segments : list Segment2 :=
  [mkSegment2 ptA ptB; mkSegment2 ptB ptC; mkSegment2 ptC ptA].

(** A chain point [z] is reached from the chain point [y] through an input
    segment: one endpoint of the segment lies within [eps] of [y] and [z] is
    its other endpoint. *)
Definition bridged (segs : list Segment2) (yv zv : Vec2) : Prop :=
  exists s, In s segs /\
    ((dist_lt (a s) yv chain_eps /\ zv = b s) \/ (dist_lt (b s) yv chain_eps /\ zv = a s)).

Definition chain_shape (segs : list Segment2) (c : list Vec2) : Prop :=
  exists pre yv zv, c = pre ++ [yv; zv] /\ bridged segs yv zv.

(* ------------------------------------------------------------------ *)
(** ** slicer.rs: plane intersection and layer scheduling *)

Definition plane_tol : Q := 1 # 10000000000.

(** One edge [(p, q)] of [intersect_triangle_z]. *)
Definition edge_point (p q : Vec3) (zz : Q) : option Vec2 :=
  if Qltb ((z3 p - zz) * (z3 q - zz)) 0 then
    let t := (zz - z3 p) / (z3 q - z3 p) in
    let ip := Vec3_lerp p q t in
    Some (mkVec2 (x3 ip) (y3 ip))
  else if Qltb (Qabs (z3 p - zz)) plane_tol then Some (mkVec2 (x3 p) (y3 p))
  else None.

Definition opt_to_list {A} (o : option A) : list A :=
  match o with Some v => [v] | None => [] end.

(** [Vec::dedup_by]: an element is dropped when it is within [1e-10] of the
    last element kept. *)
Fixpoint dedup_aux (kept : Vec2) (l : list Vec2) : list Vec2 :=
  match l with
  | [] => []
  | p :: l' => if dist_ltb p kept plane_tol then dedup_aux kept l' else p :: dedup_aux p l'
  end.

Definition dedup_close (l : list Vec2) : list Vec2 :=
  match l with [] => [] | p :: l' => p :: dedup_aux p l' end.

Definition intersect_triangle_z (va vb vc : Vec3) (zz : Q) : option Segment2 :=
  let pts := opt_to_list (edge_point va vb zz) ++ opt_to_list (edge_point vb vc zz)
             ++ opt_to_list (edge_point vc va zz) in
  match dedup_close pts with
  | p0 :: p1 :: _ => Some (mkSegment2 p0 p1)
  | _ => None
  end.

Definition collect_segments (mesh : Mesh) (zz : Q) : list Segment2 :=
  flat_map (fun tri =>
    if Qltb zz (min_z tri) || Qltb (max_z tri) zz then []
    else opt_to_list (intersect_triangle_z (v0 tri) (v1 tri) (v2 tri) zz))
    (triangles mesh).

Definition slice_at_z (mesh : Mesh) (zz : Q) : list Polyline :=
  chain_segments (collect_segments mesh zz).

(** The [while z <= z_max { ...; z += layer_height }] loop of [slice_mesh]. *)
Fixpoint slice_loop (fuel : nat) (mesh : Mesh) (h zmax zz : Q) : list (Q * list Polyline) :=
  match fuel with
  | O => []
  | S f =>
      if Qle_bool zz zmax then
        let contours := slice_at_z mesh zz in
        (match contours with [] => [] | _ => [(zz, contours)] end)
          ++ slice_loop f mesh h zmax (zz + h)
      else []
  end.

(** Rounds of the loop: with [h > 0] the test [z <= z_max] fails once [z]
    passes [z_max], at the latest after this many rounds. *)
Definition loop_fuel (lo hi h : Q) : nat := S (Z.to_nat (Qceiling ((hi - lo) / h))).

Definition slice_mesh (mesh : Mesh) (h : Q) : list (Q * list Polyline) :=
  match bounds mesh with
  | None => []
  | Some bb =>
      let zstart := z3 (bmin bb) + h * (1 # 2) in
      slice_loop (loop_fuel zstart (z3 (bmax bb)) h) mesh h (z3 (bmax bb)) zstart
  end.

(** Two triangles one above the other, with a gap between [z = 1] and [z = 3]. *)
Definition low_tri : Triangle :=
  mkTriangle (mkVec3 0 0 1) (mkVec3 0 0 0) (mkVec3 1 0 1) (mkVec3 0 1 1).
Definition high_tri : Triangle :=
  mkTriangle (mkVec3 0 0 1) (mkVec3 0 0 3) (mkVec3 1 0 4) (mkVec3 0 1 4).
Definition gap_mesh : Mesh := Mesh_new [low_tri; high_tri].

(* ------------------------------------------------------------------ *)
(** ** tool.rs and the parameters of toolpath.rs *)

Inductive ToolType := EndMill | BallEnd | FaceMill (effective_diameter : Q).

Record Tool := mkTool {
  tool_type : ToolType; diameter : Q; flute_length : Q; corner_radius : Q }.

Record CutParams := mkCutParams {
  tool : Tool;
  tool_diameter : Q;
  step_over : Q;
  step_down : Q;
  feed_rate : Q;
  plunge_rate : Q;
  safe_z : Q;
  cut_z : Q;
  climb_cut : bool;
  perimeter_passes : nat }.

(** [let mut p = params.clone(); p.cut_z = z;] *)
Definition with_cut_z (p : CutParams) (zz : Q) : CutParams :=
  mkCutParams (tool p) (tool_diameter p) (step_over p) (step_down p) (feed_rate p)
    (plunge_rate p) (safe_z p) zz (climb_cut p) (perimeter_passes p).

(* ------------------------------------------------------------------ *)
(** ** toolpath.rs: [offset_polyline] *)

Definition offset_point (pts : list Vec2) (cl : bool) (d : Q) (i : nat) : Vec2 :=
  let n := length pts in
  let pi := nth i pts origin2 in
  let prev := if Nat.eqb i 0 then (if cl then nth (n - 1) pts origin2 else nth 0 pts origin2)
              else nth (i - 1) pts origin2 in
  let next := if Nat.eqb i (n - 1) then (if cl then nth 0 pts origin2 else nth (n - 1) pts origin2)
              else nth (i + 1) pts origin2 in
  let dx1 := x pi - x prev in
  let dy1 := y pi - y prev in
  let dx2 := x next - x pi in
  let dy2 := y next - y pi in
  let nx := - (dy1 + dy2) in
  let ny := dx1 + dx2 in
  let len := f64_sqrt (nx * nx + ny * ny) in
  if Qltb len plane_tol then pi
  else mkVec2 (x pi + d * nx / len) (y pi + d * ny / len).

Definition offset_polyline (poly : Polyline) (d : Q) : list Vec2 :=
  let pts := points poly in
  if Nat.ltb (length pts) 2 then pts
  else map (offset_point pts (closed poly) d) (seq 0 (length pts)).

(* ------------------------------------------------------------------ *)
(** ** toolpath.rs: contour and perimeter strategies *)

(** [for pt in &offset_pts[1..] { tp.cut(pt.x, pt.y, params.cut_z); }] *)
Definition cut_along (tp : Toolpath) (pts : list Vec2) (zc : Q) : Toolpath :=
  fold_left (fun t p => tp_cut t (x p) (y p) zc) pts tp.

(** The toolpath built from non-empty offset points [p0 :: rest]: rapid to
    the start, plunge, follow, close if the contour is closed, retract.  The
    contour and the perimeter strategy build it with the same statements. *)
Definition follow_path (cl : bool) (p0 : Vec2) (rest : list Vec2) (params : CutParams) : Toolpath :=
  let tp := tp_rapid Toolpath_new (x p0) (y p0) (safe_z params) in
  let tp := tp_cut tp (x p0) (y p0) (cut_z params) in
  let tp := cut_along tp rest (cut_z params) in
  let tp := if cl then tp_cut tp (x p0) (y p0) (cut_z params) else tp in
  let pl := last (p0 :: rest) origin2 in
  tp_rapid tp (x pl) (y pl) (safe_z params).

Definition contour_toolpath (contour : Polyline) (params : CutParams) : list Toolpath :=
  match offset_polyline contour (tool_diameter params / 2) with
  | [] => []
  | p0 :: rest => [follow_path (closed contour) p0 rest params]
  end.

Definition ContourStrategy_generate (contours : list Polyline) (params : CutParams)
  : list Toolpath :=
  flat_map (fun c => contour_toolpath c params) contours.

(** The comparator key: the bounding-box area, [0.0] for an empty contour. *)
Definition bbox_area (c : Polyline) : Q :=
  match Polyline_bounds c with
  | Some bb => (x (bmax2 bb) - x (bmin2 bb)) * (y (bmax2 bb) - y (bmin2 bb))
  | None => 0
  end.

(** [Iterator::max_by]: a fold that keeps the later element unless the
    earlier one compares [Greater], so the last of equal maxima wins. *)
Definition max_by_area (contours : list Polyline) : option Polyline :=
  match contours with
  | [] => None
  | c :: cs => Some (fold_left (fun m c' => if Qltb (bbox_area c') (bbox_area m) then m else c') cs c)
  end.

Definition perimeter_pass (contour : Polyline) (params : CutParams) (pass : nat) : list Toolpath :=
  let pass_offset := tool_diameter params / 2 + inject_Z (Z.of_nat pass) * step_over params in
  let offset_pts := offset_polyline contour pass_offset in
  let offset_pts := if climb_cut params then rev offset_pts else offset_pts in
  match offset_pts with
  | [] => []
  | p0 :: rest => [follow_path (closed contour) p0 rest params]
  end.

Definition PerimeterStrategy_generate (contours : list Polyline) (params : CutParams)
  : list Toolpath :=
  match max_by_area contours with
  | Some contour =>
      flat_map (perimeter_pass contour params) (seq 0 (Nat.max (perimeter_passes params) 1))
  | None => []
  end.

(* ------------------------------------------------------------------ *)
(** ** toolpath.rs: pocket strategy *)

(** The test of one edge [(a, b)] in [scanline_intersect]. *)
Definition scanline_edge (pa pb : Vec2) (yy : Q) : list Q :=
  if (Qle_bool (y pa) yy && Qltb yy (y pb)) || (Qle_bool (y pb) yy && Qltb yy (y pa)) then
    let t := (yy - y pa) / (y pb - y pa) in
    [x pa + t * (x pb - x pa)]
  else [].

Definition scanline_intersect (poly : Polyline) (yy : Q) : list Q :=
  let pts := points poly in
  let n := length pts in
  if Nat.ltb n 2 then []
  else flat_map (fun i => scanline_edge (nth i pts origin2) (nth ((i + 1) mod n) pts origin2) yy)
         (seq 0 n).

(** [xs.sort_by(|a, b| a.partial_cmp(b).unwrap())]: a stable sort. *)
Fixpoint insert_Q (v : Q) (l : list Q) : list Q :=
  match l with
  | [] => [v]
  | h :: t => if Qltb v h then v :: h :: t else h :: insert_Q v t
  end.

Definition sort_Q (l : list Q) : list Q := fold_left (fun acc v => insert_Q v acc) l [].

(** [for pair in xs.chunks(2) { ... }] *)
Fixpoint pocket_pairs (xs : list Q) (off yy : Q) (forward : bool) (params : CutParams)
    (tp : Toolpath) : Toolpath :=
  match xs with
  | xa :: xb :: rest =>
      let x0 := xa + off in
      let x1 := xb - off in
      if Qle_bool x1 x0 then pocket_pairs rest off yy forward params tp
      else
        let '(start_x, end_x) := if forward then (x0, x1) else (x1, x0) in
        let tp := tp_rapid tp start_x yy (safe_z params) in
        let tp := tp_cut tp start_x yy (cut_z params) in
        let tp := tp_cut tp end_x yy (cut_z params) in
        let tp := tp_rapid tp end_x yy (safe_z params) in
        pocket_pairs rest off yy forward params tp
  | _ => tp
  end.

(** [while y <= y_max { ...; forward = !forward; y += step; }] *)
Fixpoint pocket_rows (fuel : nat) (contour : Polyline) (off step ymax yy : Q)
    (forward : bool) (params : CutParams) (tp : Toolpath) : Toolpath :=
  match fuel with
  | O => tp
  | S f =>
      if Qle_bool yy ymax then
        let xs := sort_Q (scanline_intersect contour yy) in
        let tp := pocket_pairs xs off yy forward params tp in
        pocket_rows f contour off step ymax (yy + step) (negb forward) params tp
      else tp
  end.

Definition pocket_toolpath (contour : Polyline) (params : CutParams) : list Toolpath :=
  if Nat.ltb (length (points contour)) 3 || negb (closed contour) then []
  else
    match Polyline_bounds contour with
    | None => []
    | Some bb =>
        let off := tool_diameter params / 2 in
        let ymin := y (bmin2 bb) + off in
        let ymax := y (bmax2 bb) - off in
        let step := fmax (step_over params) step_floor in
        let tp := pocket_rows (loop_fuel ymin ymax step) contour off step ymax ymin true
                    params Toolpath_new in
        match moves tp with [] => [] | _ => [tp] end
    end.

Definition PocketStrategy_generate (contours : list Polyline) (params : CutParams)
  : list Toolpath :=
  flat_map (fun c => pocket_toolpath c params) contours.

(* ------------------------------------------------------------------ *)
(** ** slicer.rs: height-field queries *)

(** Modelled from the spec: [mesh_height_at] and [surface_normal_at] are
    imported from the slicer module but are not part of the slicer source at
    hand.  Spec 4.1: "[height_at(mesh, x, y)] returns the Z of the topmost
    triangle covering [(x, y)]; [normal_at(mesh, x, y)] returns the
    triangle's stored normal.  Point-in-triangle is 2-D barycentric; Z at the
    hit is interpolated from triangle vertices.  When no triangle covers the
    query, return absent."  [tri_hit] is the barycentric test and the
    interpolated Z; a degenerate (zero-area) triangle covers nothing. *)
Definition tri_hit (t : Triangle) (px py : Q) : option Q :=
  let p0 := v0 t in let p1 := v1 t in let p2 := v2 t in
  let d := (y3 p1 - y3 p2) * (x3 p0 - x3 p2) + (x3 p2 - x3 p1) * (y3 p0 - y3 p2) in
  if Qeq_bool d 0 then None
  else
    let l0 := ((y3 p1 - y3 p2) * (px - x3 p2) + (x3 p2 - x3 p1) * (py - y3 p2)) / d in
    let l1 := ((y3 p2 - y3 p0) * (px - x3 p2) + (x3 p0 - x3 p2) * (py - y3 p2)) / d in
    let l2 := 1 - l0 - l1 in
    if Qle_bool 0 l0 && Qle_bool 0 l1 && Qle_bool 0 l2
    then Some (l0 * z3 p0 + l1 * z3 p1 + l2 * z3 p2)
    else None.

(** Modelled from the spec (see [tri_hit]): the topmost covering triangle
    and its Z; the first one wins among equal heights. *)
Definition topmost_hit (mesh : Mesh) (px py : Q) : option (Triangle * Q) :=
  fold_left (fun best t =>
    match tri_hit t px py, best with
    | Some zz, None => Some (t, zz)
    | Some zz, Some (_, zb) => if Qltb zb zz then Some (t, zz) else best
    | None, _ => best
    end) (triangles mesh) None.

(** Modelled from the spec: [mesh_height_at] (see [tri_hit]). *)
Definition mesh_height_at (mesh : Mesh) (px py : Q) : option Q :=
  option_map snd (topmost_hit mesh px py).

(** Modelled from the spec: [surface_normal_at] (see [tri_hit]). *)
Definition surface_normal_at (mesh : Mesh) (px py : Q) : option Vec3 :=
  option_map (fun h => normal (fst h)) (topmost_hit mesh px py).

(* ------------------------------------------------------------------ *)
(** ** toolpath.rs: zig-zag surface strategy *)

Inductive ScanDirection := ScanX | ScanY.

Record SurfaceParams := mkSurfaceParams {
  mesh : Mesh; cut_params : CutParams; scan_direction : ScanDirection }.

Definition ball_end_offset (n : Vec3) (radius : Q) : Q * Q * Q :=
  let len := f64_sqrt (x3 n * x3 n + y3 n * y3 n + z3 n * z3 n) in
  if Qltb len plane_tol then (0, 0, 0)
  else
    let nx := x3 n / len in
    let ny := y3 n / len in
    let nz := z3 n / len in
    (radius * nx, radius * ny, radius * (1 - nz)).

Definition is_ball (t : ToolType) : bool :=
  match t with BallEnd => true | _ => false end.

Definition sample_point (m : Mesh) (px py : Q) (is_ball_end : bool) (tool_radius : Q)
  : option (Q * Q * Q) :=
  option_map (fun zz =>
    if is_ball_end then
      match surface_normal_at m px py with
      | Some nv => let '(dx, dy, dz) := ball_end_offset nv tool_radius in
                   (px + dx, py + dy, zz + dz)
      | None => (px, py, zz)
      end
    else (px, py, zz)) (mesh_height_at m px py).

(** [float_range]: [((end - start) / step).ceil() as usize + 1] samples,
    each clamped with [.min(end)]; the cast saturates negatives to [0]. *)
Definition float_range (start stop step : Q) : list Q :=
  map (fun i => fmin (start + inject_Z (Z.of_nat i) * step) stop)
    (seq 0 (S (Z.to_nat (Qceiling ((stop - start) / step))))).

(** The [while] loop of either scan direction: [row] runs over the row axis
    from [rmin] to [rmax]; [smp r s] samples row coordinate [r] and scan
    coordinate [s]. *)
Fixpoint raster_rows (fuel : nat) (smp : Q -> Q -> option (Q * Q * Q))
    (smin smax step rmax row : Q) (forward : bool) : list (list (Q * Q * Q)) :=
  match fuel with
  | O => []
  | S f =>
      if Qle_bool row rmax then
        let rng := float_range smin smax step in
        let rng := if forward then rng else rev rng in
        let r := flat_map (fun s => opt_to_list (smp row s)) rng in
        (match r with [] => [] | _ => [r] end)
          ++ raster_rows f smp smin smax step rmax (row + step) (negb forward)
      else []
  end.

Definition surface_rows (sp : SurfaceParams) (bb : BoundingBox) : list (list (Q * Q * Q)) :=
  let cp := cut_params sp in
  let step := fmax (step_over cp) step_floor in
  let ball := is_ball (tool_type (tool cp)) in
  let radius := diameter (tool cp) / 2 in
  match scan_direction sp with
  | ScanX =>
      raster_rows (loop_fuel (y3 (bmin bb)) (y3 (bmax bb)) step)
        (fun yv xv => sample_point (mesh sp) xv yv ball radius)
        (x3 (bmin bb)) (x3 (bmax bb)) step (y3 (bmax bb)) (y3 (bmin bb)) true
  | ScanY =>
      raster_rows (loop_fuel (x3 (bmin bb)) (x3 (bmax bb)) step)
        (fun xv yv => sample_point (mesh sp) xv yv ball radius)
        (y3 (bmin bb)) (y3 (bmax bb)) step (x3 (bmax bb)) (x3 (bmin bb)) true
  end.

Definition pt0 : Q * Q * Q := (0, 0, 0).

(** The toolpath of one non-empty row. *)
Definition row_toolpath (prev_end : option (Q * Q * Q)) (p0 : Q * Q * Q)
    (rest : list (Q * Q * Q)) (safe : Q) : Toolpath :=
  let '(x0, y0, z0) := p0 in
  let tp := match prev_end with
            | None => tp_cut (tp_rapid Toolpath_new x0 y0 safe) x0 y0 z0
            | Some (px, py, pz) => tp_cut (tp_cut Toolpath_new px py pz) x0 y0 z0
            end in
  fold_left (fun t '(xa, ya, za) => tp_cut t xa ya za) rest tp.

Fixpoint build_rows (rows : list (list (Q * Q * Q))) (prev_end : option (Q * Q * Q))
    (safe : Q) : list Toolpath * option (Q * Q * Q) :=
  match rows with
  | [] => ([], prev_end)
  | [] :: rs => build_rows rs prev_end safe
  | (p0 :: rest) :: rs =>
      let tp := row_toolpath prev_end p0 rest safe in
      let '(tps, pe) := build_rows rs (Some (last (p0 :: rest) pt0)) safe in
      (tp :: tps, pe)
  end.

(** [if let Some(last_tp) = toolpaths.last_mut() { ... last_tp.rapid(x, y, safe_z) }] *)
Definition final_retract (tps : list Toolpath) (pe : option (Q * Q * Q)) (safe : Q)
  : list Toolpath :=
  match rev tps, pe with
  | last_tp :: before, Some (px, py, _) => rev before ++ [tp_rapid last_tp px py safe]
  | _, _ => tps
  end.

Definition generate_surface (sp : SurfaceParams) : list Toolpath :=
  match bounds (mesh sp) with
  | None => []
  | Some bb =>
      let safe := safe_z (cut_params sp) in
      let '(tps, pe) := build_rows (surface_rows sp bb) None safe in
      final_retract tps pe safe
  end.

(* ------------------------------------------------------------------ *)
(** ** lib.rs: configuration and orchestration *)

Section Orchestrator.
Local Open Scope string_scope.

Record CamConfig := mkCamConfig {
  cfg_tool_diameter : Q;
  cfg_tool_type : String.string;
  cfg_corner_radius : Q;
  cfg_effective_diameter : option Q;
  cfg_step_over : Q;
  cfg_step_down : Q;
  cfg_feed_rate : Q;
  cfg_plunge_rate : Q;
  cfg_spindle_speed : Q;
  cfg_safe_z : Q;
  cfg_cut_depth : Q;
  cfg_strategy : String.string;
  cfg_climb_cut : bool;
  cfg_perimeter_passes : nat }.

Definition tool_from_config (c : CamConfig) : Tool :=
  if String.eqb (cfg_tool_type c) "ball_end" then
    mkTool BallEnd (cfg_tool_diameter c) 10 (cfg_tool_diameter c / 2)
  else if String.eqb (cfg_tool_type c) "face_mill" then
    mkTool (FaceMill (match cfg_effective_diameter c with
                      | Some e => e | None => cfg_tool_diameter c end))
      (cfg_tool_diameter c) 10 0
  else mkTool EndMill (cfg_tool_diameter c) 10 (cfg_corner_radius c).

Definition cut_params_of (c : CamConfig) : CutParams :=
  mkCutParams (tool_from_config c) (cfg_tool_diameter c) (cfg_step_over c) (cfg_step_down c)
    (cfg_feed_rate c) (cfg_plunge_rate c) (cfg_safe_z c) (cfg_cut_depth c)
    (cfg_climb_cut c) (cfg_perimeter_passes c).

(** The [Box<dyn ToolpathStrategy>] chosen by name. *)
Definition strategy_of (name : String.string) : list Polyline -> CutParams -> list Toolpath :=
  if String.eqb name "pocket" then PocketStrategy_generate
  else if String.eqb name "perimeter" then PerimeterStrategy_generate
  else ContourStrategy_generate.

(** [for (z, contours) in &layers { p.cut_z = *z; all.extend(strategy.generate(contours, &p)); }] *)
Definition run_layers (strat : list Polyline -> CutParams -> list Toolpath)
    (layers : list (Q * list Polyline)) (cp : CutParams) : list Toolpath :=
  flat_map (fun l => strat (snd l) (with_cut_z cp (fst l))) layers.

Definition fallback_z (m : Mesh) : Q :=
  match bounds m with Some bb => z3 (bmin bb) + (1 # 100) | None => 0 end.

(** The [match config.strategy.as_str()] of [process_stl]. *)
Definition process_stl_toolpaths (m : Mesh) (c : CamConfig) : list Toolpath :=
  let cp := cut_params_of c in
  let name := cfg_strategy c in
  if String.eqb name "pocket" then
    run_layers PocketStrategy_generate (slice_mesh m (cfg_step_down c)) cp
  else if String.eqb name "slice" then
    run_layers ContourStrategy_generate (slice_mesh m (cfg_step_down c)) cp
  else if String.eqb name "zigzag" then
    generate_surface (mkSurfaceParams m cp ScanX)
  else if String.eqb name "perimeter" then
    run_layers PerimeterStrategy_generate (slice_mesh m (cfg_step_down c)) cp
  else
    match run_layers ContourStrategy_generate (slice_mesh m (cfg_step_down c)) cp with
    | [] => ContourStrategy_generate (slice_at_z m (fallback_z m)) cp
    | all => all
    end.

(** [build_toolpaths_stl]. *)
Definition build_toolpaths_stl (m : Mesh) (c : CamConfig) : list Toolpath :=
  let cp := cut_params_of c in
  if String.eqb (cfg_strategy c) "zigzag" then generate_surface (mkSurfaceParams m cp ScanX)
  else
    let strat := strategy_of (cfg_strategy c) in
    match run_layers strat (slice_mesh m (cfg_step_down c)) cp with
    | [] => strat (slice_at_z m (fallback_z m)) cp
    | all => all
    end.

Definition depth_tol : Q := 1 # 1000.

(** The depth loop of [process_svg] and [build_toolpaths_svg]:
    [while z > cut_depth - 0.001 { z -= step_down; if z < cut_depth { z = cut_depth }
     run(z); if (z - cut_depth).abs() < 0.001 { break } }];
    [run z] is what one round appends. *)
Fixpoint depth_loop {A} (fuel : nat) (run : Q -> list A) (cut_depth step zz : Q) : list A :=
  match fuel with
  | O => []
  | S f =>
      if Qltb (cut_depth - depth_tol) zz then
        let z1 := zz - step in
        let z2 := if Qltb z1 cut_depth then cut_depth else z1 in
        run z2 ++ (if Qltb (Qabs (z2 - cut_depth)) depth_tol then []
                   else depth_loop f run cut_depth step z2)
      else []
  end.

(** Rounds of the depth loop: with [step_down > 0] it reaches [cut_depth]
    (and breaks) within this many rounds. *)
Definition depth_fuel (cut_depth step : Q) : nat :=
  S (S (Z.to_nat (Qceiling (- cut_depth / step)))).

Definition build_toolpaths_svg (polylines : list Polyline) (c : CamConfig) : list Toolpath :=
  let cp := cut_params_of c in
  let strat := strategy_of (cfg_strategy c) in
  depth_loop (depth_fuel (cfg_cut_depth c) (cfg_step_down c))
    (fun zz => strat polylines (with_cut_z cp zz)) (cfg_cut_depth c) (cfg_step_down c) 0.

End Orchestrator.

(* ------------------------------------------------------------------ *)
(** ** gcode.rs *)

Record GcodeParams := mkGcodeParams {
  g_feed_rate : Q; g_plunge_rate : Q; g_spindle_speed : Q; g_safe_z : Q; unit_mm : bool }.

Definition gcode_params_of (c : CamConfig) : GcodeParams :=
  mkGcodeParams (cfg_feed_rate c) (cfg_plunge_rate c) (cfg_spindle_speed c) (cfg_safe_z c) true.

Section Gcode.
Local Open Scope string_scope.
Local Infix "+++" := String.append (right associativity, at level 60).

(** [format!("{:.N}", v)] for an [f64] and [format!("{}", n)] for a [usize]. *)
Variable fmt_fixed : nat -> Q -> String.string.
Variable fmt_usize : nat -> String.string.

Definition nl : String.string := String.String (Ascii.ascii_of_nat 10) String.EmptyString.

Definition gcode_header (p : GcodeParams) : String.string :=
  "(RustCAM — generated G-code)" +++ nl
  +++ (if unit_mm p then "G21 (metric)" else "G20 (imperial)") +++ nl
  +++ "G90 (absolute positioning)" +++ nl
  +++ "G0 Z" +++ fmt_fixed 3 (g_safe_z p) +++ nl
  +++ "M3 S" +++ fmt_fixed 0 (g_spindle_speed p) +++ " (spindle on)" +++ nl
  +++ nl.

Definition gcode_footer (p : GcodeParams) : String.string :=
  "G0 Z" +++ fmt_fixed 3 (g_safe_z p) +++ nl
  +++ "M5 (spindle off)" +++ nl
  +++ "G0 X0 Y0" +++ nl
  +++ "M2 (program end)" +++ nl.

Fixpoint move_lines (p : GcodeParams) (last_rapid : bool) (mvs : list ToolpathMove)
  : String.string :=
  match mvs with
  | [] => ""
  | mv :: rest =>
      if rapid mv then
        "G0 X" +++ fmt_fixed 4 (mx mv) +++ " Y" +++ fmt_fixed 4 (my mv) +++ " Z" +++ fmt_fixed 4 (mz mv)
        +++ nl +++ move_lines p true rest
      else
        let feed := if Qltb (mz mv) (g_safe_z p - (1 # 100)) && last_rapid
                    then g_plunge_rate p else g_feed_rate p in
        "G1 X" +++ fmt_fixed 4 (mx mv) +++ " Y" +++ fmt_fixed 4 (my mv) +++ " Z" +++ fmt_fixed 4 (mz mv)
        +++ " F" +++ fmt_fixed 0 feed +++ nl +++ move_lines p false rest
  end.

Fixpoint toolpath_blocks (p : GcodeParams) (idx : nat) (tps : list Toolpath) : String.string :=
  match tps with
  | [] => ""
  | tp :: rest =>
      "(Toolpath " +++ fmt_usize (idx + 1) +++ ")" +++ nl +++ move_lines p true (moves tp) +++ nl
      +++ toolpath_blocks p (S idx) rest
  end.

Definition emit_gcode (tps : list Toolpath) (p : GcodeParams) : String.string :=
  gcode_header p +++ toolpath_blocks p 0 tps +++ gcode_footer p.

(** [process_stl] after parsing: the G-code of the mesh. *)
Definition process_stl_gcode (m : Mesh) (c : CamConfig) : String.string :=
  emit_gcode (process_stl_toolpaths m c) (gcode_params_of c).
End Gcode.

(* ------------------------------------------------------------------ *)
(** ** Observations on toolpaths and sample inputs *)

(** Whether the first move of a toolpath is a rapid ([None] if it has no move). *)
Definition first_rapid (t : Toolpath) : option bool := option_map rapid (hd_error (moves t)).

(** A flat 4 x 4 square at [z = 0], as two triangles. *)
Definition sq_mesh : Mesh := Mesh_new [
  mkTriangle (mkVec3 0 0 1) (mkVec3 0 0 0) (mkVec3 4 0 0) (mkVec3 4 4 0);
  mkTriangle (mkVec3 0 0 1) (mkVec3 0 0 0) (mkVec3 4 4 0) (mkVec3 0 4 0)].

(** A 2 mm end mill, step-over 2, step-down 1, safe Z 5, cut depth -1. *)
Definition prm : CutParams :=
  mkCutParams (mkTool EndMill 2 10 0) 2 2 1 800 300 5 (-1) false 1.

Definition sq_surface : SurfaceParams := mkSurfaceParams sq_mesh prm ScanX.

(** The closed 10 x 10 square [(0,0), (10,0), (10,10), (0,10)]. *)
Definition square10 : Polyline :=
  mkPolyline [mkVec2 0 0; mkVec2 10 0; mkVec2 10 10; mkVec2 0 10] true.



(* ------------------------------------------------------------------ *)
(** ** [ball_end_offset] over the real numbers *)

(** The depth schedule the spec describes: layer [i] (from 1) at [-i * step_down],
    clamped at [cut_depth]. *)
Definition depth_layer (cut_depth step : Q) (i : nat) : Q :=
  let zz := - (inject_Z (Z.of_nat i) * step) in
  if Qltb zz cut_depth then cut_depth else zz.

(** An SVG job whose step-down does not divide the cut depth: cut to [-1] in
    steps of [0.9995]. *)
Section SvgJob.
Local Open Scope string_scope.
Definition svg_cfg : CamConfig :=
  mkCamConfig 2 "end_mill" 0 None 1 (1999 # 2000) 800 300 12000 5 (-1) "contour" false 1.
End SvgJob.

Module BallEndR.
Import Reals.
Local Open Scope R_scope.

Record Vec3R := mkVec3R { rx : R; ry : R; rz : R }.

(** [ball_end_offset] with exact real arithmetic and square root; the
    threshold [1e-10] is [/ 10 ^ 10]. *)
Definition norm (n : Vec3R) : R := sqrt (rx n * rx n + ry n * ry n + rz n * rz n).

Definition ball_end_offset (n : Vec3R) (radius : R) : R * R * R :=
  let len := norm n in
  if Rlt_dec len (/ 10 ^ 10) then (0, 0, 0)
  else
    let nx := rx n / len in
    let ny := ry n / len in
    let nz := rz n / len in
    (radius * nx, radius * ny, radius * (1 - nz)).
End BallEndR.

(* ------------------------------------------------------------------ *)
(** ** Predicates used by the proofs *)

Definition empty_or_rapid (tp : Toolpath) : Prop := moves tp = [] \/ first_rapid tp = Some true.

Definition in_box2 (mn mx : Vec2) (p : Vec2) : Prop :=
  x mn <= x p <= x mx /\ y mn <= y p <= y mx.

Definition pt_in (xl xh yl yh : Q) (p : Q * Q * Q) : Prop :=
  let '(a, b, _) := p in xl <= a <= xh /\ yl <= b <= yh.

Definition move_xy_in (xl xh yl yh : Q) (m : ToolpathMove) : Prop :=
  xl <= mx m <= xh /\ yl <= my m <= yh.


(** The bounding-box area comparator of [PerimeterStrategy::generate] in
    IEEE binary64, where a product of an infinite width and a zero height is
    NaN. *)
Module F64.
Import Floats.
Local Open Scope float_scope.

Record Vec2f := mkVec2f { fx : float; fy : float }.

Definition f64_MAX : float := next_down infinity.
Definition f64_MIN : float := - f64_MAX.

(** [f64::min] and [f64::max]: a NaN operand yields the other operand. *)
Definition f64_min (u v : float) : float :=
  if is_nan u then v else if is_nan v then u else if v <? u then v else u.
Definition f64_max (u v : float) : float :=
  if is_nan u then v else if is_nan v then u else if u <? v then v else u.

Definition bb2_step (acc : Vec2f * Vec2f) (p : Vec2f) : Vec2f * Vec2f :=
  let (mn, mx) := acc in
  (mkVec2f (f64_min (fx mn) (fx p)) (f64_min (fy mn) (fy p)),
   mkVec2f (f64_max (fx mx) (fx p)) (f64_max (fy mx) (fy p))).

(** [BoundingBox2::from_points]. *)
Definition BoundingBox2_from_points (pts : list Vec2f) : option (Vec2f * Vec2f) :=
  match pts with
  | [] => None
  | _ => Some (fold_left bb2_step pts (mkVec2f f64_MAX f64_MAX, mkVec2f f64_MIN f64_MIN))
  end.

(** [c.bounds().map_or(0.0, |b| (b.max.x - b.min.x) * (b.max.y - b.min.y))]. *)
Definition bbox_area (pts : list Vec2f) : float :=
  match BoundingBox2_from_points pts with
  | None => 0
  | Some (mn, mx) => (fx mx - fx mn) * (fy mx - fy mn)
  end.

(** [f64::partial_cmp]: [None] when an operand is NaN. *)
Definition partial_cmp (u v : float) : option comparison :=
  match PrimFloat.compare u v with
  | FEq => Some Eq
  | FLt => Some Lt
  | FGt => Some Gt
  | FNotComparable => None
  end.

(** [contours.iter().max_by(|a, b| area_a.partial_cmp(&area_b).unwrap())]:
    [None] is the panic of [unwrap]; otherwise [Some] of the result.  The
    fold keeps the accumulated element only when the comparator answers
    [Greater]. *)
Definition max_by_area (cs : list (list Vec2f)) : option (option (list Vec2f)) :=
  match cs with
  | [] => Some None
  | c :: rest =>
      option_map Some
        (fold_left (fun acc c' =>
           match acc with
           | None => None
           | Some m =>
               match partial_cmp (bbox_area m) (bbox_area c') with
               | None => None
               | Some Gt => Some m
               | Some _ => Some c'
               end
           end) rest (Some c))
  end.

(** Two finite contours: a flat one spanning the whole [f64] range in [x],
    and a unit triangle. *)
Definition wide_flat : list Vec2f := [mkVec2f (- f64_MAX) 0; mkVec2f f64_MAX 0].
Definition unit_tri : list Vec2f := [mkVec2f 0 0; mkVec2f 1 0; mkVec2f 0 1].

Definition finite_pt (p : Vec2f) : bool := is_finite (fx p) && is_finite (fy p).
End F64.

(* ------------------------------------------------------------------ *)
(** ** tool.rs: [Tool::effective_diameter] *)

Definition Tool_effective_diameter (t : Tool) : Q :=
  match tool_type t with
  | FaceMill e => e
  | _ => diameter t
  end.

(* ------------------------------------------------------------------ *)
(** ** Shapes of the strategies' toolpaths *)

(** A toolpath that starts and ends with a rapid at [safe_z] and cuts at
    [cut_z] in between. *)
Definition path_shape (p : CutParams) (t : Toolpath) : Prop :=
  exists f mids l, moves t = f :: mids ++ [l] /\
    rapid f = true /\ mz f = safe_z p /\ rapid l = true /\ mz l = safe_z p /\
    Forall (fun m => rapid m = false /\ mz m = cut_z p) mids.

(** The four moves that one scanline pair of the pocket strategy pushes:
    rapid above the start, plunge, cut along the row, retract. *)
Definition pocket_pass (p : CutParams) (s : Q * Q * Q) : list ToolpathMove :=
  let '(xs, xe, yy) := s in
  [mkMove xs yy (safe_z p) true; mkMove xs yy (cut_z p) false;
   mkMove xe yy (cut_z p) false; mkMove xe yy (safe_z p) true].

(** The number of input segments a chained polyline stands for: one per
    edge, counting the implicit closing edge of a closed polyline. *)
Definition seg_count (pl : Polyline) : nat :=
  (length (points pl) - 1 + (if closed pl then 1 else 0))%nat.

Definition count_unused (used : list bool) : nat := length (filter negb used).


Definition is_nil {A} (l : list A) : bool := match l with [] => true | _ => false end.

(** The strategy names [process_stl] runs on the slice layers without the
    single-slice fallback. *)
Section Names.
Local Open Scope string_scope.
Definition no_fallback_names : list String.string := ["pocket"; "slice"; "perimeter"].
End Names.

(** A 2-D job whose cut depth lies above the stock surface. *)
Section ShallowJob.
Local Open Scope string_scope.
Definition above_cfg : CamConfig :=
  mkCamConfig 2 "end_mill" 0 None 1 1 800 300 12000 5 1 "contour" false 1.
End ShallowJob.

(* ------------------------------------------------------------------ *)
(** ** stl.rs: the binary reader and the format dispatch

    The file is its list of bytes.  An index past the end ([data[i]] out
    of range) panics: every read goes through [nth_error], and a failed
    read makes the whole parse [StlPanic].  [usize] is taken to be 64 bits
    wide, where [84 + tri_count * 50 < 2 ^ 38] never wraps, so the lengths
    and offsets are read as [nat].  Two pieces are parameters of the
    Section: [f32_value], the value of [f32::from_le_bytes(..) as f64] for
    the 32-bit little-endian word it is given (read in [Q] like every
    float of this development), and [parse_ascii_stl], the text reader,
    which [parse_stl] only hands inputs to.  [fmt_usize] renders a [usize]
    for [format!]. *)

Inductive StlResult := StlOk (m : Mesh) | StlErr (msg : String.string) | StlPanic.

Section Stl.
Local Open Scope string_scope.
Variable f32_value : Z -> Q.
Variable fmt_usize : nat -> String.string.
Variable parse_ascii_stl : list Byte.byte -> StlResult.

(** [u32::from_le_bytes([b0, b1, b2, b3])]. *)
Definition u32_le (b0 b1 b2 b3 : Byte.byte) : Z :=
  Z.of_N (Byte.to_N b0) + 256 * Z.of_N (Byte.to_N b1)
  + 65536 * Z.of_N (Byte.to_N b2) + 16777216 * Z.of_N (Byte.to_N b3).

Definition read_f32_le (data : list Byte.byte) (offset : nat) : option Q :=
  match nth_error data offset, nth_error data (offset + 1),
        nth_error data (offset + 2), nth_error data (offset + 3) with
  | Some b0, Some b1, Some b2, Some b3 => Some (f32_value (u32_le b0 b1 b2 b3))
  | _, _, _, _ => None
  end.

Definition read_vec3 (data : list Byte.byte) (offset : nat) : option Vec3 :=
  match read_f32_le data offset, read_f32_le data (offset + 4),
        read_f32_le data (offset + 8) with
  | Some a, Some b, Some c => Some (mkVec3 a b c)
  | _, _, _ => None
  end.

(** The body of the loop of [parse_binary_stl] at [base = 84 + i * 50]. *)
Definition read_triangle (data : list Byte.byte) (base : nat) : option Triangle :=
  match read_vec3 data base, read_vec3 data (base + 12),
        read_vec3 data (base + 24), read_vec3 data (base + 36) with
  | Some n, Some a, Some b, Some c => Some (mkTriangle n a b c)
  | _, _, _, _ => None
  end.

(** [for i in i..i + k], pushing the triangle read at [84 + i * 50]. *)
Fixpoint read_triangles (data : list Byte.byte) (i k : nat) : option (list Triangle) :=
  match k with
  | O => Some []
  | S k' =>
      match read_triangle data (84 + i * 50), read_triangles data (S i) k' with
      | Some t, Some ts => Some (t :: ts)
      | _, _ => None
      end
  end.

(** [u32::from_le_bytes([data[80], data[81], data[82], data[83]]) as usize]. *)
Definition header_count (data : list Byte.byte) : option nat :=
  match nth_error data 80, nth_error data 81, nth_error data 82, nth_error data 83 with
  | Some b0, Some b1, Some b2, Some b3 => Some (Z.to_nat (u32_le b0 b1 b2 b3))
  | _, _, _, _ => None
  end.

Definition parse_binary_stl (data : list Byte.byte) : StlResult :=
  if (length data <? 84)%nat then StlErr "Binary STL too short" else
  match header_count data with
  | None => StlPanic
  | Some tri_count =>
      let expected := (84 + tri_count * 50)%nat in
      if (length data <? expected)%nat then
        StlErr (String.append "Binary STL truncated: expected "
                  (String.append (fmt_usize expected)
                     (String.append " bytes, got " (fmt_usize (length data)))))
      else
        match read_triangles data 0 tri_count with
        | Some ts => StlOk (Mesh_new ts)
        | None => StlPanic
        end
  end.

(** [<[u8]>::starts_with]. *)
Definition starts_with (data pre : list Byte.byte) : bool :=
  if list_eq_dec Byte.byte_eq_dec (firstn (length pre) data) pre then true else false.

Definition solid_bytes : list Byte.byte := String.list_byte_of_string "solid".

Definition parse_stl (data : list Byte.byte) : StlResult :=
  if (length data <? 84)%nat then parse_ascii_stl data else
  if starts_with data solid_bytes then
    match header_count data with
    | None => StlPanic
    | Some tri_count =>
        if negb (84 + tri_count * 50 =? length data)%nat then parse_ascii_stl data
        else parse_binary_stl data
    end
  else parse_binary_stl data.
End Stl.

(* ------------------------------------------------------------------ *)
(** ** svg.rs: the path-data tokenizer, the [points] attribute and the
    Bezier subdivisions

    A Rust [&str] is read as the sequence of its [char]s, each one its
    Unicode scalar value as a [Z]; a [String] token is such a list.  The
    number reader [str::parse::<f64>] is the parameter [parse_f64] of the
    Section below, with its value read in [Q]. *)

(** [char::is_ascii_alphabetic]. *)
Definition is_ascii_alphabetic (c : Z) : bool :=
  (((65 <=? c) && (c <=? 90)) || ((97 <=? c) && (c <=? 122)))%Z.

(** [char::is_whitespace]: the Unicode [White_Space] property. *)
Definition is_whitespace (c : Z) : bool :=
  (((9 <=? c) && (c <=? 13)) || (c =? 32) || (c =? 133) || (c =? 160)
   || (c =? 5760) || ((8192 <=? c) && (c <=? 8202)) || (c =? 8232)
   || (c =? 8233) || (c =? 8239) || (c =? 8287) || (c =? 12288))%Z.

(** The separators of [tokenize_d] and [parse_points_attr]:
    [c == ',' || c.is_whitespace()]. *)
Definition is_sep (c : Z) : bool := Z.eqb c 44 || is_whitespace c.

(** [String::ends_with(ch)]. *)
Definition ends_with (buf : list Z) (ch : Z) : bool :=
  match rev buf with c :: _ => Z.eqb c ch | [] => false end.

(** [tokens.push(buf.clone()); buf.clear()] when [buf] is not empty. *)
Definition flush (buf : list Z) : list (list Z) := if is_nil buf then [] else [buf].

(** The loop of [tokenize_d] from the buffer [buf] over the remaining
    characters; the tokens are listed in the order they are pushed. *)
Fixpoint tokenize_from (buf : list Z) (cs : list Z) : list (list Z) :=
  match cs with
  | [] => flush buf
  | ch :: cs' =>
      if is_ascii_alphabetic ch then flush buf ++ [ch] :: tokenize_from [] cs'
      else if is_sep ch then flush buf ++ tokenize_from [] cs'
      else if Z.eqb ch 45 && negb (is_nil buf) && negb (ends_with buf 101)
              && negb (ends_with buf 69)
      then buf :: tokenize_from [ch] cs'
      else tokenize_from (buf ++ [ch]) cs'
  end.

Definition tokenize_d (d : list Z) : list (list Z) := tokenize_from [] d.

(** [s.split(|c| c == ',' || c.is_whitespace())] from the field [cur]:
    every field, the empty ones included. *)
Fixpoint split_fields (cur : list Z) (cs : list Z) : list (list Z) :=
  match cs with
  | [] => [cur]
  | c :: cs' => if is_sep c then cur :: split_fields [] cs' else split_fields (cur ++ [c]) cs'
  end.

(** [nums.chunks(2)] mapped to points, for an even number of values. *)
Fixpoint pairs (l : list Q) : list Vec2 :=
  match l with
  | a :: b :: t => mkVec2 a b :: pairs t
  | _ => []
  end.

(** Interleaves the coordinates of the points back into a list. *)
Definition coords (pts : list Vec2) : list Q := flat_map (fun p => [x p; y p]) pts.

Section SvgNumbers.
Local Open Scope string_scope.
Variable parse_f64 : list Z -> option Q.

(** [.map(|s| s.parse::<f64>()).collect::<Result<Vec<_>, _>>()]. *)
Fixpoint parse_all (fs : list (list Z)) : option (list Q) :=
  match fs with
  | [] => Some []
  | f :: fs' =>
      match parse_f64 f with
      | None => None
      | Some v => match parse_all fs' with Some vs => Some (v :: vs) | None => None end
      end
  end.

(** The message of a [ParseFloatError] on a non-empty field is
    "invalid float literal". *)
Definition parse_points_attr (s : list Z) : String.string + list Vec2 :=
  match parse_all (filter (fun f => negb (is_nil f)) (split_fields [] s)) with
  | None => inl "points parse error: invalid float literal"
  | Some nums =>
      if negb (Nat.even (length nums))
      then inl "Odd number of coordinates in points attribute"
      else inr (pairs nums)
  end.
End SvgNumbers.

(** [s as f64 / steps as f64] for [s] in [1..=steps]. *)
Definition step_t (s steps : nat) : Q := inject_Z (Z.of_nat s) / inject_Z (Z.of_nat steps).

(** The points [subdivide_cubic] pushes, in order. *)
Definition subdivide_cubic (p0 p1 p2 p3 : Vec2) (steps : nat) : list Vec2 :=
  map (fun s =>
         let t := step_t s steps in
         let u := 1 - t in
         mkVec2 (u * u * u * x p0 + 3 * u * u * t * x p1 + 3 * u * t * t * x p2 + t * t * t * x p3)
                (u * u * u * y p0 + 3 * u * u * t * y p1 + 3 * u * t * t * y p2 + t * t * t * y p3))
      (seq 1 steps).

(** The points [subdivide_quadratic] pushes, in order. *)
Definition subdivide_quadratic (p0 p1 p2 : Vec2) (steps : nat) : list Vec2 :=
  map (fun s =>
         let t := step_t s steps in
         let u := 1 - t in
         mkVec2 (u * u * x p0 + 2 * u * t * x p1 + t * t * x p2)
                (u * u * y p0 + 2 * u * t * y p1 + t * t * y p2))
      (seq 1 steps).

(** *** [parse_path_d]

    The token list [tokens[i..]] that is left to read stands for the index
    [i].  The inner [while i < tokens.len() && is_number(&tokens[i])] loops
    are given [tokens.len() - i] rounds of fuel, and the outer loop one
    more than the number of tokens: every round of an inner loop reads at
    least two tokens and every round of the outer loop at least one, so
    the fuel never runs out before the loop's own exit.  [render] is the
    text of a token in the error message. *)

(** [tokens[i].as_str() == "c"] for the one-letter command [c]. *)
Definition tok_is (t : list Z) (c : Z) : bool :=
  match t with [a] => Z.eqb a c | _ => false end.

Section PathData.
Local Open Scope string_scope.
Variable parse_f64 : list Z -> option Q.
Variable render : list Z -> String.string.

Definition is_number (t : list Z) : bool :=
  match parse_f64 t with Some _ => true | None => false end.

(** [i < tokens.len() && is_number(&tokens[i])]. *)
Definition next_is_number (ts : list (list Z)) : bool :=
  match ts with t :: _ => is_number t | [] => false end.

Definition read_one (ts : list (list Z)) : String.string + (Q * list (list Z)) :=
  match ts with
  | [] => inl "Unexpected end of path data"
  | t :: ts' =>
      match parse_f64 t with
      | Some v => inr (v, ts')
      | None => inl (String.append "Expected number, got '" (String.append (render t) "'"))
      end
  end.

Definition read_pair (ts : list (list Z)) : String.string + (Q * Q * list (list Z)) :=
  match read_one ts with
  | inl e => inl e
  | inr (a, ts1) =>
      match read_one ts1 with
      | inl e => inl e
      | inr (b, ts2) => inr (a, b, ts2)
      end
  end.

(** The point a coordinate pair names: as is for the upper-case commands,
    added to the cursor for the lower-case ones. *)
Definition rel_to (rel : bool) (cur : Vec2) (a b : Q) : Vec2 :=
  if rel then mkVec2 (x cur + a) (y cur + b) else mkVec2 a b.

(** The implicit line-to loop after [M]/[m] and the loop of [L]/[l]. *)
Fixpoint lineto_loop (fuel : nat) (rel : bool) (cur : Vec2) (pts : list Vec2)
    (ts : list (list Z)) : String.string + (Vec2 * list Vec2 * list (list Z)) :=
  match fuel with
  | O => inr (cur, pts, ts)
  | S fuel' =>
      if next_is_number ts then
        match read_pair ts with
        | inl e => inl e
        | inr (a, b, ts') =>
            let c := rel_to rel cur a b in
            lineto_loop fuel' rel c (pts ++ [c]) ts'
        end
      else inr (cur, pts, ts)
  end.

(** The loop of [C]/[c]. *)
Fixpoint cubic_loop (fuel : nat) (rel : bool) (cur : Vec2) (pts : list Vec2)
    (ts : list (list Z)) : String.string + (Vec2 * list Vec2 * list (list Z)) :=
  match fuel with
  | O => inr (cur, pts, ts)
  | S fuel' =>
      if next_is_number ts then
        match read_pair ts with
        | inl e => inl e
        | inr (a1, b1, ts1) =>
            match read_pair ts1 with
            | inl e => inl e
            | inr (a2, b2, ts2) =>
                match read_pair ts2 with
                | inl e => inl e
                | inr (a, b, ts3) =>
                    let p1 := rel_to rel cur a1 b1 in
                    let p2 := rel_to rel cur a2 b2 in
                    let p3 := rel_to rel cur a b in
                    cubic_loop fuel' rel p3 (pts ++ subdivide_cubic cur p1 p2 p3 16) ts3
                end
            end
        end
      else inr (cur, pts, ts)
  end.

(** The loop of [Q]/[q]. *)
Fixpoint quad_loop (fuel : nat) (rel : bool) (cur : Vec2) (pts : list Vec2)
    (ts : list (list Z)) : String.string + (Vec2 * list Vec2 * list (list Z)) :=
  match fuel with
  | O => inr (cur, pts, ts)
  | S fuel' =>
      if next_is_number ts then
        match read_pair ts with
        | inl e => inl e
        | inr (a1, b1, ts1) =>
            match read_pair ts1 with
            | inl e => inl e
            | inr (a, b, ts2) =>
                let p1 := rel_to rel cur a1 b1 in
                let p2 := rel_to rel cur a b in
                quad_loop fuel' rel p2 (pts ++ subdivide_quadratic cur p1 p2 16) ts2
            end
        end
      else inr (cur, pts, ts)
  end.

(** The outer [while i < tokens.len()] loop with its state: the points,
    [closed], [cursor] and [start].  [M] (77) and [m] (109) differ only in
    [rel_to]; so do [L]/[l] (76, 108), [H]/[h] (72, 104), [V]/[v] (86,
    118), [C]/[c] (67, 99) and [Q]/[q] (81, 113); [Z] is 90, [z] 122. *)
Fixpoint path_loop (fuel : nat) (pts : list Vec2) (closed : bool) (cur start : Vec2)
    (ts : list (list Z)) : String.string + Polyline :=
  match fuel with
  | O => inr (mkPolyline pts closed)
  | S fuel' =>
      match ts with
      | [] => inr (mkPolyline pts closed)
      | t :: rest =>
          if tok_is t 77 || tok_is t 109 then
            match read_pair rest with
            | inl e => inl e
            | inr (a, b, r) =>
                let c := rel_to (tok_is t 109) cur a b in
                match lineto_loop (length r) (tok_is t 109) c (pts ++ [c]) r with
                | inl e => inl e
                | inr (c', pts', r') => path_loop fuel' pts' closed c' c r'
                end
            end
          else if tok_is t 76 || tok_is t 108 then
            match lineto_loop (length rest) (tok_is t 108) cur pts rest with
            | inl e => inl e
            | inr (c', pts', r') => path_loop fuel' pts' closed c' start r'
            end
          else if tok_is t 72 || tok_is t 104 then
            match read_one rest with
            | inl e => inl e
            | inr (v, r) =>
                let c := mkVec2 (if tok_is t 104 then x cur + v else v) (y cur) in
                path_loop fuel' (pts ++ [c]) closed c start r
            end
          else if tok_is t 86 || tok_is t 118 then
            match read_one rest with
            | inl e => inl e
            | inr (v, r) =>
                let c := mkVec2 (x cur) (if tok_is t 118 then y cur + v else v) in
                path_loop fuel' (pts ++ [c]) closed c start r
            end
          else if tok_is t 67 || tok_is t 99 then
            match cubic_loop (length rest) (tok_is t 99) cur pts rest with
            | inl e => inl e
            | inr (c', pts', r') => path_loop fuel' pts' closed c' start r'
            end
          else if tok_is t 81 || tok_is t 113 then
            match quad_loop (length rest) (tok_is t 113) cur pts rest with
            | inl e => inl e
            | inr (c', pts', r') => path_loop fuel' pts' closed c' start r'
            end
          else if tok_is t 90 || tok_is t 122 then
            path_loop fuel' pts true start start rest
          else path_loop fuel' pts closed cur start rest
      end
  end.

Definition parse_path_tokens (tokens : list (list Z)) : String.string + Polyline :=
  path_loop (S (length tokens)) [] false origin2 origin2 tokens.

Definition parse_path_d (d : list Z) : String.string + Polyline :=
  parse_path_tokens (tokenize_d d).
End PathData.

(** The points of a relative line-to chain: each pair added to the point
    before it, starting from [c]. *)
Fixpoint cumulative (c : Vec2) (ds : list Vec2) : list Vec2 :=
  match ds with
  | [] => []
  | d :: ds' => let c' := mkVec2 (x c + x d) (y c + y d) in c' :: cumulative c' ds'
  end.

(* ------------------------------------------------------------------ *)
(** ** Sample inputs of the readers *)

(** A one-triangle binary STL file whose 80-byte header starts with
    "solid": its length is exactly [84 + 50]. *)
Section StlSample.
Local Open Scope string_scope.
Definition stl_sample : list Byte.byte :=
  String.list_byte_of_string "solid" ++ repeat Byte.x00 75 ++
  [Byte.x01; Byte.x00; Byte.x00; Byte.x00] ++ repeat Byte.x00 50.
End StlSample.

(** A reader of one-digit numbers, standing for [str::parse::<f64>]. *)
Definition digit_value (t : list Z) : option Q :=
  match t with
  | [c] => if ((48 <=? c) && (c <=? 57))%Z then Some (inject_Z (c - 48)) else None
  | _ => None
  end.

(** *** [extract_attr]

    [str::find] returns the position of the first match; over the list of
    characters this is the index of the first suffix that starts with the
    pattern, and the slices [tag[a..b]] are [firstn]/[skipn] of the same
    list. *)

Fixpoint is_prefix (pat s : list Z) : bool :=
  match pat, s with
  | [], _ => true
  | c :: pat', d :: s' => Z.eqb c d && is_prefix pat' s'
  | _ :: _, [] => false
  end.

(** [s.find(pat)]. *)
Fixpoint find_sub (pat s : list Z) : option nat :=
  if is_prefix pat s then Some O
  else match s with
       | [] => None
       | _ :: s' => option_map S (find_sub pat s')
       end.

(** One attempt of [extract_attr] with the quote character [q]:
    [format!("{}={q}", name)], then the text up to the next [q]. *)
Definition extract_quoted (tag name : list Z) (q : Z) : option (list Z) :=
  let pattern := name ++ [61%Z; q] in
  match find_sub pattern tag with
  | Some start =>
      let rest := skipn (start + length pattern) tag in
      match find_sub [q] rest with
      | Some e => Some (firstn e rest)
      | None => None
      end
  | None => None
  end.

(** Double quotes (34) first, then single quotes (39). *)
Definition extract_attr (tag name : list Z) : option (list Z) :=
  match extract_quoted tag name 34 with
  | Some v => Some v
  | None => extract_quoted tag name 39
  end.

(** The characters of an ASCII string literal. *)
Definition zchars (s : String.string) : list Z :=
  map (fun b => Z.of_N (Byte.to_N b)) (String.list_byte_of_string s).

(** The tag [<rect rx="3" x="5"], cut around its first [x=] and double quote. *)
Section AttrSample.
Local Open Scope string_scope.
Definition rect_tag_pre : list Z := zchars "<rect r".
Definition rect_tag_post : list Z := zchars " x=" ++ [34%Z] ++ zchars "5" ++ [34%Z].
Definition attr_x : list Z := zchars "x".
Definition attr_val : list Z := zchars "3".
End AttrSample.

(* ------------------------------------------------------------------ *)
(** ** Loops over a binary64 accumulator

    [slice_mesh], the depth loop of the 2-D pipeline and [float_range]
    compute their heights in [f64].  Here every arithmetic result goes
    through [rnd], the rounding of the exact value to [f64].  The theorems
    about these loops assume only what round-to-nearest guarantees on the
    finite range ([is_rounding]): it is monotone, a rounded value rounds to
    itself, and it commutes with negation.  An input that is an [f64] value
    [v] satisfies [rnd v == v]. *)
Definition is_rounding (rnd : Q -> Q) : Prop :=
  (forall a b, a <= b -> rnd a <= rnd b) /\
  (forall a, rnd (rnd a) == rnd a) /\
  (forall a, rnd (- a) == - rnd a).

Section Rounded.
Variable rnd : Q -> Q.

(** [while z <= z_max { let contours = slice(z); if !contours.is_empty()
    { layers.push((z, contours)) } z += layer_height }]: [Some] of the
    layers when the loop ends within [fuel] rounds, [None] otherwise (the
    loop has no bound of its own in [f64]: it runs forever once [z + h]
    rounds back to [z]). *)
Fixpoint slice_loop_rnd (fuel : nat) (slice : Q -> list Polyline) (h zmax zz : Q)
  : option (list (Q * list Polyline)) :=
  match fuel with
  | O => None
  | S f =>
      if Qle_bool zz zmax then
        let contours := slice zz in
        option_map (app (match contours with [] => [] | _ => [(zz, contours)] end))
          (slice_loop_rnd f slice h zmax (rnd (zz + h)))
      else Some []
  end.

(** [slice_mesh] in [f64]; [slice] is [slice_at_z]. *)
Definition slice_mesh_rnd (slice : Mesh -> Q -> list Polyline) (fuel : nat) (mesh : Mesh) (h : Q)
  : option (list (Q * list Polyline)) :=
  match bounds mesh with
  | None => Some []
  | Some bb =>
      slice_loop_rnd fuel (slice mesh) h (z3 (bmax bb)) (rnd (z3 (bmin bb) + rnd (h * (1 # 2))))
  end.

(** The depth loop of [process_svg] and [build_toolpaths_svg] in [f64]:
    [while z > cut_depth - 0.001 { z -= step_down; if z < cut_depth
    { z = cut_depth } run(z); if (z - cut_depth).abs() < 0.001 { break } }];
    the literal [0.001] is [rnd depth_tol].  [None] when the loop has not
    ended after [fuel] rounds. *)
Fixpoint depth_loop_rnd {A} (fuel : nat) (run : Q -> list A) (cut_depth step zz : Q)
  : option (list A) :=
  match fuel with
  | O => None
  | S f =>
      if Qltb (rnd (cut_depth - rnd depth_tol)) zz then
        let z1 := rnd (zz - step) in
        let z2 := if Qltb z1 cut_depth then cut_depth else z1 in
        if Qltb (Qabs (rnd (z2 - cut_depth))) (rnd depth_tol) then Some (run z2)
        else option_map (app (run z2)) (depth_loop_rnd f run cut_depth step z2)
      else Some []
  end.

(** A layer of the depth loop after which the loop goes on: an [f64] value
    in [[cut_depth, 0]] at least [0.001] away from [cut_depth]. *)
Definition depth_open (cut z : Q) : Prop :=
  rnd z == z /\ cut <= z /\ z <= 0 /\ rnd depth_tol <= Qabs (rnd (z - cut)).

Definition build_toolpaths_svg_rnd (fuel : nat) (polylines : list Polyline) (c : CamConfig)
  : option (list Toolpath) :=
  let cp := cut_params_of c in
  let strat := strategy_of (cfg_strategy c) in
  depth_loop_rnd fuel (fun zz => strat polylines (with_cut_z cp zz))
    (cfg_cut_depth c) (cfg_step_down c) 0.


End Rounded.

(* ------------------------------------------------------------------ *)
(** ** The pocket strategy in binary64

    [PocketStrategy::generate] for one contour, with [f64] as Rocq's
    primitive floats.  The rows are bounded by [fuel]. *)
Module F64Pocket.
Import Floats F64.
Local Open Scope float_scope.

Record Movef := mkMovef { mfx : float; mfy : float; mfz : float; mrapid : bool }.

(** [scanline_intersect]. *)
Definition scanline_intersect_f (pts : list Vec2f) (y : float) : list float :=
  let n := length pts in
  if Nat.ltb n 2 then []
  else flat_map (fun i =>
         let a := nth i pts (mkVec2f 0 0) in
         let b := nth ((i + 1) mod n) pts (mkVec2f 0 0) in
         if (fy a <=? y) && (y <? fy b) || (fy b <=? y) && (y <? fy a) then
           let t := (y - fy a) / (fy b - fy a) in [fx a + t * (fx b - fx a)]
         else []) (seq 0 n).

(** [xs.sort_by(|a, b| a.partial_cmp(b).unwrap())] on values that are not
    NaN: a stable sort, as an insertion sort. *)
Fixpoint insert_f (v : float) (l : list float) : list float :=
  match l with
  | [] => [v]
  | w :: l' => if v <? w then v :: l else w :: insert_f v l'
  end.

Definition sort_f (l : list float) : list float := fold_left (fun acc v => insert_f v acc) l [].

(** One row: [for pair in xs.chunks(2)] with the inset by [offset]. *)
Fixpoint row_moves (xs : list float) (off y safe cutz : float) (forward : bool) : list Movef :=
  match xs with
  | a :: b :: rest =>
      let x0 := a + off in
      let x1 := b - off in
      (if x1 <=? x0 then []
       else
         let sx := if forward then x0 else x1 in
         let ex := if forward then x1 else x0 in
         [mkMovef sx y safe true; mkMovef sx y cutz false;
          mkMovef ex y cutz false; mkMovef ex y safe true])
      ++ row_moves rest off y safe cutz forward
  | _ => []
  end.

(** [while y <= y_max { ...; forward = !forward; y += step }]. *)
Fixpoint pocket_rows_f (fuel : nat) (pts : list Vec2f) (off step ymax safe cutz y : float)
    (forward : bool) : list Movef :=
  match fuel with
  | O => []
  | S f =>
      if y <=? ymax then
        row_moves (sort_f (scanline_intersect_f pts y)) off y safe cutz forward
        ++ pocket_rows_f f pts off step ymax safe cutz (y + step) (negb forward)
      else []
  end.

(** The moves of the toolpath [PocketStrategy::generate] makes for one
    contour. *)
Definition pocket_contour_f (fuel : nat) (pts : list Vec2f) (closed : bool)
    (tool_diameter step_over safe cutz : float) : list Movef :=
  if Nat.ltb (length pts) 3 || negb closed then []
  else
    match BoundingBox2_from_points pts with
    | None => []
    | Some (mn, mx) =>
        let off := tool_diameter / 2 in
        let ymin := fy mn + off in
        let ymax := fy mx - off in
        let step := f64_max step_over 0.1 in
        pocket_rows_f fuel pts off step ymax safe cutz ymin true
    end.

(** A closed quadrilateral whose leftmost vertex [(0.1, 0)] sits on the
    only scanline [y = 0] a tool of diameter 2 leaves. *)
Definition thin_quad : list Vec2f :=
  [mkVec2f 100 1; mkVec2f 0.1 0; mkVec2f 50 (-1); mkVec2f 200 0].

(** [tool_diameter = 2]; the inset is [offset = tool_diameter / 2]. *)
Definition thin_quad_d : float := 2.
Definition thin_quad_r : float := thin_quad_d / 2.

(** The moves for [thin_quad] with [step_over = 1], [safe_z = 5] and
    [cut_z = -1]. *)
Definition thin_quad_moves : list Movef := pocket_contour_f 10 thin_quad true thin_quad_d 1 5 (-1).
End F64Pocket.

(* ------------------------------------------------------------------ *)
(** ** Lemmas *)

Lemma Qltb_iff (u v : Q) : Qltb u v = true <-> u < v.
Proof.
  unfold Qltb. rewrite negb_true_iff. split; intro H.
  - apply Qnot_le_lt. intro H'. apply Qle_bool_iff in H'. congruence.
  - destruct (Qle_bool v u) eqn:E; [|reflexivity].
    apply Qle_bool_iff in E. exfalso. apply (Qlt_not_le u v); assumption.
Qed.

Lemma dist_ltb_iff (p q : Vec2) (e : Q) : dist_ltb p q e = true <-> dist_lt p q e.
Proof. apply Qltb_iff. Qed.

Lemma dist_lt_refl (p : Vec2) : dist_lt p p chain_eps.
Proof. unfold dist_lt, dist_sq, chain_eps. lra. Qed.

Lemma find_next_spec ss used j tail k p :
  find_next ss used j tail = Some (k, p) ->
  exists s, In s ss /\
    ((dist_lt (a s) tail chain_eps /\ p = b s) \/ (dist_lt (b s) tail chain_eps /\ p = a s)).
Proof.
  revert used j. induction ss as [|s ss IH]; intros used j H; [discriminate|].
  destruct used as [|u used]; [discriminate|]. simpl in H.
  destruct u.
  - destruct (IH _ _ H) as (s' & Hin & Hs'). exists s'. split; [right|]; auto.
  - destruct (dist_ltb (a s) tail chain_eps) eqn:E1.
    + injection H as _ <-. exists s. split; [left; reflexivity|].
      left. split; [apply dist_ltb_iff|]; auto.
    + destruct (dist_ltb (b s) tail chain_eps) eqn:E2.
      * injection H as _ <-. exists s. split; [left; reflexivity|].
        right. split; [apply dist_ltb_iff|]; auto.
      * destruct (IH _ _ H) as (s' & Hin & Hs'). exists s'. split; [right|]; auto.
Qed.

Lemma last_app2 (pre : list Vec2) (yv zv d : Vec2) : last (pre ++ [yv; zv]) d = zv.
Proof.
  induction pre as [|p pre IH]; [reflexivity|].
  rewrite <- app_comm_cons. simpl. rewrite IH. destruct (pre ++ [yv; zv]) eqn:E; [|reflexivity].
  destruct pre; discriminate.
Qed.

Lemma extend_chain_shape fuel segs used c :
  chain_shape segs c -> chain_shape segs (snd (extend_chain fuel segs used c)).
Proof.
  revert used c. induction fuel as [|f IH]; intros used c Hc; simpl; [assumption|].
  destruct (find_next segs used 0 (last c origin2)) as [[j p]|] eqn:E; [|assumption].
  apply IH. destruct Hc as (pre & yv & zv & -> & _).
  apply find_next_spec in E. rewrite last_app2 in E.
  exists (pre ++ [yv]), zv, p. split; [|exact E].
  rewrite <- !app_assoc. reflexivity.
Qed.

Lemma chain_loop_shape segs idxs used pl :
  Forall (fun i => (i < length segs)%nat) idxs ->
  In pl (chain_loop segs idxs used) ->
  exists c, chain_shape segs c /\ pl = finish_chain c.
Proof.
  revert used. induction idxs as [|i rest IH]; intros used Hidx Hin; [destruct Hin|].
  inversion Hidx as [|? ? Hi Hrest]; subst. simpl in Hin.
  destruct (nth i used false); [eauto|].
  destruct (extend_chain (length segs) segs (set_nth used i true)
              [a (nth i segs seg_dummy); b (nth i segs seg_dummy)]) as [used' c] eqn:E.
  destruct Hin as [<- | Hin]; [|eauto].
  exists c. split; [|reflexivity].
  change c with (snd (used', c)). rewrite <- E. apply extend_chain_shape.
  exists [], (a (nth i segs seg_dummy)), (b (nth i segs seg_dummy)). split; [reflexivity|].
  exists (nth i segs seg_dummy). split; [apply nth_In; exact Hi|].
  left. split; [apply dist_lt_refl | reflexivity].
Qed.

Lemma Forall_seq_lt n : Forall (fun i => (i < n)%nat) (seq 0 n).
Proof. apply Forall_forall. intros i Hi. apply in_seq in Hi. lia. Qed.

Lemma removelast_app2 (pre : list Vec2) (yv zv : Vec2) :
  removelast (pre ++ [yv; zv]) = pre ++ [yv].
Proof.
  rewrite removelast_app by discriminate. reflexivity.
Qed.

Lemma finish_chain_closed segs c :
  chain_shape segs c -> closed (finish_chain c) = true ->
  (2 <= length (points (finish_chain c)))%nat /\
  exists s, In s segs /\
    ((dist_lt (a s) (last (points (finish_chain c)) origin2) chain_eps /\
      dist_lt (hd origin2 (points (finish_chain c))) (b s) chain_eps) \/
     (dist_lt (b s) (last (points (finish_chain c)) origin2) chain_eps /\
      dist_lt (hd origin2 (points (finish_chain c))) (a s) chain_eps)).
Proof.
  intros (pre & yv & zv & -> & (s & Hin & Hs)). unfold finish_chain. simpl.
  destruct (Nat.ltb 2 (length (pre ++ [yv; zv])) &&
            dist_ltb (hd origin2 (pre ++ [yv; zv])) (last (pre ++ [yv; zv]) origin2) chain_eps)
    eqn:E; [|discriminate]. intros _.
  apply andb_true_iff in E as [E1 E2]. apply Nat.ltb_lt in E1.
  apply dist_ltb_iff in E2. rewrite last_app2 in E2.
  rewrite removelast_app2.
  assert (Hhd : hd origin2 (pre ++ [yv; zv]) = hd origin2 (pre ++ [yv]))
    by (destruct pre; reflexivity).
  assert (Hlast : last (pre ++ [yv]) origin2 = yv) by apply last_last.
  rewrite Hhd in E2. rewrite Hlast.
  split.
  - rewrite length_app in *. simpl in *. lia.
  - exists s. split; [exact Hin|].
    destruct Hs as [[H1 ->] | [H1 ->]]; [left | right]; split; assumption.
Qed.

(** *** First moves *)

Lemma first_rapid_app (t : Toolpath) (l : list ToolpathMove) :
  moves t <> [] -> first_rapid (mkToolpath (moves t ++ l)) = first_rapid t.
Proof. destruct t as [[|m ms]]; simpl; [intro H; contradiction H; reflexivity | reflexivity]. Qed.

Lemma moves_app_nonempty (t : Toolpath) (l : list ToolpathMove) :
  moves t <> [] -> moves (mkToolpath (moves t ++ l)) <> [].
Proof. destruct t as [[|m ms]]; simpl; [intro H; contradiction H; reflexivity | discriminate]. Qed.

Lemma cut_along_first (tp : Toolpath) (pts : list Vec2) (zc : Q) :
  moves tp <> [] ->
  moves (cut_along tp pts zc) <> [] /\ first_rapid (cut_along tp pts zc) = first_rapid tp.
Proof.
  unfold cut_along. revert tp. induction pts as [|p pts IH]; intros tp H; simpl; [auto|].
  destruct (IH (tp_cut tp (x p) (y p) zc)) as [H1 H2]; [apply moves_app_nonempty; exact H|].
  split; [exact H1|]. rewrite H2. apply first_rapid_app. exact H.
Qed.

Lemma follow_path_first (cl : bool) (p0 : Vec2) (rest : list Vec2) (params : CutParams) :
  first_rapid (follow_path cl p0 rest params) = Some true.
Proof.
  unfold follow_path.
  set (t0 := tp_cut (tp_rapid Toolpath_new (x p0) (y p0) (safe_z params)) (x p0) (y p0) (cut_z params)).
  assert (H0 : moves t0 <> []) by discriminate.
  destruct (cut_along_first t0 rest (cut_z params) H0) as [H1 H2].
  set (t1 := cut_along t0 rest (cut_z params)) in *.
  assert (H3 : moves (if cl then tp_cut t1 (x p0) (y p0) (cut_z params) else t1) <> [] /\
               first_rapid (if cl then tp_cut t1 (x p0) (y p0) (cut_z params) else t1) = Some true).
  { destruct cl; split.
    - apply moves_app_nonempty; exact H1.
    - unfold tp_cut. rewrite first_rapid_app by exact H1. rewrite H2. reflexivity.
    - exact H1.
    - rewrite H2. reflexivity. }
  destruct H3 as [H3 H4]. unfold tp_rapid at 1. rewrite first_rapid_app by exact H3. exact H4.
Qed.

Lemma contour_first_rapid (cs : list Polyline) (p : CutParams) (t : Toolpath) :
  In t (ContourStrategy_generate cs p) -> first_rapid t = Some true.
Proof.
  unfold ContourStrategy_generate. intro H. apply in_flat_map in H as (c & _ & H).
  unfold contour_toolpath in H.
  destruct (offset_polyline c (tool_diameter p / 2)) as [|p0 rest]; [destruct H|].
  destruct H as [<- | []]. apply follow_path_first.
Qed.

Lemma perimeter_first_rapid (cs : list Polyline) (p : CutParams) (t : Toolpath) :
  In t (PerimeterStrategy_generate cs p) -> first_rapid t = Some true.
Proof.
  unfold PerimeterStrategy_generate. destruct (max_by_area cs) as [c|]; [|intros []].
  intro H. apply in_flat_map in H as (k & _ & H). unfold perimeter_pass in H.
  destruct (if climb_cut p then _ else _) as [|p0 rest]; [destruct H|].
  destruct H as [<- | []]. apply follow_path_first.
Qed.

Lemma empty_or_rapid_push (tp : Toolpath) (m : ToolpathMove) :
  empty_or_rapid tp -> rapid m = true -> empty_or_rapid (mkToolpath (moves tp ++ [m])).
Proof.
  intros [H | H] Hm; right.
  - rewrite H. destruct m; simpl in *; subst; reflexivity.
  - destruct tp as [[|m0 ms]]; [discriminate|]. exact H.
Qed.

Lemma empty_or_rapid_app (tp : Toolpath) (l : list ToolpathMove) :
  first_rapid tp = Some true -> empty_or_rapid (mkToolpath (moves tp ++ l)).
Proof. intro H. right. destruct tp as [[|m0 ms]]; [discriminate|]. exact H. Qed.

Lemma first_rapid_push (t : Toolpath) (l : list ToolpathMove) :
  first_rapid t = Some true -> first_rapid (mkToolpath (moves t ++ l)) = Some true.
Proof. intro H. destruct t as [[|m0 ms]]; [discriminate|]. exact H. Qed.

Lemma pocket_pairs_first n xs off yy fwd params tp :
  (length xs <= n)%nat ->
  empty_or_rapid tp -> empty_or_rapid (pocket_pairs xs off yy fwd params tp).
Proof.
  revert xs tp. induction n as [|n IH]; intros xs tp Hlen Htp.
  - destruct xs; [exact Htp | simpl in Hlen; lia].
  - destruct xs as [|xa [|xb rest]]; simpl; try exact Htp.
    simpl in Hlen.
    destruct (Qle_bool (xb - off) (xa + off)).
    + apply IH; [lia | exact Htp].
    + destruct (if fwd then _ else _) as [sx ex].
      apply IH; [lia|].
      assert (H1 : empty_or_rapid (tp_rapid tp sx yy (safe_z params)))
        by (apply empty_or_rapid_push; [exact Htp | reflexivity]).
      destruct H1 as [H1 | H1]; [unfold tp_rapid in H1; simpl in H1; destruct (moves tp); discriminate|].
      right. do 3 apply first_rapid_push. exact H1.
Qed.

Lemma pocket_rows_first fuel contour off step ymax yy fwd params tp :
  empty_or_rapid tp -> empty_or_rapid (pocket_rows fuel contour off step ymax yy fwd params tp).
Proof.
  revert yy fwd tp. induction fuel as [|f IH]; intros yy fwd tp Htp; simpl; [exact Htp|].
  destruct (Qle_bool yy ymax); [|exact Htp].
  apply IH. eapply pocket_pairs_first; [reflexivity|exact Htp].
Qed.

Lemma pocket_first_rapid (cs : list Polyline) (p : CutParams) (t : Toolpath) :
  In t (PocketStrategy_generate cs p) -> first_rapid t = Some true.
Proof.
  unfold PocketStrategy_generate. intro H. apply in_flat_map in H as (c & _ & H).
  unfold pocket_toolpath in H.
  destruct (_ || _); [destruct H|].
  destruct (Polyline_bounds c) as [bb|]; [|destruct H].
  match type of H with
  | In t (match moves ?tp with [] => _ | _ => _ end) =>
      assert (Hr : empty_or_rapid tp) by (apply pocket_rows_first; left; reflexivity);
      destruct (moves tp) eqn:E; [destruct H|]
  end.
  destruct H as [<- | []]. destruct Hr as [Hr | Hr]; [congruence | exact Hr].
Qed.

Lemma fold_cut_first (rest : list (Q * Q * Q)) (tp : Toolpath) :
  moves tp <> [] ->
  moves (fold_left (fun t '(xa, ya, za) => tp_cut t xa ya za) rest tp) <> [] /\
  first_rapid (fold_left (fun t '(xa, ya, za) => tp_cut t xa ya za) rest tp) = first_rapid tp.
Proof.
  revert tp. induction rest as [|[[xa ya] za] rest IH]; intros tp H; simpl; [auto|].
  destruct (IH (tp_cut tp xa ya za)) as [H1 H2]; [apply moves_app_nonempty; exact H|].
  split; [exact H1|]. rewrite H2. apply first_rapid_app. exact H.
Qed.

Lemma row_toolpath_first pe p0 rest safe :
  moves (row_toolpath pe p0 rest safe) <> [] /\
  first_rapid (row_toolpath pe p0 rest safe) =
    Some (match pe with None => true | Some _ => false end).
Proof.
  destruct p0 as [[x0 y0] z0]. unfold row_toolpath.
  destruct pe as [[[px py] pz]|]; apply fold_cut_first; discriminate.
Qed.

Lemma build_rows_first rows pe safe tps pe' :
  build_rows rows pe safe = (tps, pe') ->
  (forall t, In t tps -> moves t <> []) /\
  (forall i t, nth_error tps i = Some t ->
     first_rapid t = Some (match pe with None => Nat.eqb i 0 | Some _ => false end)).
Proof.
  revert pe tps pe'. induction rows as [|row rs IH]; intros pe tps pe' H.
  - simpl in H. injection H as <- _. split; [intros t []|]. intros [|i] t Ht; discriminate.
  - destruct row as [|p0 rest]; [simpl in H; exact (IH _ _ _ H)|].
    change (build_rows ((p0 :: rest) :: rs) pe safe) with
      (let '(tps0, pe0) := build_rows rs (Some (last (p0 :: rest) pt0)) safe in
       (row_toolpath pe p0 rest safe :: tps0, pe0)) in H.
    destruct (build_rows rs (Some (last (p0 :: rest) pt0)) safe) as [tps1 pe1] eqn:E.
    simpl in H. injection H as <- _. destruct (IH _ _ _ E) as [Hne Hfirst].
    destruct (row_toolpath_first pe p0 rest safe) as [H1 H2]. split.
    + intros t [<- | Ht]; [exact H1 | exact (Hne t Ht)].
    + intros [|i] t Ht; simpl in Ht.
      * injection Ht as <-. rewrite H2. destruct pe; reflexivity.
      * rewrite (Hfirst i t Ht). destruct pe; reflexivity.
Qed.

Lemma final_retract_first tps pe safe :
  (forall t, In t tps -> moves t <> []) ->
  forall i t, nth_error (final_retract tps pe safe) i = Some t ->
  exists t', nth_error tps i = Some t' /\ first_rapid t = first_rapid t'.
Proof.
  intros Hne i t Ht. unfold final_retract in Ht.
  destruct (rev tps) as [|lt before] eqn:E; [eauto|].
  destruct pe as [[[px py] pz]|]; [|eauto].
  assert (Htps : tps = rev before ++ [lt]) by (rewrite <- (rev_involutive tps), E; reflexivity).
  assert (Hlt : moves lt <> []) by (apply Hne; rewrite Htps; apply in_or_app; right; left; reflexivity).
  rewrite Htps.
  destruct (Nat.lt_ge_cases i (length (rev before))) as [Hi | Hi].
  - rewrite nth_error_app1 in Ht by exact Hi. exists t. split; [|reflexivity].
    rewrite nth_error_app1 by exact Hi. exact Ht.
  - rewrite nth_error_app2 in Ht by exact Hi. rewrite nth_error_app2 by exact Hi.
    destruct (i - length (rev before))%nat as [|k]; simpl in Ht |- *.
    + injection Ht as <-. exists lt. split; [reflexivity|]. apply first_rapid_app. exact Hlt.
    + destruct k; discriminate.
Qed.

Lemma surface_first_rapid (sp : SurfaceParams) (i : nat) (t : Toolpath) :
  nth_error (generate_surface sp) i = Some t -> first_rapid t = Some (Nat.eqb i 0).
Proof.
  unfold generate_surface. destruct (bounds (mesh sp)) as [bb|]; [|destruct i; discriminate].
  destruct (build_rows (surface_rows sp bb) None (safe_z (cut_params sp))) as [tps pe] eqn:E.
  destruct (build_rows_first _ _ _ _ _ E) as [Hne Hfirst].
  intro Ht. destruct (final_retract_first tps pe _ Hne i t Ht) as (t' & Ht' & ->).
  exact (Hfirst i t' Ht').
Qed.

(** *** Perimeter strategy *)



Lemma length_offset_polyline (c : Polyline) (d : Q) :
  length (offset_polyline c d) = length (points c).
Proof.
  unfold offset_polyline. destruct (Nat.ltb (length (points c)) 2); [reflexivity|].
  rewrite length_map, length_seq. reflexivity.
Qed.




(** *** Layer scheduling *)

Lemma inject_nat_add (k m : nat) :
  inject_Z (Z.of_nat (k + m)) == inject_Z (Z.of_nat k) + inject_Z (Z.of_nat m).
Proof. rewrite Nat2Z.inj_add, inject_Z_plus. reflexivity. Qed.

Lemma inject_nat_succ (k : nat) : inject_Z (Z.of_nat (S k)) == inject_Z (Z.of_nat k) + 1.
Proof. replace (S k) with (k + 1)%nat by lia. rewrite inject_nat_add. reflexivity. Qed.

Lemma slice_loop_spec (m : Mesh) (h zmax zs : Q) (f : nat) :
  forall (zz : Q) (k0 : nat), zz == zs + inject_Z (Z.of_nat k0) * h ->
  let L := slice_loop f m h zmax zz in
  Forall (fun l => fst l <= zmax /\ snd l <> [] /\
                   exists k, (k0 <= k)%nat /\ fst l == zs + inject_Z (Z.of_nat k) * h) L /\
  (forall pre l1 l2 post, L = pre ++ l1 :: l2 :: post ->
     exists d, (1 <= d)%nat /\ fst l2 - fst l1 == inject_Z (Z.of_nat d) * h).
Proof.
  induction f as [|f IH]; intros zz k0 Hz; simpl.
  - split; [constructor|]. intros [|? ?] ? ? ? H; discriminate.
  - destruct (Qle_bool zz zmax) eqn:Hle; [|split; [constructor | intros [|? ?] ? ? ? H; discriminate]].
    apply Qle_bool_iff in Hle.
    assert (Hz1 : zz + h == zs + inject_Z (Z.of_nat (S k0)) * h)
      by (rewrite inject_nat_succ, Hz; ring).
    destruct (IH (zz + h) (S k0) Hz1) as [HF HP].
    set (rest := slice_loop f m h zmax (zz + h)) in *.
    assert (HF' : Forall (fun l => fst l <= zmax /\ snd l <> [] /\
                   exists k, (k0 <= k)%nat /\ fst l == zs + inject_Z (Z.of_nat k) * h) rest).
    { eapply Forall_impl; [|exact HF]. intros l (H1 & H2 & k & Hk & H3).
      split; [exact H1|]. split; [exact H2|]. exists k. split; [lia | exact H3]. }
    destruct (slice_at_z m zz) as [|c cs] eqn:Ec; simpl.
    + split; [exact HF'|]. exact HP.
    + split.
      * constructor; [|exact HF']. simpl. split; [exact Hle|]. split; [discriminate|].
        exists k0. split; [lia | exact Hz].
      * intros [|l0 pre] l1 l2 post H.
        -- simpl in H. injection H as <- Hrest. rewrite Hrest in HF.
           inversion HF as [|? ? (_ & _ & k & Hk & Hl2) _]; subst.
           exists (k - k0)%nat. split; [lia|]. simpl.
           replace k with (k0 + (k - k0))%nat in Hl2 by lia.
           rewrite inject_nat_add in Hl2. rewrite Hl2, Hz. ring.
        -- simpl in H. injection H as _ Hrest. exact (HP pre l1 l2 post Hrest).
Qed.

Lemma bounds_nonempty (tris : list Triangle) :
  tris <> [] -> exists bb, bounds (Mesh_new tris) = Some bb.
Proof.
  intro H. unfold Mesh_new, BoundingBox_from_triangles. simpl.
  destruct tris as [|t ts]; [congruence|].
  destruct (fold_left _ (t :: ts) _) as [mn mx']. eexists. reflexivity.
Qed.

(** *** Pocket moves stay inside the inset bounding box *)

Lemma Qle_bool_false (u v : Q) : Qle_bool u v = false -> v < u.
Proof. intro E. apply Qnot_le_lt. intro H. apply Qle_bool_iff in H. congruence. Qed.

Lemma fmin_le_l (u v : Q) : fmin u v <= u.
Proof. unfold fmin. destruct (Qle_bool u v) eqn:E; [lra|]. apply Qle_bool_false in E. lra. Qed.

Lemma fmin_le_r (u v : Q) : fmin u v <= v.
Proof. unfold fmin. destruct (Qle_bool u v) eqn:E; [apply Qle_bool_iff in E; lra | lra]. Qed.

Lemma fmax_ge_l (u v : Q) : u <= fmax u v.
Proof. unfold fmax. destruct (Qle_bool v u) eqn:E; [lra|]. apply Qle_bool_false in E. lra. Qed.

Lemma fmax_ge_r (u v : Q) : v <= fmax u v.
Proof. unfold fmax. destruct (Qle_bool v u) eqn:E; [apply Qle_bool_iff in E; lra | lra]. Qed.

Lemma bb2_fold_bounds (pts : list Vec2) :
  forall mn0 mx0, let '(mn, mx) := fold_left bb2_step pts (mn0, mx0) in
  x mn <= x mn0 /\ y mn <= y mn0 /\ x mx0 <= x mx /\ y mx0 <= y mx /\
  forall p, In p pts -> in_box2 mn mx p.
Proof.
  induction pts as [|p ps IH]; intros mn0 mx0; simpl.
  - do 4 (split; [lra|]). intros _ [].
  - specialize (IH (mkVec2 (fmin (x mn0) (x p)) (fmin (y mn0) (y p)))
                   (mkVec2 (fmax (x mx0) (x p)) (fmax (y mx0) (y p)))).
    destruct (fold_left bb2_step ps _) as [mn mx]. simpl in IH.
    destruct IH as (H1 & H2 & H3 & H4 & H5).
    pose proof (fmin_le_l (x mn0) (x p)). pose proof (fmin_le_r (x mn0) (x p)).
    pose proof (fmin_le_l (y mn0) (y p)). pose proof (fmin_le_r (y mn0) (y p)).
    pose proof (fmax_ge_l (x mx0) (x p)). pose proof (fmax_ge_r (x mx0) (x p)).
    pose proof (fmax_ge_l (y mx0) (y p)). pose proof (fmax_ge_r (y mx0) (y p)).
    do 4 (split; [lra|]).
    intros q [<- | Hq]; [unfold in_box2; lra | exact (H5 q Hq)].
Qed.

Lemma Polyline_bounds_spec (c : Polyline) (bb : BoundingBox2) :
  Polyline_bounds c = Some bb -> forall p, In p (points c) -> in_box2 (bmin2 bb) (bmax2 bb) p.
Proof.
  unfold Polyline_bounds, BoundingBox2_from_points. destruct (points c) as [|p0 ps]; [discriminate|].
  pose proof (bb2_fold_bounds (p0 :: ps) (mkVec2 f64_MAX f64_MAX) (mkVec2 f64_MIN f64_MIN)) as H.
  destruct (fold_left bb2_step (p0 :: ps) _) as [mn mx].
  intro E. injection E as <-. simpl. apply H.
Qed.

Lemma scanline_edge_between (pa pb : Vec2) (yy v lo hi : Q) :
  In v (scanline_edge pa pb yy) -> lo <= x pa <= hi -> lo <= x pb <= hi -> lo <= v <= hi.
Proof.
  unfold scanline_edge.
  assert (Ht : forall ya yb, ya <= yy -> yy < yb ->
            0 <= (yy - ya) / (yb - ya) /\ (yy - ya) / (yb - ya) <= 1).
  { intros ya yb H1 H2. split.
    - apply Qle_shift_div_l; lra.
    - apply Qle_shift_div_r; lra. }
  assert (Ht' : forall ya yb, yb <= yy -> yy < ya ->
            0 <= (yy - ya) / (yb - ya) /\ (yy - ya) / (yb - ya) <= 1).
  { intros ya yb H1 H2.
    setoid_replace ((yy - ya) / (yb - ya)) with ((ya - yy) / (ya - yb))
      by (field; split; intro; lra).
    split.
    - apply Qle_shift_div_l; lra.
    - apply Qle_shift_div_r; lra. }
  destruct ((Qle_bool (y pa) yy && Qltb yy (y pb)) || (Qle_bool (y pb) yy && Qltb yy (y pa))) eqn:E;
    [|intros []].
  intros [<- | []] Ha Hb.
  assert (Hr : 0 <= (yy - y pa) / (y pb - y pa) /\ (yy - y pa) / (y pb - y pa) <= 1).
  { apply orb_true_iff in E. destruct E as [E | E]; apply andb_true_iff in E;
      destruct E as [E1 E2]; apply Qle_bool_iff in E1; apply Qltb_iff in E2; auto. }
  set (t := (yy - y pa) / (y pb - y pa)) in *.
  destruct Hr as [Ht0 Ht1].
  assert (0 <= t * (x pb - lo)) by (apply Qmult_le_0_compat; lra).
  assert (0 <= (1 - t) * (x pa - lo)) by (apply Qmult_le_0_compat; lra).
  assert (0 <= t * (hi - x pb)) by (apply Qmult_le_0_compat; lra).
  assert (0 <= (1 - t) * (hi - x pa)) by (apply Qmult_le_0_compat; lra).
  split; nra.
Qed.

Lemma scanline_intersect_between (c : Polyline) (yy v lo hi : Q) :
  (forall p, In p (points c) -> lo <= x p <= hi) ->
  In v (scanline_intersect c yy) -> lo <= v <= hi.
Proof.
  intros Hp. unfold scanline_intersect.
  destruct (Nat.ltb (length (points c)) 2) eqn:Hn; [intros []|].
  apply Nat.ltb_ge in Hn. intro Hv. apply in_flat_map in Hv. destruct Hv as (i & Hi & Hv).
  apply in_seq in Hi.
  apply (scanline_edge_between _ _ yy v lo hi Hv); apply Hp; apply nth_In; [lia|].
  apply Nat.mod_upper_bound. lia.
Qed.

Lemma insert_Q_in (a v : Q) (l : list Q) : In v (insert_Q a l) -> v = a \/ In v l.
Proof.
  induction l as [|h t IH]; simpl; [intros [<- | []]; left; reflexivity|].
  destruct (Qltb a h); simpl.
  - intros [<- | [<- | H]]; auto.
  - intros [<- | H]; [auto|]. destruct (IH H); auto.
Qed.

Lemma sort_Q_in (l : list Q) (v : Q) : In v (sort_Q l) -> In v l.
Proof.
  unfold sort_Q. assert (H : forall acc, In v (fold_left (fun acc v => insert_Q v acc) l acc) ->
                                In v l \/ In v acc).
  { induction l as [|a l IH]; simpl; intros acc Hv; [right; exact Hv|].
    destruct (IH _ Hv) as [H | H]; [auto|]. destruct (insert_Q_in _ _ _ H); auto. }
  intro Hv. destruct (H [] Hv) as [H1 | []]. exact H1.
Qed.

Lemma Forall_push {A} (P : A -> Prop) (l : list A) (m : A) :
  Forall P l -> P m -> Forall P (l ++ [m]).
Proof. intros H1 H2. apply Forall_app. split; [exact H1 | constructor; [exact H2 | constructor]]. Qed.

Lemma pocket_pairs_in n xs off yy fwd params tp xl xh yl yh :
  (length xs <= n)%nat ->
  (forall v, In v xs -> xl <= v + off /\ v - off <= xh) -> yl <= yy <= yh ->
  Forall (move_xy_in xl xh yl yh) (moves tp) ->
  Forall (move_xy_in xl xh yl yh) (moves (pocket_pairs xs off yy fwd params tp)).
Proof.
  revert xs tp. induction n as [|n IH]; intros xs tp Hlen Hxs Hy Htp.
  - destruct xs; [exact Htp | simpl in Hlen; lia].
  - destruct xs as [|xa [|xb rest]]; simpl; try exact Htp.
    simpl in Hlen.
    assert (Hrest : forall v, In v rest -> xl <= v + off /\ v - off <= xh)
      by (intros v Hv; apply Hxs; right; right; exact Hv).
    destruct (Qle_bool (xb - off) (xa + off)) eqn:Hc.
    + apply IH; [lia | exact Hrest | exact Hy | exact Htp].
    + apply Qle_bool_false in Hc.
      destruct (Hxs xa (or_introl eq_refl)) as [Ha _].
      destruct (Hxs xb (or_intror (or_introl eq_refl))) as [_ Hb].
      assert (Hse : exists sx ex, (if fwd then (xa + off, xb - off) else (xb - off, xa + off)) = (sx, ex)
                     /\ xl <= sx <= xh /\ xl <= ex <= xh).
      { destruct fwd; do 2 eexists; (split; [reflexivity|]); split; lra. }
      destruct Hse as (sx & ex & -> & Hsx & Hex).
      apply IH; [lia | exact Hrest | exact Hy |].
      unfold tp_rapid, tp_cut; simpl.
      repeat apply Forall_push; try exact Htp; unfold move_xy_in; simpl; split; lra.
Qed.

Lemma pocket_rows_in fuel contour off step ymax yy fwd params tp xl xh yl :
  0 < step -> yl <= yy ->
  (forall yy' v, In v (scanline_intersect contour yy') -> xl <= v + off /\ v - off <= xh) ->
  Forall (move_xy_in xl xh yl ymax) (moves tp) ->
  Forall (move_xy_in xl xh yl ymax) (moves (pocket_rows fuel contour off step ymax yy fwd params tp)).
Proof.
  intros Hs. revert yy fwd tp. induction fuel as [|f IH]; intros yy fwd tp Hy Hx Htp; simpl; [exact Htp|].
  destruct (Qle_bool yy ymax) eqn:Hle; [|exact Htp].
  apply Qle_bool_iff in Hle.
  apply IH; [lra | exact Hx |].
  eapply pocket_pairs_in; [reflexivity | | split; [exact Hy | exact Hle] | exact Htp].
  intros v Hv. apply (Hx yy). apply sort_Q_in. exact Hv.
Qed.

(** *** The depth loop *)

Lemma clamp_compat (z z' cut : Q) :
  z == z' -> (if Qltb z cut then cut else z) == (if Qltb z' cut then cut else z').
Proof.
  intro H. destruct (Qltb z cut) eqn:E1, (Qltb z' cut) eqn:E2; try reflexivity; try exact H.
  - apply Qltb_iff in E1. exfalso. assert (~ z' < cut) by (intro X; apply Qltb_iff in X; congruence).
    lra.
  - apply Qltb_iff in E2. exfalso. assert (~ z < cut) by (intro X; apply Qltb_iff in X; congruence).
    lra.
Qed.

Lemma depth_loop_spec {A} (run : Q -> list A) (cut step : Q) :
  cut <= 0 -> 0 < step ->
  let N := Qceiling (- cut / step) in
  forall f i zz,
  zz == - (inject_Z (Z.of_nat i) * step) -> cut - depth_tol < zz ->
  (i = 0%nat \/ (Z.of_nat i < N)%Z) -> (N + 2 <= Z.of_nat (i + f))%Z ->
  exists zs, depth_loop f run cut step zz = flat_map run zs /\ zs <> [] /\
    (forall k z, nth_error zs k = Some z -> z == depth_layer cut step (i + S k)) /\
    (forall k z, nth_error zs k = Some z -> (S k < length zs)%nat -> depth_tol <= Qabs (z - cut)) /\
    Qabs (last zs 0 - cut) < depth_tol.
Proof.
  intros Hcut Hstep N.
  assert (HN0 : (0 <= N)%Z).
  { unfold N. assert (0 <= - cut / step) by (apply Qle_shift_div_l; lra).
    pose proof (Qle_ceiling (- cut / step)).
    rewrite Zle_Qle. change (inject_Z 0) with 0. lra. }
  assert (HNs : - cut <= inject_Z N * step).
  { unfold N. pose proof (Qle_ceiling (- cut / step)) as H.
    apply (Qmult_le_r _ _ step Hstep) in H.
    setoid_replace (- cut / step * step) with (- cut) in H by (field; lra). exact H. }
  induction f as [|f IH]; intros i zz Hz Hg Hi Hf.
  - exfalso. rewrite Nat.add_0_r in Hf. destruct Hi as [-> | Hi]; simpl in Hf; lia.
  - cbn [depth_loop]. assert (Hg' : Qltb (cut - depth_tol) zz = true) by (apply Qltb_iff; exact Hg).
    rewrite Hg'.
    set (z1 := zz - step).
    assert (Hz1 : z1 == - (inject_Z (Z.of_nat (S i)) * step))
      by (unfold z1; rewrite inject_nat_succ, Hz; ring).
    set (z2 := if Qltb z1 cut then cut else z1).
    assert (Hl : z2 == depth_layer cut step (i + 1)).
    { unfold z2, depth_layer. replace (i + 1)%nat with (S i) by lia. apply clamp_compat. exact Hz1. }
    destruct (Qltb (Qabs (z2 - cut)) depth_tol) eqn:Hb.
    + exists [z2]. split; [simpl; reflexivity|].
      split; [discriminate|]. split; [|split].
      * intros [|k] z Hk; [|destruct k; discriminate]. injection Hk as <-. exact Hl.
      * intros [|k] z Hk Hlen; simpl in Hlen; lia.
      * apply Qltb_iff. exact Hb.
    + assert (Hfar : depth_tol <= Qabs (z2 - cut)).
      { apply Qnot_lt_le. intro X. apply Qltb_iff in X. congruence. }
      destruct (Qltb z1 cut) eqn:Hc.
      * exfalso. unfold z2 in Hfar. rewrite ?Hc in Hfar. cbv beta iota in Hfar.
        setoid_replace (cut - cut) with 0 in Hfar by ring. simpl in Hfar. unfold depth_tol in Hfar. lra.
      * assert (Hge : cut <= z1) by (apply Qnot_lt_le; intro X; apply Qltb_iff in X; congruence).
        unfold z2 in Hfar, Hl |- *. rewrite ?Hc in Hfar, Hl |- *. cbv beta iota in Hfar, Hl |- *.
        assert (Hfar' : cut + depth_tol <= z1).
        { rewrite Qabs_pos in Hfar by lra. lra. }
        assert (HiN : (Z.of_nat (S i) < N)%Z).
        { rewrite Zlt_Qlt. apply (Qmult_lt_r _ _ step Hstep). unfold depth_tol in *. lra. }
        destruct (IH (S i) z1 Hz1 ltac:(unfold depth_tol in *; lra) (or_intror HiN)
                    ltac:(replace (S i + f)%nat with (i + S f)%nat by lia; exact Hf))
          as (zs & Hrec & Hne & Hnth & Hmid & Hlast).
        exists (z1 :: zs). split; [rewrite Hrec; reflexivity|].
        split; [discriminate|]. split; [|split].
        -- intros [|k] z Hk.
           ++ injection Hk as <-. exact Hl.
           ++ simpl in Hk. rewrite (Hnth k z Hk). replace (i + S (S k))%nat with (S i + S k)%nat by lia.
              reflexivity.
        -- intros [|k] z Hk Hlen.
           ++ injection Hk as <-. exact Hfar.
           ++ simpl in Hk, Hlen. apply (Hmid k z Hk). lia.
        -- destruct zs as [|z' zs']; [congruence|]. exact Hlast.
Qed.

Lemma depth_loop_from_top {A} (run : Q -> list A) (cut step : Q) :
  cut <= 0 -> 0 < step ->
  exists zs, depth_loop (depth_fuel cut step) run cut step 0 = flat_map run zs /\ zs <> [] /\
    (forall k z, nth_error zs k = Some z -> z == depth_layer cut step (S k)) /\
    (forall k z, nth_error zs k = Some z -> (S k < length zs)%nat -> depth_tol <= Qabs (z - cut)) /\
    Qabs (last zs 0 - cut) < depth_tol.
Proof.
  intros Hcut Hstep.
  assert (HN0 : (0 <= Qceiling (- cut / step))%Z).
  { assert (0 <= - cut / step) by (apply Qle_shift_div_l; lra).
    pose proof (Qle_ceiling (- cut / step)).
    rewrite Zle_Qle. change (inject_Z 0) with 0. lra. }
  apply (depth_loop_spec run cut step Hcut Hstep (depth_fuel cut step) 0 0).
  - simpl. reflexivity.
  - unfold depth_tol. lra.
  - left. reflexivity.
  - unfold depth_fuel. simpl (0 + _)%nat. lia.
Qed.

(** *** Zig-zag surface moves stay inside the mesh's XY bounds *)

Lemma last_in {A} (l : list A) (d : A) : l <> [] -> In (last l d) l.
Proof.
  intro H. destruct (exists_last H) as (l' & a & ->). rewrite last_last.
  apply in_or_app. right. left. reflexivity.
Qed.

Ltac abstract_fmin u v :=
  let H := fresh in let H' := fresh in
  pose proof (fmin_le_l u v) as H; pose proof (fmin_le_r u v) as H';
  generalize dependent (fmin u v); intros.

Ltac abstract_fmax u v :=
  let H := fresh in let H' := fresh in
  pose proof (fmax_ge_l u v) as H; pose proof (fmax_ge_r u v) as H';
  generalize dependent (fmax u v); intros.

Lemma bb_fold_bounds (tris : list Triangle) :
  forall mn0 mx0,
  let '(mn, mx) := fold_left (fun acc t => bb_step (bb_step (bb_step acc (v0 t)) (v1 t)) (v2 t))
                     tris (mn0, mx0) in
  x3 mn <= x3 mn0 /\ y3 mn <= y3 mn0 /\ x3 mx0 <= x3 mx /\ y3 mx0 <= y3 mx /\
  forall t, In t tris -> x3 mn <= x3 (v0 t) <= x3 mx /\ y3 mn <= y3 (v0 t) <= y3 mx.
Proof.
  induction tris as [|t ts IH]; intros mn0 mx0.
  - simpl. do 4 (split; [lra|]). intros _ [].
  - cbn [fold_left].
    destruct (bb_step (bb_step (bb_step (mn0, mx0) (v0 t)) (v1 t)) (v2 t)) as [mn1 mx1] eqn:E1.
    assert (Hacc : x3 mn1 <= x3 mn0 /\ y3 mn1 <= y3 mn0 /\
                   x3 mx0 <= x3 mx1 /\ y3 mx0 <= y3 mx1 /\
                   x3 mn1 <= x3 (v0 t) <= x3 mx1 /\ y3 mn1 <= y3 (v0 t) <= y3 mx1).
    { unfold bb_step in E1. injection E1 as <- <-. simpl.
      repeat match goal with
        | _ : context [fmin ?u ?v] |- _ => abstract_fmin u v
        | |- context [fmin ?u ?v] => abstract_fmin u v
        | _ : context [fmax ?u ?v] |- _ => abstract_fmax u v
        | |- context [fmax ?u ?v] => abstract_fmax u v
        end.
      repeat split; lra. }
    specialize (IH mn1 mx1).
    destruct (fold_left _ ts (mn1, mx1)) as [mn mx].
    destruct IH as (H1 & H2 & H3 & H4 & H5).
    destruct Hacc as (A1 & A2 & A3 & A4 & A5 & A6).
    do 4 (split; [lra|]).
    intros t' [<- | Ht]; [split; lra | exact (H5 t' Ht)].
Qed.

Lemma Mesh_new_bounds_ordered (tris : list Triangle) :
  tris <> [] -> exists bb, bounds (Mesh_new tris) = Some bb /\
    x3 (bmin bb) <= x3 (bmax bb) /\ y3 (bmin bb) <= y3 (bmax bb).
Proof.
  intro Hne. unfold Mesh_new, BoundingBox_from_triangles. simpl.
  destruct tris as [|t ts]; [congruence|].
  pose proof (bb_fold_bounds (t :: ts) (mkVec3 f64_MAX f64_MAX f64_MAX) (mkVec3 f64_MIN f64_MIN f64_MIN)) as H.
  destruct (fold_left _ (t :: ts) _) as [mn mx].
  eexists. split; [reflexivity|]. simpl.
  destruct H as (_ & _ & _ & _ & H). destruct (H t (or_introl eq_refl)). split; lra.
Qed.

Lemma float_range_bounds (start stop step v : Q) :
  start <= stop -> 0 < step -> In v (float_range start stop step) -> start <= v <= stop.
Proof.
  intros Hss Hs Hv. unfold float_range in Hv. apply in_map_iff in Hv.
  destruct Hv as (i & <- & _).
  assert (0 <= inject_Z (Z.of_nat i)) by (unfold Qle; simpl; lia).
  assert (0 <= inject_Z (Z.of_nat i) * step) by (apply Qmult_le_0_compat; lra).
  split; [|apply fmin_le_r].
  unfold fmin. destruct (Qle_bool _ _); lra.
Qed.

Lemma raster_rows_in fuel smp smin smax step rmax row fwd rmin (P : Q -> Q -> Q * Q * Q -> Prop) :
  smin <= smax -> 0 < step -> rmin <= row ->
  (forall rr ss p, rmin <= rr <= rmax -> smin <= ss <= smax -> smp rr ss = Some p -> P rr ss p) ->
  forall r p, In r (raster_rows fuel smp smin smax step rmax row fwd) -> In p r ->
  exists rr ss, P rr ss p.
Proof.
  intros Hss Hs. revert row fwd. induction fuel as [|f IH]; intros row fwd Hrow Hsmp r p Hr Hp;
    simpl in Hr; [destruct Hr|].
  destruct (Qle_bool row rmax) eqn:Hle; [|destruct Hr].
  apply Qle_bool_iff in Hle. apply in_app_or in Hr. destruct Hr as [Hr | Hr].
  - set (rng := if fwd then _ else _) in Hr.
    destruct (flat_map _ rng) as [|q qs] eqn:E; [destruct Hr|].
    destruct Hr as [<- | []]. rewrite <- E in Hp.
    apply in_flat_map in Hp. destruct Hp as (ss & Hss' & Hp).
    assert (Hb : smin <= ss <= smax).
    { apply (float_range_bounds _ _ step); [exact Hss | exact Hs|].
      unfold rng in Hss'. destruct fwd; [exact Hss'|]. apply in_rev. exact Hss'. }
    destruct (smp row ss) as [p'|] eqn:Es; [|destruct Hp].
    destruct Hp as [<- | []]. exists row, ss. apply Hsmp; [split; lra | exact Hb | exact Es].
  - exact (IH (row + step) (negb fwd) ltac:(lra) Hsmp r p Hr Hp).
Qed.

Lemma fold_cut_in xl xh yl yh (rest : list (Q * Q * Q)) (tp : Toolpath) :
  Forall (pt_in xl xh yl yh) rest -> Forall (move_xy_in xl xh yl yh) (moves tp) ->
  Forall (move_xy_in xl xh yl yh)
    (moves (fold_left (fun t '(xa, ya, za) => tp_cut t xa ya za) rest tp)).
Proof.
  revert tp. induction rest as [|[[a b] c] rest IH]; intros tp Hr Htp; simpl; [exact Htp|].
  inversion Hr as [|? ? Hp Hrest]; subst. apply IH; [exact Hrest|].
  unfold tp_cut. simpl. apply Forall_push; [exact Htp | exact Hp].
Qed.

Lemma build_rows_in xl xh yl yh rows pe safe tps pe' :
  Forall (Forall (pt_in xl xh yl yh)) rows ->
  (forall p, pe = Some p -> pt_in xl xh yl yh p) ->
  build_rows rows pe safe = (tps, pe') ->
  Forall (fun t => Forall (move_xy_in xl xh yl yh) (moves t)) tps /\
  (forall p, pe' = Some p -> pt_in xl xh yl yh p).
Proof.
  revert pe tps pe'. induction rows as [|row rs IH]; intros pe tps pe' Hrows Hpe H.
  - simpl in H. injection H as <- <-. split; [constructor | exact Hpe].
  - inversion Hrows as [|? ? Hrow Hrs]; subst.
    destruct row as [|p0 rest]; [simpl in H; exact (IH _ _ _ Hrs Hpe H)|].
    change (build_rows ((p0 :: rest) :: rs) pe safe) with
      (let '(tps0, pe0) := build_rows rs (Some (last (p0 :: rest) pt0)) safe in
       (row_toolpath pe p0 rest safe :: tps0, pe0)) in H.
    destruct (build_rows rs (Some (last (p0 :: rest) pt0)) safe) as [tps1 pe1] eqn:E.
    simpl in H. injection H as <- <-.
    assert (Hlast : pt_in xl xh yl yh (last (p0 :: rest) pt0)).
    { rewrite Forall_forall in Hrow. apply Hrow. apply last_in. discriminate. }
    assert (Hpe1 : forall p, Some (last (p0 :: rest) pt0) = Some p -> pt_in xl xh yl yh p)
      by (intros p Hp; injection Hp as <-; exact Hlast).
    destruct (IH _ _ _ Hrs Hpe1 E) as [H1 H2].
    split; [|exact H2]. constructor; [|exact H1].
    inversion Hrow as [|? ? Hp0 Hrest]; subst.
    destruct p0 as [[x0 y0] z0]. unfold row_toolpath.
    apply fold_cut_in; [exact Hrest|].
    destruct pe as [[[px py] pz]|].
    + specialize (Hpe _ eq_refl). unfold tp_cut; simpl.
      repeat constructor; unfold move_xy_in; simpl; simpl in Hpe, Hp0; tauto.
    + unfold tp_cut, tp_rapid; simpl.
      repeat constructor; unfold move_xy_in; simpl; simpl in Hp0; tauto.
Qed.

Lemma final_retract_in xl xh yl yh tps pe safe :
  Forall (fun t => Forall (move_xy_in xl xh yl yh) (moves t)) tps ->
  (forall p, pe = Some p -> pt_in xl xh yl yh p) ->
  Forall (fun t => Forall (move_xy_in xl xh yl yh) (moves t)) (final_retract tps pe safe).
Proof.
  intros Htps Hpe. unfold final_retract.
  destruct (rev tps) as [|lt before] eqn:E; [exact Htps|].
  destruct pe as [[[px py] pz]|]; [|exact Htps].
  assert (Htps' : tps = rev before ++ [lt]) by (rewrite <- (rev_involutive tps), E; reflexivity).
  rewrite Htps' in Htps. apply Forall_app in Htps. destruct Htps as [Hb Hl].
  apply Forall_app. split; [exact Hb|].
  inversion Hl as [|? ? Hlt _]; subst. constructor; [|constructor].
  unfold tp_rapid; simpl. apply Forall_push; [exact Hlt|].
  specialize (Hpe _ eq_refl). unfold move_xy_in; simpl; simpl in Hpe; exact Hpe.
Qed.

Lemma sample_point_xy m px py r p :
  sample_point m px py false r = Some p -> exists zz, p = (px, py, zz).
Proof.
  unfold sample_point. destruct (mesh_height_at m px py) as [zz|]; simpl; [|discriminate].
  intro H. injection H as <-. eauto.
Qed.

(* ------------------------------------------------------------------ *)
(** *** Rounded arithmetic *)

Lemma exact_rounding : is_rounding (fun q => q).
Proof. split; [intros a b H; exact H | split; intro a; reflexivity]. Qed.

Section RoundingFacts.
Variable rnd : Q -> Q.
Hypothesis Hrnd : is_rounding rnd.

Lemma rnd_mono (a b : Q) : a <= b -> rnd a <= rnd b.
Proof. apply (proj1 Hrnd). Qed.

Lemma rnd_idem (a : Q) : rnd (rnd a) == rnd a.
Proof. apply (proj1 (proj2 Hrnd)). Qed.

Lemma rnd_opp (a : Q) : rnd (- a) == - rnd a.
Proof. apply (proj2 (proj2 Hrnd)). Qed.

Lemma rnd_proper (a b : Q) : a == b -> rnd a == rnd b.
Proof.
  intro H. apply Qle_antisym; apply rnd_mono; rewrite H; apply Qle_refl.
Qed.

Lemma rnd_zero : rnd 0 == 0.
Proof.
  pose proof (rnd_opp 0) as H.
  assert (E : rnd (- 0) == rnd 0) by (apply rnd_proper; reflexivity).
  rewrite E in H. lra.
Qed.

(** A rounded value is at least the rounding of [0] when its argument is. *)
Lemma rnd_nonneg (a : Q) : 0 <= a -> 0 <= rnd a.
Proof. intro H. rewrite <- rnd_zero. apply rnd_mono. exact H. Qed.

(** **** The slice loop *)

Section SliceLoop.
Variables (slice : Q -> list Polyline) (h zmax : Q).

(** Once [z + h] rounds back to [z] below [z_max], the loop never ends. *)
Lemma slice_loop_stall (f : nat) (zz : Q) :
  zz <= zmax -> rnd (zz + h) == zz -> slice_loop_rnd rnd f slice h zmax zz = None.
Proof.
  revert zz. induction f as [|f IH]; intros zz Hle Hs; [reflexivity|].
  cbn [slice_loop_rnd].
  assert (Hb : Qle_bool zz zmax = true) by (apply Qle_bool_iff; exact Hle). rewrite Hb.
  rewrite (IH (rnd (zz + h))); [reflexivity | rewrite Hs; exact Hle |].
  transitivity (rnd (zz + h)); [|reflexivity]. apply rnd_proper. rewrite Hs. reflexivity.
Qed.

Lemma slice_loop_rnd_spec (Hh : 0 <= h) (f : nat) :
  forall zz ls, rnd zz == zz -> slice_loop_rnd rnd f slice h zmax zz = Some ls ->
    Forall (fun l => zz <= fst l <= zmax /\ snd l <> []) ls /\
    (forall pre l1 l2 post, ls = pre ++ l1 :: l2 :: post -> fst l1 < fst l2).
Proof.
  induction f as [|f IH]; intros zz ls Hzz E; [discriminate|].
  cbn [slice_loop_rnd] in E.
  destruct (Qle_bool zz zmax) eqn:Hle.
  2:{ injection E as <-. split; [constructor|]. intros [|p pre] l1 l2 post Ep; discriminate. }
  apply Qle_bool_iff in Hle.
  set (z' := rnd (zz + h)) in E.
  destruct (slice_loop_rnd rnd f slice h zmax z') as [rest|] eqn:Er; [|discriminate].
  cbn [option_map] in E. injection E as <-.
  assert (Hz'r : rnd z' == z') by (unfold z'; apply rnd_idem).
  assert (Hge : zz <= z').
  { pose proof (rnd_mono zz (zz + h) ltac:(lra)) as H. rewrite Hzz in H. exact H. }
  assert (Hlt : zz < z').
  { destruct (Qle_lt_or_eq _ _ Hge) as [H|H]; [exact H|]. exfalso.
    rewrite (slice_loop_stall f z') in Er; [discriminate | rewrite <- H; exact Hle |].
    transitivity (rnd (zz + h)); [|reflexivity]. apply rnd_proper. rewrite <- H. reflexivity. }
  destruct (IH z' rest Hz'r Er) as [HF HS].
  destruct (slice zz) as [|c cs] eqn:Hc; cbn [app].
  - split; [|exact HS].
    eapply Forall_impl; [|exact HF]. intros l [[L1 L2] L3]. split; [split; lra | exact L3].
  - split.
    + constructor; [split; [split; [apply Qle_refl | exact Hle] | discriminate]|].
      eapply Forall_impl; [|exact HF]. intros l [[L1 L2] L3]. split; [split; lra | exact L3].
    + intros [|p pre] l1 l2 post Ep.
      * injection Ep as <- Erest. rewrite Erest in HF. inversion HF as [|? ? [[L1 _] _] _].
        cbn [fst]. lra.
      * injection Ep as _ Erest. exact (HS pre l1 l2 post Erest).
Qed.

End SliceLoop.

(** **** The depth loop *)

Section DepthLoop.
Context {A : Type}.
Variables (run : Q -> list A) (cut step : Q).
Hypothesis Hcut : rnd cut == cut.
Hypothesis Hstep : 0 <= step.
Hypothesis Htol : 0 < rnd depth_tol.

Lemma depth_open_cond (z : Q) : depth_open rnd cut z -> Qltb (rnd (cut - rnd depth_tol)) z = true.
Proof.
  intros (Hz & Hc & H0 & Hfar). apply Qltb_iff. apply Qnot_le_lt. intro Hle.
  assert (Hm : rnd (cut - rnd depth_tol) <= cut).
  { rewrite <- Hcut at 2. apply rnd_mono. lra. }
  assert (Heq : z - cut == 0) by lra.
  rewrite (rnd_proper _ _ Heq), rnd_zero in Hfar. simpl in Hfar. lra.
Qed.

(** Once [z - step_down] rounds back to [z] the loop never ends. *)
Lemma depth_loop_stall (f : nat) (z : Q) :
  depth_open rnd cut z -> rnd (z - step) == z -> depth_loop_rnd rnd f run cut step z = None.
Proof.
  revert z. induction f as [|f IH]; intros z Ho Hs; [reflexivity|].
  cbn [depth_loop_rnd]. rewrite (depth_open_cond z Ho).
  destruct Ho as (Hz & Hc & H0 & Hfar).
  destruct (Qltb (rnd (z - step)) cut) eqn:E1.
  { apply Qltb_iff in E1. exfalso. rewrite Hs in E1. lra. }
  assert (Hd : rnd (rnd (z - step) - cut) == rnd (z - cut)) by (apply rnd_proper; rewrite Hs; reflexivity).
  destruct (Qltb (Qabs (rnd (rnd (z - step) - cut))) (rnd depth_tol)) eqn:E2.
  { apply Qltb_iff in E2. exfalso. rewrite Hd in E2. lra. }
  rewrite IH; [reflexivity| |].
  - split; [apply rnd_idem|]. rewrite Hd, Hs. repeat split; assumption.
  - transitivity (rnd (z - step)); [|reflexivity]. apply rnd_proper. rewrite Hs. reflexivity.
Qed.

Lemma depth_loop_rnd_spec (f : nat) :
  forall zz tps, rnd zz == zz -> cut <= zz -> zz <= 0 ->
  Qltb (rnd (cut - rnd depth_tol)) zz = true ->
  depth_loop_rnd rnd f run cut step zz = Some tps ->
  exists zs, tps = flat_map run zs /\ zs <> [] /\
    Forall (fun z => rnd z == z /\ cut <= z <= zz) zs /\
    (rnd depth_tol <= Qabs (rnd (zz - cut)) -> Forall (fun z => z < zz) zs) /\
    (forall pre z1 z2 post, zs = pre ++ z1 :: z2 :: post -> z2 < z1) /\
    (forall k z, nth_error zs k = Some z -> (S k < length zs)%nat ->
       rnd depth_tol <= Qabs (rnd (z - cut))) /\
    Qabs (rnd (last zs 0 - cut)) < rnd depth_tol.
Proof.
  induction f as [|f IH]; intros zz tps Hzz Hc0 H0 Hg E; [discriminate|].
  cbn [depth_loop_rnd] in E. rewrite Hg in E.
  set (z1 := rnd (zz - step)) in E.
  set (z2 := if Qltb z1 cut then cut else z1) in E.
  assert (Hz1 : z1 <= zz).
  { unfold z1. rewrite <- Hzz at 2. apply rnd_mono. lra. }
  assert (Hcase : z2 = cut \/ (z2 = z1 /\ cut <= z1)).
  { unfold z2. destruct (Qltb z1 cut) eqn:Hc; [left; reflexivity | right; split; [reflexivity|]].
    apply Qnot_lt_le. intro X. apply Qltb_iff in X. congruence. }
  assert (Hz2 : rnd z2 == z2 /\ cut <= z2 <= zz).
  { destruct Hcase as [-> | [-> Hle]]; [split; [exact Hcut | lra] | split; [apply rnd_idem | lra]]. }
  destruct Hz2 as [Hz2r [Hz2c Hz2z]].
  (* [z2] equals [zz] only when the loop stays open at [zz] forever or [zz] is [cut_depth]. *)
  assert (Hnoteq : rnd depth_tol <= Qabs (rnd (zz - cut)) -> z2 == zz ->
                   Qabs (rnd (z2 - cut)) < rnd depth_tol -> False).
  { intros Hfar Heq Hb. rewrite (rnd_proper (z2 - cut) (zz - cut)) in Hb by (rewrite Heq; reflexivity).
    lra. }
  destruct (Qltb (Qabs (rnd (z2 - cut))) (rnd depth_tol)) eqn:Hb.
  - injection E as <-. apply Qltb_iff in Hb.
    exists [z2]. split; [cbn; rewrite app_nil_r; reflexivity|]. split; [discriminate|].
    split; [constructor; [split; [exact Hz2r | lra] | constructor]|].
    split; [|split; [|split]].
    + intro Hfar. constructor; [|constructor].
      destruct (Qle_lt_or_eq _ _ Hz2z) as [H|H]; [exact H|].
      exfalso. exact (Hnoteq Hfar H Hb).
    + intros [|p [|q pre]] a b post Ep; discriminate.
    + intros [|k] z Hk Hl; cbn in Hl; lia.
    + exact Hb.
  - assert (Hfar : rnd depth_tol <= Qabs (rnd (z2 - cut))).
    { apply Qnot_lt_le. intro X. apply Qltb_iff in X. congruence. }
    assert (Ho : depth_open rnd cut z2) by (repeat split; try assumption; lra).
    destruct (depth_loop_rnd rnd f run cut step z2) as [rest|] eqn:Er; [|discriminate].
    cbn [option_map] in E. injection E as <-.
    destruct (IH z2 rest Hz2r Hz2c ltac:(lra) (depth_open_cond z2 Ho) Er)
      as (zs & Hrest & Hne & HF & HS & Hsort & Hmid & Hlast).
    specialize (HS Hfar).
    exists (z2 :: zs). split; [rewrite Hrest; reflexivity|]. split; [discriminate|].
    split; [|split; [|split; [|split]]].
    + constructor; [split; [exact Hz2r | lra]|].
      eapply Forall_impl; [|exact HF]. intros z [Hr [L U]]. split; [exact Hr | lra].
    + intro Hfar0. constructor.
      * destruct (Qle_lt_or_eq _ _ Hz2z) as [H|H]; [exact H|]. exfalso.
        destruct Hcase as [Hcz | [Hz12 _]].
        -- rewrite Hcz in H.
           rewrite (rnd_proper (zz - cut) 0), rnd_zero in Hfar0 by (rewrite H; ring).
           simpl in Hfar0. lra.
        -- rewrite (depth_loop_stall f z2 Ho) in Er; [discriminate|].
           rewrite Hz12 in H |- *. transitivity (rnd (zz - step)); [|reflexivity].
           apply rnd_proper. rewrite H. reflexivity.
      * eapply Forall_impl; [|exact HS]. intros z Hz. cbn beta in Hz.
        destruct (Qle_lt_or_eq _ _ Hz2z) as [H|H]; lra.
    + intros [|p pre] a b post Ep.
      * injection Ep as <- Ezs. rewrite Ezs in HS. inversion HS; assumption.
      * injection Ep as _ Ezs. exact (Hsort pre a b post Ezs).
    + intros [|k] z Hk Hl.
      * injection Hk as <-. exact Hfar.
      * cbn in Hk, Hl. apply (Hmid k z Hk). lia.
    + destruct zs as [|z' zs']; [contradiction Hne; reflexivity|]. exact Hlast.
Qed.

End DepthLoop.

(** **** [float_range] *)



End RoundingFacts.

(* ------------------------------------------------------------------ *)
(** ** Claims about [chain_segments] *)

(** Claim C1, as stated: every closed polyline produced by the chainer has
    its first and its last point within the tolerance [eps = 1e-6].  False:
    the three segments of a triangle chain into [A, B, C, A], which is
    closed, and dropping the duplicate closing point leaves [A, B, C], whose
    first and last points are one unit apart. *)
Lemma C1_closure_within_eps_fails :
  ~ (forall segs pl, In pl (chain_segments segs) -> closed pl = true ->
       dist_le (hd origin2 (points pl)) (last (points pl) origin2) chain_eps).
Proof.
  intro H.
  assert (Hin : In (mkPolyline [ptA; ptB; ptC] true) (chain_segments tri_segments))
    by (vm_compute; left; reflexivity).
  specialize (H _ _ Hin eq_refl).
  unfold dist_le, dist_sq, chain_eps in H. simpl in H. lra.
Qed.

(** Claim C1, amended: every closed polyline produced by the chainer has at
    least two points, and its implicit closing edge (from its last point back
    to its first) is bridged by an input segment: that segment has one
    endpoint within [eps] of the last point and its other endpoint (the
    dropped closing point) within [eps] of the first point. *)
Theorem C1_closed_chain_bridged (segs : list Segment2) (pl : Polyline) :
  In pl (chain_segments segs) -> closed pl = true ->
  (2 <= length (points pl))%nat /\
  exists s, In s segs /\
    ((dist_lt (a s) (last (points pl) origin2) chain_eps /\
      dist_lt (hd origin2 (points pl)) (b s) chain_eps) \/
     (dist_lt (b s) (last (points pl) origin2) chain_eps /\
      dist_lt (hd origin2 (points pl)) (a s) chain_eps)).
Proof.
  intros Hin Hcl. unfold chain_segments in Hin.
  destruct segs as [|s0 segs0]; [destruct Hin|].
  apply chain_loop_shape in Hin as (c & Hc & ->); [|apply Forall_seq_lt].
  apply finish_chain_closed; assumption.
Qed.

Lemma C1_closed_chain_bridged_witness :
  In (mkPolyline [ptA; ptB; ptC] true) (chain_segments tri_segments) /\
  closed (mkPolyline [ptA; ptB; ptC] true) = true /\
  (2 <= length (points (mkPolyline [ptA; ptB; ptC] true)))%nat.
Proof.
  assert (Hin : In (mkPolyline [ptA; ptB; ptC] true) (chain_segments tri_segments))
    by (vm_compute; left; reflexivity).
  split; [exact Hin|]. split; [reflexivity|].
  exact (proj1 (C1_closed_chain_bridged tri_segments _ Hin eq_refl)).
Defined.

(* ------------------------------------------------------------------ *)
(** ** Claims about the strategies' first moves *)

(** Claim C2, as stated: the first move of every toolpath of every strategy
    is a rapid.  False for the zig-zag surface strategy: on a flat 4 x 4
    square its second toolpath (the second row) starts with a cut from the
    end of the first row. *)
Lemma C2_first_move_rapid_fails :
  ~ (forall sp t, In t (generate_surface sp) -> first_rapid t = Some true).
Proof.
  intro H.
  assert (Hin : exists t, In t (generate_surface sq_surface) /\ first_rapid t = Some false).
  { eexists. split; [vm_compute; right; left; reflexivity | vm_compute; reflexivity]. }
  destruct Hin as (t & Hin & Hf). rewrite (H _ _ Hin) in Hf. discriminate.
Qed.

(** Claim C2, amended: every toolpath of the contour, perimeter and pocket
    strategies starts with a rapid; the zig-zag surface strategy starts only
    its first toolpath with a rapid, and every later toolpath (row) starts
    with a cut. *)
Theorem C2_first_moves (cs : list Polyline) (p : CutParams) (sp : SurfaceParams) :
  (forall t, In t (ContourStrategy_generate cs p) -> first_rapid t = Some true) /\
  (forall t, In t (PerimeterStrategy_generate cs p) -> first_rapid t = Some true) /\
  (forall t, In t (PocketStrategy_generate cs p) -> first_rapid t = Some true) /\
  (forall i t, nth_error (generate_surface sp) i = Some t -> first_rapid t = Some (Nat.eqb i 0)).
Proof.
  split; [intro t; apply contour_first_rapid|].
  split; [intro t; apply perimeter_first_rapid|].
  split; [intro t; apply pocket_first_rapid|].
  intros i t; apply surface_first_rapid.
Qed.

Lemma C2_first_moves_witness :
  exists t, nth_error (generate_surface sq_surface) 1%nat = Some t /\ first_rapid t = Some false.
Proof.
  destruct (nth_error (generate_surface sq_surface) 1%nat) as [t|] eqn:E.
  - exists t. split; [reflexivity|].
    exact (proj2 (proj2 (proj2 (C2_first_moves [square10] prm sq_surface))) 1%nat t E).
  - vm_compute in E. discriminate.
Defined.

(* ------------------------------------------------------------------ *)
(** ** Claims about the perimeter strategy *)




(* ------------------------------------------------------------------ *)
(** ** Claims about [ball_end_offset] *)

Module BallEndFacts.
Import Reals BallEndR.
Local Open Scope R_scope.

(** Claim C4: for a normal of length at least [1e-10] the offset is
    [(R nx, R ny, R (1 - nz))] of the normalised normal; below that length
    it is [(0, 0, 0)]; at the normal [(0, 0, 1)] it is [(0, 0, 0)]; and for a
    unit normal and a radius [R >= 0] the XY displacement has magnitude
    [R * sqrt (1 - nz^2)]. *)
Theorem C4_ball_end_offset (n : Vec3R) (radius : R) :
  (/ 10 ^ 10 <= norm n ->
     ball_end_offset n radius =
       (radius * (rx n / norm n), radius * (ry n / norm n), radius * (1 - rz n / norm n))) /\
  (norm n < / 10 ^ 10 -> ball_end_offset n radius = (0, 0, 0)) /\
  ball_end_offset (mkVec3R 0 0 1) radius = (0, 0, 0) /\
  (rx n * rx n + ry n * ry n + rz n * rz n = 1 -> 0 <= radius ->
     let '(dx, dy, _) := ball_end_offset n radius in
     sqrt (dx * dx + dy * dy) = radius * sqrt (1 - rz n * rz n)).
Proof.
  assert (Hunit : forall m : Vec3R, rx m * rx m + ry m * ry m + rz m * rz m = 1 -> norm m = 1)
    by (intros m Hm; unfold norm; rewrite Hm; apply sqrt_1).
  assert (Hsmall : ~ (1 < / 10 ^ 10)).
  { intro H. assert (H1 : 1 <= 10 ^ 10) by (apply pow_R1_Rle; Lra.lra).
    apply Rinv_le_contravar in H1; [|Lra.lra]. rewrite Rinv_1 in H1. Lra.lra. }
  split; [|split; [|split]].
  - intro H. unfold ball_end_offset. destruct (Rlt_dec (norm n) (/ 10 ^ 10)); [Lra.lra | reflexivity].
  - intro H. unfold ball_end_offset. destruct (Rlt_dec (norm n) (/ 10 ^ 10)); [reflexivity | Lra.lra].
  - unfold ball_end_offset. rewrite (Hunit (mkVec3R 0 0 1) ltac:(simpl; ring)).
    destruct (Rlt_dec 1 (/ 10 ^ 10)) as [H|_]; [contradiction|]. simpl.
    f_equal; [f_equal|]; field.
  - intros Hn Hr. unfold ball_end_offset. rewrite (Hunit _ Hn).
    destruct (Rlt_dec 1 (/ 10 ^ 10)) as [H|_]; [contradiction|].
    replace (radius * (rx n / 1) * (radius * (rx n / 1)) + radius * (ry n / 1) * (radius * (ry n / 1)))
      with ((radius * radius) * (1 - rz n * rz n))
      by (replace (1 - rz n * rz n) with (rx n * rx n + ry n * ry n) by Lra.lra; field).
    rewrite sqrt_mult_alt by (apply Rle_0_sqr).
    rewrite sqrt_square by exact Hr. reflexivity.
Qed.

Lemma C4_ball_end_offset_witness :
  0 * 0 + 0 * 0 + 1 * 1 = 1 /\ 0 <= 2 /\
  (let '(dx, dy, _) := ball_end_offset (mkVec3R 0 0 1) 2 in
   sqrt (dx * dx + dy * dy) = 2 * sqrt (1 - 1 * 1)).
Proof.
  assert (Hn : 0 * 0 + 0 * 0 + 1 * 1 = 1) by ring.
  assert (Hr : 0 <= 2) by Lra.lra.
  split; [exact Hn|]. split; [exact Hr|].
  exact (proj2 (proj2 (proj2 (C4_ball_end_offset (mkVec3R 0 0 1) 2))) Hn Hr).
Defined.
End BallEndFacts.

(* ------------------------------------------------------------------ *)
(** ** Claims about the slicer's layers *)

(** Claim C5, as stated: successive emitted layers differ by exactly [h].
    False when a layer in between intersects no triangle: for two triangles
    spanning [z in [0,1]] and [z in [3,4]] and [h = 1], the layers are at
    [1/2] and [7/2] (all heights here are exact in [f64], so the program
    gives the same layers). *)
Lemma C5_layer_spacing_fails :
  ~ (forall tris h, tris <> [] -> 0 < h ->
       forall pre l1 l2 post, slice_mesh (Mesh_new tris) h = pre ++ l1 :: l2 :: post ->
         fst l2 - fst l1 == h).
Proof.
  intro H.
  destruct (slice_mesh gap_mesh 1) as [|l1 [|l2 rest]] eqn:E;
    [vm_compute in E; discriminate | vm_compute in E; discriminate |].
  specialize (H [low_tri; high_tri] 1 ltac:(discriminate) ltac:(reflexivity) [] l1 l2 rest E).
  vm_compute in E. injection E as <- <- _. vm_compute in H. discriminate.
Qed.

(** Claim C5, amended: the heights are computed in [f64]
    ([z = z_min + h * 0.5], then [z += h], each result rounded by [rnd]).
    For a non-empty mesh whose [z_min] is an [f64] value and a layer height
    [h > 0], whenever [slice_mesh] returns, every emitted layer has a
    non-empty contour list and a height [z] with [z_min <= z <= z_max], and
    the emitted heights strictly increase.  This holds for any per-height
    slicer [slice] and any rounding with the properties of [is_rounding];
    successive heights need not differ by exactly [h]. *)
Theorem C5_layer_heights (rnd : Q -> Q) (slice : Mesh -> Q -> list Polyline) (fuel : nat)
    (tris : list Triangle) (h : Q) (layers : list (Q * list Polyline)) :
  is_rounding rnd -> tris <> [] -> 0 < h ->
  (forall bb, bounds (Mesh_new tris) = Some bb -> rnd (z3 (bmin bb)) == z3 (bmin bb)) ->
  slice_mesh_rnd rnd slice fuel (Mesh_new tris) h = Some layers ->
  exists bb, bounds (Mesh_new tris) = Some bb /\
    Forall (fun l => z3 (bmin bb) <= fst l <= z3 (bmax bb) /\ snd l <> []) layers /\
    (forall pre l1 l2 post, layers = pre ++ l1 :: l2 :: post -> fst l1 < fst l2).
Proof.
  intros Hr Hne Hh Hmin E. destruct (bounds_nonempty tris Hne) as [bb Hbb].
  exists bb. split; [exact Hbb|]. unfold slice_mesh_rnd in E. rewrite Hbb in E.
  set (z0 := rnd (z3 (bmin bb) + rnd (h * (1 # 2)))) in E.
  assert (Hz0 : z3 (bmin bb) <= z0).
  { assert (H0 : 0 <= rnd (h * (1 # 2))) by (apply (rnd_nonneg rnd Hr); lra).
    rewrite <- (Hmin bb Hbb) at 1. unfold z0. apply (rnd_mono rnd Hr). lra. }
  destruct (slice_loop_rnd_spec rnd Hr (slice (Mesh_new tris)) h (z3 (bmax bb))
              ltac:(lra) fuel z0 layers (rnd_idem rnd Hr _) E) as [HF HS].
  split; [|exact HS].
  eapply Forall_impl; [|exact HF]. intros l [[L1 L2] L3]. split; [split; lra | exact L3].
Qed.

Lemma C5_layer_heights_witness :
  exists layers, slice_mesh_rnd (fun q => q) slice_at_z 10 gap_mesh 1 = Some layers /\
    map fst layers = [1 # 2; 7 # 2] /\
    exists bb, bounds gap_mesh = Some bb /\
      Forall (fun l => z3 (bmin bb) <= fst l <= z3 (bmax bb) /\ snd l <> []) layers /\
      (forall pre l1 l2 post, layers = pre ++ l1 :: l2 :: post -> fst l1 < fst l2).
Proof.
  destruct (slice_mesh_rnd (fun q => q) slice_at_z 10 gap_mesh 1) as [layers|] eqn:E;
    [|vm_compute in E; discriminate].
  exists layers. split; [reflexivity|]. split.
  - vm_compute in E. injection E as <-. reflexivity.
  - exact (C5_layer_heights (fun q => q) slice_at_z 10 [low_tri; high_tri] 1 layers exact_rounding
             ltac:(discriminate) ltac:(reflexivity) (fun bb _ => Qeq_refl _) E).
Defined.

(* ------------------------------------------------------------------ *)
(** ** Claims about the pocket strategy *)

(** Claim C6 (in [f64]): a cut of the pocket strategy can leave the
    contour's bounding rectangle inset by the tool radius.  For the closed
    contour [thin_quad] = (100, 1), (0.1, 0), (50, -1), (200, 0) and a tool
    of diameter 2, the only scanline is [y = 0]; the edge from (100, 1) to
    (0.1, 0) crosses it at [100 + 1 * (0.1 - 100) = 0.09999999999999432],
    below [x_min = 0.1], so the first cut starts at [1.0999999999999943],
    below the inset edge [x_min + r = 1.1000000000000001]. *)
Theorem C6_pocket_cut_outside_inset :
  exists mn mx m,
    F64.BoundingBox2_from_points F64Pocket.thin_quad = Some (mn, mx) /\
    In m F64Pocket.thin_quad_moves /\ F64Pocket.mrapid m = false /\
    PrimFloat.ltb (F64Pocket.mfx m) (PrimFloat.add (F64.fx mn) F64Pocket.thin_quad_r) = true.
Proof.
  destruct (F64.BoundingBox2_from_points F64Pocket.thin_quad) as [[mn mx]|] eqn:E;
    [|vm_compute in E; discriminate].
  destruct F64Pocket.thin_quad_moves as [|m0 [|m1 rest]] eqn:Em;
    [vm_compute in Em; discriminate | vm_compute in Em; discriminate |].
  exists mn, mx, m1. split; [reflexivity|]. split; [right; left; reflexivity|].
  vm_compute in E. injection E as <- <-. vm_compute in Em. injection Em as <- <- _.
  split; vm_compute; reflexivity.
Qed.

(* ------------------------------------------------------------------ *)
(** ** Claims about the depth loop of the 2-D pipeline *)

(** Claim C7, as stated: the depth loop ends exactly after a layer at
    [cut_depth], so the cuts of the last toolpath are at [cut_depth].  False
    when a layer lands within the 0.001 tolerance of [cut_depth] without
    reaching it: cutting a 10 x 10 square to [-1] in steps of [0.9995] makes
    the single layer at [-0.9995], and the loop stops there (in [f64] the
    layer is the double nearest [-0.9995], also within 0.001 of [-1]). *)
Lemma C7_final_layer_at_cut_depth_fails :
  ~ (forall pls c, cfg_cut_depth c <= 0 -> 0 < cfg_step_down c ->
       forall m, In m (moves (last (build_toolpaths_svg pls c) Toolpath_new)) -> rapid m = false ->
         mz m == cfg_cut_depth c).
Proof.
  intro H.
  assert (Hm : exists m, In m (moves (last (build_toolpaths_svg [square10] svg_cfg) Toolpath_new)) /\
                         rapid m = false /\ mz m = -1999 # 2000).
  { vm_compute. eexists. split; [right; left; reflexivity | split; reflexivity]. }
  destruct Hm as (m & Hin & Hr & Hz).
  specialize (H [square10] svg_cfg ltac:(vm_compute; discriminate) ltac:(reflexivity) m Hin Hr).
  rewrite Hz in H. vm_compute in H. discriminate.
Qed.

(** Claim C7, amended: the layer heights are computed in [f64] ([z -= step_down]
    and [z - cut_depth] rounded by [rnd], the literal [0.001] read as
    [rnd depth_tol]).  For [step_down > 0] and [cut_depth <= 0] an [f64]
    value, whenever the 2-D pipeline's depth loop returns, it has run the
    chosen strategy once per layer, in order, with [cut_z] set to the
    layer's height; there is at least one layer; every layer lies in
    [[cut_depth, 0]]; the layers strictly decrease; every layer but the last
    is at least 0.001 away from [cut_depth]; and the last is within 0.001 of
    [cut_depth] (so it need not equal [cut_depth]).  This holds for any
    rounding with the properties of [is_rounding] that keeps [0.001]
    positive. *)
Theorem C7_depth_layers (rnd : Q -> Q) (fuel : nat) (pls : list Polyline) (c : CamConfig)
    (tps : list Toolpath) :
  is_rounding rnd -> rnd (cfg_cut_depth c) == cfg_cut_depth c -> 0 < rnd depth_tol ->
  cfg_cut_depth c <= 0 -> 0 < cfg_step_down c ->
  build_toolpaths_svg_rnd rnd fuel pls c = Some tps ->
  exists zs, tps = flat_map (fun z => strategy_of (cfg_strategy c) pls (with_cut_z (cut_params_of c) z)) zs /\
    zs <> [] /\
    Forall (fun z => cfg_cut_depth c <= z <= 0) zs /\
    (forall pre z1 z2 post, zs = pre ++ z1 :: z2 :: post -> z2 < z1) /\
    (forall k z, nth_error zs k = Some z -> (S k < length zs)%nat ->
       rnd depth_tol <= Qabs (rnd (z - cfg_cut_depth c))) /\
    Qabs (rnd (last zs 0 - cfg_cut_depth c)) < rnd depth_tol.
Proof.
  intros Hr Hcr Htol Hcut Hstep E. unfold build_toolpaths_svg_rnd in E.
  set (cut := cfg_cut_depth c) in *.
  assert (Hg : Qltb (rnd (cut - rnd depth_tol)) 0 = true).
  { apply Qltb_iff.
    assert (H1 : rnd (cut - rnd depth_tol) <= rnd (- rnd depth_tol))
      by (apply (rnd_mono rnd Hr); lra).
    rewrite (rnd_opp rnd Hr), (rnd_idem rnd Hr) in H1. lra. }
  destruct (depth_loop_rnd_spec rnd Hr _ cut (cfg_step_down c) Hcr ltac:(lra) Htol fuel 0 tps
              (rnd_zero rnd Hr) Hcut (Qle_refl 0) Hg E)
    as (zs & Htps & Hne & HF & _ & Hsort & Hmid & Hlast).
  exists zs. split; [exact Htps|]. split; [exact Hne|]. split.
  - eapply Forall_impl; [|exact HF]. intros z [_ H]. exact H.
  - split; [exact Hsort|]. split; [exact Hmid | exact Hlast].
Qed.

Lemma C7_depth_layers_witness :
  exists tps, build_toolpaths_svg_rnd (fun q => q) 10 [square10] svg_cfg = Some tps /\
    exists zs, tps = flat_map (fun z => strategy_of (cfg_strategy svg_cfg) [square10]
                                         (with_cut_z (cut_params_of svg_cfg) z)) zs /\
      zs <> [] /\ Qabs (last zs 0 - cfg_cut_depth svg_cfg) < depth_tol.
Proof.
  destruct (build_toolpaths_svg_rnd (fun q => q) 10 [square10] svg_cfg) as [tps|] eqn:E;
    [|vm_compute in E; discriminate].
  exists tps. split; [reflexivity|].
  destruct (C7_depth_layers (fun q => q) 10 [square10] svg_cfg tps exact_rounding
              ltac:(vm_compute; reflexivity) ltac:(vm_compute; reflexivity)
              ltac:(vm_compute; discriminate) ltac:(reflexivity) E)
    as (zs & H1 & H2 & _ & _ & _ & H6).
  exists zs. split; [exact H1|]. split; [exact H2 | exact H6].
Defined.

(* ------------------------------------------------------------------ *)
(** ** Claims about an empty mesh *)

Section EmptyMesh.
Local Open Scope string_scope.
Local Infix "+++" := String.append (right associativity, at level 60).

(** Claim C8: for the mesh with no triangles, slicing gives no layer at any
    layer height, both STL pipelines give no toolpath for every
    configuration (the contour fallback slice included), and the G-code is
    the preamble followed directly by the footer. *)
Theorem C8_empty_mesh (c : CamConfig) (h : Q)
    (fmt_fixed : nat -> Q -> String.string) (fmt_usize : nat -> String.string) :
  slice_mesh (Mesh_new []) h = [] /\
  process_stl_toolpaths (Mesh_new []) c = [] /\
  build_toolpaths_stl (Mesh_new []) c = [] /\
  process_stl_gcode fmt_fixed fmt_usize (Mesh_new []) c =
    gcode_header fmt_fixed (gcode_params_of c) +++ gcode_footer fmt_fixed (gcode_params_of c).
Proof.
  assert (Hs : forall h', slice_mesh (Mesh_new []) h' = []) by reflexivity.
  assert (Hz : forall zz, slice_at_z (Mesh_new []) zz = []) by reflexivity.
  assert (Hstrat : forall name p, strategy_of name [] p = []).
  { intros name p. unfold strategy_of.
    destruct (String.eqb name "pocket"); [reflexivity|].
    destruct (String.eqb name "perimeter"); reflexivity. }
  assert (Ht : process_stl_toolpaths (Mesh_new []) c = []).
  { unfold process_stl_toolpaths. unfold run_layers. rewrite Hs. simpl flat_map.
    destruct (String.eqb (cfg_strategy c) "pocket"); [reflexivity|].
    destruct (String.eqb (cfg_strategy c) "slice"); [reflexivity|].
    destruct (String.eqb (cfg_strategy c) "zigzag"); [reflexivity|].
    destruct (String.eqb (cfg_strategy c) "perimeter"); [reflexivity|].
    rewrite Hz. reflexivity. }
  split; [apply Hs|]. split; [exact Ht|]. split.
  - unfold build_toolpaths_stl, run_layers. rewrite Hs. simpl flat_map.
    destruct (String.eqb (cfg_strategy c) "zigzag"); [reflexivity|].
    rewrite Hz. apply Hstrat.
  - unfold process_stl_gcode, emit_gcode. rewrite Ht. reflexivity.
Qed.
End EmptyMesh.

(* ------------------------------------------------------------------ *)
(** ** Panics of the perimeter strategy *)

(** Claim C9 (in [f64]): the perimeter strategy's [max_by] comparator can
    panic on finite input.  For the contours [wide_flat] (from [-f64::MAX]
    to [f64::MAX] along [y = 0]) and [unit_tri], all coordinates are finite,
    but the first bounding-box area is [inf * 0 = NaN], [partial_cmp] returns
    [None] and the [unwrap] panics. *)
Theorem C9_perimeter_max_by_panics :
  forallb (forallb F64.finite_pt) [F64.wide_flat; F64.unit_tri] = true /\
  F64.partial_cmp (F64.bbox_area F64.wide_flat) (F64.bbox_area F64.unit_tri) = None /\
  F64.max_by_area [F64.wide_flat; F64.unit_tri] = None.
Proof. vm_compute. repeat split. Qed.

(* ------------------------------------------------------------------ *)
(** ** Claims about the zig-zag surface strategy *)

(** Claim C10: for a mesh built from a non-empty list of triangles and a
    tool that is not a ball-end mill, every move (rapid or cut) of the
    zig-zag surface strategy, in either scan direction, has its [x] within
    [[bounds.min.x, bounds.max.x]] and its [y] within
    [[bounds.min.y, bounds.max.y]]. *)
Theorem C10_surface_moves_in_bounds (tris : list Triangle) (cp : CutParams) (dir : ScanDirection) :
  tris <> [] -> is_ball (tool_type (tool cp)) = false ->
  exists bb, bounds (Mesh_new tris) = Some bb /\
    forall t m, In t (generate_surface (mkSurfaceParams (Mesh_new tris) cp dir)) -> In m (moves t) ->
      x3 (bmin bb) <= mx m <= x3 (bmax bb) /\ y3 (bmin bb) <= my m <= y3 (bmax bb).
Proof.
  intros Hne Hball. destruct (Mesh_new_bounds_ordered tris Hne) as (bb & Hbb & Hx & Hy).
  exists bb. split; [exact Hbb|]. intros t m Ht Hm.
  set (sp := mkSurfaceParams (Mesh_new tris) cp dir) in Ht.
  set (xl := x3 (bmin bb)) in *. set (xh := x3 (bmax bb)) in *.
  set (yl := y3 (bmin bb)) in *. set (yh := y3 (bmax bb)) in *.
  assert (Hstep : 0 < fmax (step_over cp) step_floor)
    by (pose proof (fmax_ge_r (step_over cp) step_floor); unfold step_floor in *; lra).
  assert (Hrows : Forall (Forall (pt_in xl xh yl yh)) (surface_rows sp bb)).
  { apply Forall_forall. intros r Hr. apply Forall_forall. intros p Hp.
    unfold surface_rows, sp in Hr. cbn [cut_params mesh scan_direction] in Hr. rewrite Hball in Hr.
    destruct dir.
    - refine (let '(ex_intro _ _ (ex_intro _ _ H)) :=
                raster_rows_in _ _ _ _ _ _ _ _ yl (fun _ _ p => pt_in xl xh yl yh p)
                  Hx Hstep (Qle_refl _) _ r p Hr Hp in H).
      intros rr ss q Hrr Hss Hq. apply sample_point_xy in Hq.
      destruct Hq as [zz ->]. simpl. split; assumption.
    - refine (let '(ex_intro _ _ (ex_intro _ _ H)) :=
                raster_rows_in _ _ _ _ _ _ _ _ xl (fun _ _ p => pt_in xl xh yl yh p)
                  Hy Hstep (Qle_refl _) _ r p Hr Hp in H).
      intros rr ss q Hrr Hss Hq. apply sample_point_xy in Hq.
      destruct Hq as [zz ->]. simpl. split; assumption. }
  unfold generate_surface in Ht. change (mesh sp) with (Mesh_new tris) in Ht. rewrite Hbb in Ht.
  destruct (build_rows (surface_rows sp bb) None (safe_z (cut_params sp))) as [tps pe] eqn:E.
  destruct (build_rows_in xl xh yl yh _ None _ tps pe Hrows ltac:(discriminate) E) as [H1 H2].
  pose proof (final_retract_in xl xh yl yh tps pe (safe_z (cut_params sp)) H1 H2) as H3.
  rewrite Forall_forall in H3. specialize (H3 t Ht). rewrite Forall_forall in H3.
  exact (H3 m Hm).
Qed.

Lemma C10_surface_moves_in_bounds_witness :
  exists bb, bounds sq_mesh = Some bb /\ generate_surface sq_surface <> [] /\
    forall t m, In t (generate_surface sq_surface) -> In m (moves t) ->
      x3 (bmin bb) <= mx m <= x3 (bmax bb) /\ y3 (bmin bb) <= my m <= y3 (bmax bb).
Proof.
  destruct (C10_surface_moves_in_bounds (triangles sq_mesh) prm ScanX
              ltac:(vm_compute; discriminate) ltac:(reflexivity)) as (bb & Hbb & H).
  exists bb. split; [exact Hbb|]. split; [vm_compute; discriminate|]. exact H.
Defined.

(* ------------------------------------------------------------------ *)
(** ** Further properties of the code *)

From Stdlib Require Import Sorted Permutation.

(** *** Scanline crossings come in pairs *)




(** *** Sorting the crossings *)

Lemma insert_Q_perm (v : Q) (l : list Q) : Permutation (v :: l) (insert_Q v l).
Proof.
  induction l as [|h t IH]; simpl; [reflexivity|].
  destruct (Qltb v h); [reflexivity|].
  rewrite perm_swap. constructor. exact IH.
Qed.

Lemma insert_Q_hdrel (h v : Q) (l : list Q) :
  HdRel Qle h l -> h <= v -> HdRel Qle h (insert_Q v l).
Proof.
  intros Hh Hv. destruct l as [|u t]; simpl; [constructor; exact Hv|].
  destruct (Qltb v u); constructor; [exact Hv|]. inversion Hh; assumption.
Qed.

Lemma insert_Q_sorted (v : Q) (l : list Q) : Sorted Qle l -> Sorted Qle (insert_Q v l).
Proof.
  induction l as [|h t IH]; intro Hs; simpl; [repeat constructor|].
  destruct (Qltb v h) eqn:E.
  - apply Qltb_iff in E. constructor; [exact Hs|]. constructor. lra.
  - unfold Qltb in E. apply negb_false_iff, Qle_bool_iff in E.
    inversion Hs as [|? ? Ht Hh]; subst. constructor; [exact (IH Ht)|].
    apply insert_Q_hdrel; assumption.
Qed.

Lemma sort_Q_fold (l acc : list Q) :
  Sorted Qle acc ->
  Sorted Qle (fold_left (fun acc v => insert_Q v acc) l acc) /\
  Permutation (l ++ acc) (fold_left (fun acc v => insert_Q v acc) l acc).
Proof.
  revert acc. induction l as [|v l IH]; intros acc Hs; simpl; [split; [exact Hs | reflexivity]|].
  destruct (IH (insert_Q v acc) (insert_Q_sorted v acc Hs)) as [H1 H2].
  split; [exact H1|]. rewrite <- H2.
  rewrite <- insert_Q_perm. apply Permutation_middle.
Qed.

(** *** [float_range] *)

Lemma nth_map_seq (f : nat -> Q) (n i : nat) :
  (i < n)%nat -> nth i (map f (seq 0 n)) 0 = f i.
Proof.
  intro H. rewrite (nth_indep _ _ (f 0%nat)) by (rewrite length_map, length_seq; exact H).
  rewrite map_nth, seq_nth by exact H. reflexivity.
Qed.


Lemma fmin_eq_l (u v : Q) : u <= v -> fmin u v = u.
Proof. intro H. unfold fmin. apply Qle_bool_iff in H. rewrite H. reflexivity. Qed.

Lemma fmin_cases (u v : Q) : (fmin u v = u /\ u <= v) \/ (fmin u v = v /\ v < u).
Proof.
  unfold fmin. destruct (Qle_bool u v) eqn:E.
  - left. apply Qle_bool_iff in E. auto.
  - right. apply Qle_bool_false in E. auto.
Qed.

(* ================================================================== *)
(** ** Extra properties *)


(** X2.  The sort of the pocket strategy's crossing list returns the same
    values (a permutation of its input) in nondecreasing order. *)
Theorem X2_sort_Q_sorted_perm (l : list Q) :
  Sorted Qle (sort_Q l) /\ Permutation l (sort_Q l).
Proof.
  destruct (sort_Q_fold l [] (Sorted_nil _)) as [H1 H2].
  split; [exact H1|]. rewrite app_nil_r in H2. exact H2.
Qed.


(** *** Move sequences of the strategies *)

Lemma cut_along_moves (tp : Toolpath) (pts : list Vec2) (zc : Q) :
  moves (cut_along tp pts zc) = moves tp ++ map (fun p => mkMove (x p) (y p) zc false) pts.
Proof.
  unfold cut_along. revert tp. induction pts as [|p pts IH]; intro tp; simpl.
  - rewrite app_nil_r. reflexivity.
  - rewrite IH. unfold tp_cut. simpl. rewrite <- app_assoc. reflexivity.
Qed.

Lemma follow_path_shape (cl : bool) (p0 : Vec2) (rest : list Vec2) (p : CutParams) :
  path_shape p (follow_path cl p0 rest p) /\
  length (moves (follow_path cl p0 rest p)) = (length rest + 3 + (if cl then 1 else 0))%nat.
Proof.
  unfold follow_path.
  set (t1 := cut_along _ rest (cut_z p)).
  assert (H1 : moves t1 = [mkMove (x p0) (y p0) (safe_z p) true; mkMove (x p0) (y p0) (cut_z p) false]
                          ++ map (fun q => mkMove (x q) (y q) (cut_z p) false) rest)
    by (unfold t1; rewrite cut_along_moves; reflexivity).
  set (cls := if cl then [mkMove (x p0) (y p0) (cut_z p) false] else []).
  assert (H2 : moves (if cl then tp_cut t1 (x p0) (y p0) (cut_z p) else t1) = moves t1 ++ cls)
    by (unfold cls; destruct cl; [reflexivity | rewrite app_nil_r; reflexivity]).
  set (pl := last (p0 :: rest) origin2).
  set (t2 := if cl then tp_cut t1 (x p0) (y p0) (cut_z p) else t1) in *.
  unfold tp_rapid. cbn [moves]. rewrite H2, H1.
  split.
  - exists (mkMove (x p0) (y p0) (safe_z p) true),
      (mkMove (x p0) (y p0) (cut_z p) false
         :: map (fun q => mkMove (x q) (y q) (cut_z p) false) rest ++ cls),
      (mkMove (x pl) (y pl) (safe_z p) true).
    split; [simpl; rewrite <- !app_assoc; reflexivity|].
    do 4 (split; [reflexivity|]).
    constructor; [split; reflexivity|]. apply Forall_app. split.
    + apply Forall_map, Forall_forall. intros q _. split; reflexivity.
    + unfold cls. destruct cl; repeat constructor.
  - rewrite !length_app, length_map. unfold cls. destruct cl; simpl; lia.
Qed.

Lemma offset_polyline_nil (c : Polyline) (d : Q) :
  points c = [] -> offset_polyline c d = [].
Proof. intro H. unfold offset_polyline. rewrite H. reflexivity. Qed.

Lemma pocket_pairs_passes n xs off yy fwd params tp :
  (length xs <= n)%nat ->
  exists ps, moves (pocket_pairs xs off yy fwd params tp) = moves tp ++ flat_map (pocket_pass params) ps /\
    Forall (fun s : Q * Q * Q => let '(xs, xe, _) := s in ~ xs == xe) ps.
Proof.
  revert xs tp. induction n as [|n IH]; intros xs tp Hlen.
  - destruct xs; [|simpl in Hlen; lia]. exists []. rewrite app_nil_r. split; [reflexivity | constructor].
  - destruct xs as [|xa [|xb rest]]; simpl;
      try (exists []; rewrite app_nil_r; split; [reflexivity | constructor]).
    simpl in Hlen.
    destruct (Qle_bool (xb - off) (xa + off)) eqn:Hle; [apply IH; lia|].
    apply Qle_bool_false in Hle.
    set (se := if fwd then (xa + off, xb - off) else (xb - off, xa + off)).
    assert (Hse : ~ fst se == snd se) by (unfold se; destruct fwd; simpl; lra).
    destruct se as [sx ex].
    destruct (IH rest (tp_rapid (tp_cut (tp_cut (tp_rapid tp sx yy (safe_z params)) sx yy (cut_z params))
                         ex yy (cut_z params)) ex yy (safe_z params)) ltac:(lia)) as (ps & H1 & H2).
    exists ((sx, ex, yy) :: ps). rewrite H1. split.
    + unfold tp_rapid, tp_cut. simpl. rewrite <- !app_assoc. reflexivity.
    + constructor; [exact Hse | exact H2].
Qed.

Lemma pocket_rows_passes fuel contour off step ymax yy fwd params tp :
  exists ps, moves (pocket_rows fuel contour off step ymax yy fwd params tp) =
      moves tp ++ flat_map (pocket_pass params) ps /\
    Forall (fun s : Q * Q * Q => let '(xs, xe, _) := s in ~ xs == xe) ps.
Proof.
  revert yy fwd tp. induction fuel as [|f IH]; intros yy fwd tp; simpl.
  - exists []. rewrite app_nil_r. split; [reflexivity | constructor].
  - destruct (Qle_bool yy ymax); [|exists []; rewrite app_nil_r; split; [reflexivity | constructor]].
    destruct (pocket_pairs_passes _ (sort_Q (scanline_intersect contour yy)) off yy fwd params tp
                (le_n _)) as (ps1 & H1 & H2).
    destruct (IH (yy + step) (negb fwd)
                (pocket_pairs (sort_Q (scanline_intersect contour yy)) off yy fwd params tp))
      as (ps2 & H3 & H4).
    exists (ps1 ++ ps2). rewrite H3, H1, flat_map_app, app_assoc. split; [reflexivity|].
    apply Forall_app. split; assumption.
Qed.

Lemma fold_cut_moves (rest : list (Q * Q * Q)) (tp : Toolpath) :
  moves (fold_left (fun t '(xa, ya, za) => tp_cut t xa ya za) rest tp) =
    moves tp ++ map (fun s : Q * Q * Q => let '(xa, ya, za) := s in mkMove xa ya za false) rest.
Proof.
  revert tp. induction rest as [|[[xa ya] za] rest IH]; intro tp; simpl.
  - rewrite app_nil_r. reflexivity.
  - rewrite IH. unfold tp_cut. simpl. rewrite <- app_assoc. reflexivity.
Qed.

Lemma fold_cut_all_cuts (rest : list (Q * Q * Q)) :
  Forall (fun m => rapid m = false)
    (map (fun s : Q * Q * Q => let '(xa, ya, za) := s in mkMove xa ya za false) rest).
Proof. apply Forall_map, Forall_forall. intros [[? ?] ?] _. reflexivity. Qed.

Lemma build_rows_some rows q safe tps pe :
  build_rows rows (Some q) safe = (tps, pe) ->
  Forall (fun m => rapid m = false) (flat_map moves tps) /\ exists q', pe = Some q'.
Proof.
  revert q tps pe. induction rows as [|row rs IH]; intros q tps pe H.
  - simpl in H. injection H as <- <-. split; [constructor | eauto].
  - destruct row as [|p0 rest]; [simpl in H; exact (IH _ _ _ H)|].
    change (build_rows ((p0 :: rest) :: rs) (Some q) safe) with
      (let '(tps0, pe0) := build_rows rs (Some (last (p0 :: rest) pt0)) safe in
       (row_toolpath (Some q) p0 rest safe :: tps0, pe0)) in H.
    destruct (build_rows rs (Some (last (p0 :: rest) pt0)) safe) as [tps1 pe1] eqn:E.
    injection H as <- <-. destruct (IH _ _ _ E) as [H1 H2]. split; [|exact H2].
    simpl. apply Forall_app. split; [|exact H1].
    destruct q as [[px py] pz]. destruct p0 as [[x0 y0] z0]. unfold row_toolpath.
    rewrite fold_cut_moves. apply Forall_app. split; [repeat constructor | apply fold_cut_all_cuts].
Qed.

Lemma build_rows_none rows safe tps pe :
  build_rows rows None safe = (tps, pe) ->
  (tps = [] /\ pe = None) \/
  (exists f rest q, flat_map moves tps = f :: rest /\ rapid f = true /\ mz f = safe /\
     Forall (fun m => rapid m = false) rest /\ pe = Some q).
Proof.
  revert tps pe. induction rows as [|row rs IH]; intros tps pe H.
  - simpl in H. injection H as <- <-. left. split; reflexivity.
  - destruct row as [|p0 rest]; [simpl in H; exact (IH _ _ H)|].
    change (build_rows ((p0 :: rest) :: rs) None safe) with
      (let '(tps0, pe0) := build_rows rs (Some (last (p0 :: rest) pt0)) safe in
       (row_toolpath None p0 rest safe :: tps0, pe0)) in H.
    destruct (build_rows rs (Some (last (p0 :: rest) pt0)) safe) as [tps1 pe1] eqn:E.
    injection H as <- <-. destruct (build_rows_some _ _ _ _ _ E) as [H1 [q' H2]].
    right. destruct p0 as [[x0 y0] z0]. unfold row_toolpath.
    cbn [flat_map]. rewrite fold_cut_moves.
    eexists _, _, q'. split; [reflexivity|]. do 2 (split; [reflexivity|]).
    split; [|exact H2].
    constructor; [reflexivity|]. apply Forall_app. split; [apply fold_cut_all_cuts | exact H1].
Qed.

Lemma final_retract_moves tps q safe :
  tps <> [] ->
  flat_map moves (final_retract tps (Some q) safe) =
    flat_map moves tps ++ [let '(px, py, _) := q in mkMove px py safe true].
Proof.
  intro Hne. unfold final_retract. destruct (exists_last Hne) as (before & lt & ->).
  rewrite rev_app_distr. simpl. rewrite rev_involutive. destruct q as [[px py] pz].
  rewrite !flat_map_app. simpl. rewrite !app_nil_r, app_assoc. reflexivity.
Qed.

(** X4.  The contour strategy produces one toolpath per contour with at
    least one point, in contour order; the toolpath of a contour with [n]
    points has [n + 2] moves, plus one for a closed contour; it starts and
    ends with a rapid at [safe_z], and every move in between is a cut at
    [cut_z]. *)
Theorem X4_contour_toolpath_shape (cs : list Polyline) (p : CutParams) :
  map (fun t => length (moves t)) (ContourStrategy_generate cs p) =
    map (fun c => (length (points c) + 2 + (if closed c then 1 else 0))%nat)
      (filter (fun c => negb (is_nil (points c))) cs) /\
  Forall (path_shape p) (ContourStrategy_generate cs p).
Proof.
  induction cs as [|c cs [IH1 IH2]]; [split; [reflexivity | constructor]|].
  unfold ContourStrategy_generate, contour_toolpath in *. cbn [flat_map filter]. rewrite map_app.
  pose proof (length_offset_polyline c (tool_diameter p / 2)) as Hl.
  destruct (points c) as [|q qs] eqn:Ep.
  - rewrite offset_polyline_nil by exact Ep. simpl. split; [exact IH1 | exact IH2].
  - destruct (offset_polyline c (tool_diameter p / 2)) as [|p0 rest]; [discriminate|].
    destruct (follow_path_shape (closed c) p0 rest p) as [Hs Hn].
    cbn [map app is_nil negb]. rewrite Hn, IH1. simpl in Hl. split.
    + f_equal. rewrite Ep. simpl. lia.
    + constructor; [exact Hs | exact IH2].
Qed.

(** X5.  Every toolpath of the perimeter strategy starts and ends with a
    rapid at [safe_z] and cuts at [cut_z] in between. *)
Theorem X5_perimeter_toolpath_shape (cs : list Polyline) (p : CutParams) :
  Forall (path_shape p) (PerimeterStrategy_generate cs p).
Proof.
  unfold PerimeterStrategy_generate. destruct (max_by_area cs) as [c|]; [|constructor].
  apply Forall_forall. intros t Ht. apply in_flat_map in Ht as (k & _ & Ht).
  unfold perimeter_pass in Ht.
  destruct (if climb_cut p then _ else _) as [|p0 rest]; [destruct Ht|].
  destruct Ht as [<- | []]. apply follow_path_shape.
Qed.

(** X6.  Every toolpath of the pocket strategy is a non-empty sequence of
    four-move passes along a scanline [y]: a rapid above the start at
    [safe_z], a plunge at [cut_z], a cut to the end point at the same [y] and
    [cut_z], and a rapid up to [safe_z]; start and end differ. *)
Theorem X6_pocket_passes (cs : list Polyline) (p : CutParams) :
  Forall (fun t => exists ps, ps <> [] /\ moves t = flat_map (pocket_pass p) ps /\
            Forall (fun s : Q * Q * Q => let '(xs, xe, _) := s in ~ xs == xe) ps)
    (PocketStrategy_generate cs p).
Proof.
  apply Forall_forall. intros t Ht.
  unfold PocketStrategy_generate in Ht. apply in_flat_map in Ht as (c & _ & Ht).
  unfold pocket_toolpath in Ht.
  destruct (_ || _); [destruct Ht|].
  destruct (Polyline_bounds c) as [bb|]; [|destruct Ht].
  match type of Ht with
  | In t (match moves (pocket_rows ?f ?c ?o ?s ?ym ?y0 ?fw ?pp ?t0) with [] => _ | _ => _ end) =>
      destruct (pocket_rows_passes f c o s ym y0 fw pp t0) as (ps & Hm & Hf);
      set (tp := pocket_rows f c o s ym y0 fw pp t0) in *
  end.
  exists ps.
  destruct (moves tp) as [|m ms] eqn:E; [destruct Ht|].
  destruct Ht as [<- | []]. rewrite E. cbn [moves Toolpath_new app] in Hm.
  split; [intros ->; discriminate | split; [exact Hm | exact Hf]].
Qed.

(** X7.  The moves of the zig-zag surface strategy, read across all its
    toolpaths in order, are either none, or a rapid at [safe_z], then cuts
    only, then a final rapid at [safe_z]: the tool never retracts between
    rows. *)
Theorem X7_surface_single_retract (sp : SurfaceParams) :
  let ms := flat_map moves (generate_surface sp) in
  ms = [] \/
  exists f mids l, ms = f :: mids ++ [l] /\
    rapid f = true /\ mz f = safe_z (cut_params sp) /\
    rapid l = true /\ mz l = safe_z (cut_params sp) /\
    Forall (fun m => rapid m = false) mids.
Proof.
  unfold generate_surface.
  destruct (bounds (mesh sp)) as [bb|]; [|left; reflexivity].
  destruct (build_rows (surface_rows sp bb) None (safe_z (cut_params sp))) as [tps pe] eqn:E.
  destruct (build_rows_none _ _ _ _ E) as [[-> ->] | (f & rest & q & H1 & H2 & H3 & H4 & ->)];
    [left; reflexivity|].
  right. assert (Hne : tps <> []) by (intros ->; discriminate).
  rewrite (final_retract_moves _ _ _ Hne), H1.
  exists f, rest. eexists. split; [reflexivity|].
  do 2 (split; [assumption|]). destruct q as [[px py] pz].
  split; [reflexivity|]. split; [reflexivity | exact H4].
Qed.

(** *** The chainer uses every segment once *)

Lemma length_set_nth {A} (l : list A) (i : nat) (v : A) : length (set_nth l i v) = length l.
Proof.
  revert i. induction l as [|h l IH]; intros [|i]; simpl; try reflexivity. rewrite IH. reflexivity.
Qed.

Lemma nth_set_nth {A} (l : list A) (i k : nat) (v d : A) :
  nth k (set_nth l i v) d = if Nat.eqb k i && Nat.ltb i (length l) then v else nth k l d.
Proof.
  revert i k. induction l as [|h l IH]; intros [|i] [|k]; simpl; rewrite ?andb_false_r;
    try reflexivity.
  rewrite IH. reflexivity.
Qed.

Lemma count_unused_set (l : list bool) (i : nat) :
  (i < length l)%nat -> nth i l false = false -> (count_unused (set_nth l i true) + 1 = count_unused l)%nat.
Proof.
  unfold count_unused. revert i. induction l as [|h l IH]; intros [|i] Hi Hn; simpl in *; try lia.
  - subst h. simpl. lia.
  - destruct h; simpl; [apply IH; [lia | exact Hn]|]. rewrite <- (IH i ltac:(lia) Hn). lia.
Qed.

Lemma set_nth_mono (l : list bool) (i k : nat) :
  nth k l false = true -> nth k (set_nth l i true) false = true.
Proof. rewrite nth_set_nth. destruct (_ && _); auto. Qed.

Lemma find_next_unused ss used j tail k p :
  length used = length ss ->
  find_next ss used j tail = Some (k, p) ->
  (j <= k)%nat /\ (k - j < length used)%nat /\ nth (k - j) used false = false.
Proof.
  revert used j. induction ss as [|s ss IH]; intros used j Hl H; [discriminate|].
  destruct used as [|u used]; [discriminate|]. simpl in Hl, H.
  assert (Hrec : find_next ss used (S j) tail = Some (k, p) ->
                 (j <= k)%nat /\ (k - j < S (length used))%nat /\ nth (k - j) (u :: used) false = false).
  { intro H'. destruct (IH used (S j) ltac:(lia) H') as (H1 & H2 & H3).
    replace (k - j)%nat with (S (k - S j)) by lia. simpl. split; [lia|]. split; [lia | exact H3]. }
  destruct u; [exact (Hrec H)|].
  destruct (dist_ltb (a s) tail chain_eps); [injection H as <- _; rewrite Nat.sub_diag; simpl; lia|].
  destruct (dist_ltb (b s) tail chain_eps); [injection H as <- _; rewrite Nat.sub_diag; simpl; lia|].
  exact (Hrec H).
Qed.

Lemma extend_chain_count fuel segs used chain :
  length used = length segs ->
  let '(used', chain') := extend_chain fuel segs used chain in
  exists ds, chain' = chain ++ ds /\ (count_unused used' + length ds = count_unused used)%nat /\
    length used' = length used /\ (forall i, nth i used false = true -> nth i used' false = true).
Proof.
  revert used chain. induction fuel as [|f IH]; intros used chain Hl; simpl.
  - exists []. rewrite app_nil_r. auto.
  - destruct (find_next segs used 0 (last chain origin2)) as [[j p]|] eqn:E;
      [|exists []; rewrite app_nil_r; auto].
    destruct (find_next_unused _ _ _ _ _ _ Hl E) as (_ & H2 & H3). rewrite Nat.sub_0_r in *.
    assert (Hl1 : length (set_nth used j true) = length segs) by (rewrite length_set_nth; exact Hl).
    specialize (IH (set_nth used j true) (chain ++ [p]) Hl1).
    destruct (extend_chain f segs (set_nth used j true) (chain ++ [p])) as [used' chain'].
    destruct IH as (ds & -> & Hc & Hlu & Hm).
    exists (p :: ds). rewrite <- app_assoc. split; [reflexivity|].
    pose proof (count_unused_set used j H2 H3).
    split; [simpl; lia|]. split; [rewrite Hlu, length_set_nth; reflexivity|].
    intros i Hi. apply Hm, set_nth_mono, Hi.
Qed.

Lemma finish_chain_count (chain : list Vec2) :
  (2 <= length chain)%nat ->
  seg_count (finish_chain chain) = (length chain - 1)%nat /\
  (2 <= length (points (finish_chain chain)))%nat.
Proof.
  intro H. unfold finish_chain, seg_count. cbn [points closed].
  destruct (Nat.ltb 2 (length chain) && _) eqn:E.
  - apply andb_true_iff in E as [E _]. apply Nat.ltb_lt in E.
    assert (Hne : chain <> []) by (intros ->; simpl in E; lia).
    pose proof (app_removelast_last origin2 Hne) as Hr.
    assert (Hlen : length chain = S (length (removelast chain)))
      by (rewrite Hr at 1; rewrite length_app; simpl; lia).
    lia.
  - lia.
Qed.

Lemma chain_loop_count segs idxs used :
  length used = length segs ->
  Forall (fun i => (i < length segs)%nat) idxs ->
  (forall i, (i < length used)%nat -> nth i used false = false -> In i idxs) ->
  list_sum (map seg_count (chain_loop segs idxs used)) = count_unused used /\
  Forall (fun pl => (2 <= length (points pl))%nat) (chain_loop segs idxs used).
Proof.
  revert used. induction idxs as [|i rest IH]; intros used Hl Hidx Hcov.
  - simpl. split; [|constructor].
    unfold count_unused. destruct (filter negb used) as [|u l] eqn:E; [reflexivity|].
    exfalso. assert (Hu : In u (filter negb used)) by (rewrite E; left; reflexivity).
    apply filter_In in Hu as [Hu Hn]. apply In_nth with (d := false) in Hu.
    destruct Hu as (k & Hk & Hnth). apply (Hcov k Hk). subst u. destruct (nth k used false);
      [discriminate | reflexivity].
  - inversion Hidx as [|? ? Hi Hrest]; subst. simpl.
    destruct (nth i used false) eqn:Eu.
    + apply IH; [exact Hl | exact Hrest|]. intros k Hk Hn. destruct (Hcov k Hk Hn) as [-> | H];
        [congruence | exact H].
    + assert (Hl1 : length (set_nth used i true) = length segs) by (rewrite length_set_nth; exact Hl).
      pose proof (extend_chain_count (length segs) segs _ [a (nth i segs seg_dummy); b (nth i segs seg_dummy)] Hl1) as Hx.
      destruct (extend_chain _ _ _ _) as [used' chain'] eqn:Ex.
      destruct Hx as (ds & -> & Hc & Hlu & Hm).
      assert (Hcov' : forall k, (k < length used')%nat -> nth k used' false = false -> In k rest).
      { intros k Hk Hn.
        assert (Hn1 : nth k (set_nth used i true) false = false)
          by (destruct (nth k (set_nth used i true) false) eqn:E1; [rewrite (Hm _ E1) in Hn; discriminate | reflexivity]).
        rewrite nth_set_nth in Hn1.
        destruct (Nat.eqb k i) eqn:Eki; simpl in Hn1.
        - apply Nat.eqb_eq in Eki. subst k. rewrite (proj2 (Nat.ltb_lt _ _)) in Hn1 by lia. discriminate.
        - apply Nat.eqb_neq in Eki. destruct (Hcov k ltac:(lia) Hn1) as [-> | H]; [lia | exact H]. }
      destruct (IH used' ltac:(lia) Hrest Hcov') as [H1 H2].
      destruct (finish_chain_count ([a (nth i segs seg_dummy); b (nth i segs seg_dummy)] ++ ds)
                  ltac:(simpl; lia)) as [H3 H4].
      pose proof (count_unused_set used i ltac:(lia) Eu).
      split; [|constructor; assumption].
      change (list_sum (map seg_count (?u :: ?l))) with (seg_count u + list_sum (map seg_count l))%nat. rewrite H3, H1. rewrite length_app in *. simpl in *. lia.
Qed.

(** *** Slice points lie in the mesh's footprint *)














(** X8.  The segment chainer neither loses nor reuses a segment: summing,
    over the polylines it returns, the number of edges (points minus one,
    plus the closing edge of a closed polyline) gives exactly the number of
    input segments; and every polyline has at least two points. *)
Theorem X8_chain_segments_conserves (segs : list Segment2) :
  list_sum (map seg_count (chain_segments segs)) = length segs /\
  Forall (fun pl => (2 <= length (points pl))%nat) (chain_segments segs).
Proof.
  assert (Hc : chain_segments segs =
               chain_loop segs (seq 0 (length segs)) (repeat false (length segs)))
    by (unfold chain_segments; destruct segs; reflexivity).
  rewrite Hc.
  assert (Hu : count_unused (repeat false (length segs)) = length segs).
  { unfold count_unused. clear Hc. induction (length segs) as [|n IH]; simpl; [reflexivity | rewrite IH; reflexivity]. }
  destruct (chain_loop_count segs (seq 0 (length segs)) (repeat false (length segs)))
    as [H1 H2].
  - apply repeat_length.
  - apply Forall_seq_lt.
  - intros i Hi _. rewrite repeat_length in Hi. apply in_seq. lia.
  - rewrite Hu in H1. split; assumption.
Qed.


(** *** Orchestration and output *)

Section Orchestration.
Local Open Scope string_scope.

Lemma string_append_assoc (s1 s2 s3 : String.string) :
  String.append s1 (String.append s2 s3) = String.append (String.append s1 s2) s3.
Proof. induction s1 as [|ch s1 IH]; simpl; [reflexivity | rewrite IH; reflexivity]. Qed.

(** X10.  [process_stl] (the G-code path) and [build_toolpaths_stl] (the
    preview and simulation path) compute the same toolpaths, except when the
    strategy is ["pocket"], ["slice"] or ["perimeter"] and the slice layers
    yield no toolpath: there [process_stl] returns none, while
    [build_toolpaths_stl] falls back to a single slice just above the
    mesh's lowest point. *)
Theorem X10_gcode_vs_preview_toolpaths (m : Mesh) (c : CamConfig) :
  process_stl_toolpaths m c =
    if existsb (String.eqb (cfg_strategy c)) no_fallback_names &&
       is_nil (run_layers (strategy_of (cfg_strategy c)) (slice_mesh m (cfg_step_down c))
                 (cut_params_of c))
    then [] else build_toolpaths_stl m c.
Proof.
  unfold process_stl_toolpaths, build_toolpaths_stl, strategy_of, no_fallback_names.
  cbn [existsb].
  destruct (String.eqb (cfg_strategy c) "pocket") eqn:E1,
           (String.eqb (cfg_strategy c) "slice") eqn:E2,
           (String.eqb (cfg_strategy c) "zigzag") eqn:E3,
           (String.eqb (cfg_strategy c) "perimeter") eqn:E4;
  cbn [orb andb];
  try (rewrite String.eqb_eq in *; congruence);
  match goal with
  | |- context [is_nil ?l] => destruct l; reflexivity
  | _ => reflexivity
  end.
Qed.

Lemma toolpath_blocks_app ff fu (p : GcodeParams) (i : nat) (l1 l2 : list Toolpath) :
  toolpath_blocks ff fu p i (l1 ++ l2) =
    String.append (toolpath_blocks ff fu p i l1) (toolpath_blocks ff fu p (i + length l1) l2).
Proof.
  revert i. induction l1 as [|t l1 IH]; intro i; cbn [app toolpath_blocks length].
  - rewrite Nat.add_0_r. reflexivity.
  - rewrite IH. replace (i + S (length l1))%nat with (S i + length l1)%nat by lia.
    rewrite <- !string_append_assoc. reflexivity.
Qed.

(** X11.  The G-code of a concatenation of toolpath lists is the header,
    the blocks of the first list numbered from 1, the blocks of the second
    list numbered on from [length first + 1], and the footer: each block is
    emitted independently of the toolpaths before it, apart from its
    number. *)
Theorem X11_emit_gcode_app ff fu (l1 l2 : list Toolpath) (p : GcodeParams) :
  emit_gcode ff fu (l1 ++ l2) p =
    String.append (gcode_header ff p)
      (String.append (toolpath_blocks ff fu p 0 l1)
        (String.append (toolpath_blocks ff fu p (length l1) l2) (gcode_footer ff p))).
Proof.
  unfold emit_gcode. rewrite toolpath_blocks_app, <- string_append_assoc. reflexivity.
Qed.

(** X12.  When [cut_depth >= 0.001] the depth loop of the SVG pipeline
    ([build_toolpaths_svg], and the same loop in [process_svg]) does not run
    at all: no toolpath is produced, whatever the polylines and the other
    settings. *)
Theorem X12_svg_nonnegative_depth_empty (pls : list Polyline) (c : CamConfig) :
  1 # 1000 <= cfg_cut_depth c -> build_toolpaths_svg pls c = [].
Proof.
  intro H. unfold build_toolpaths_svg, depth_fuel. cbn [depth_loop].
  assert (E : Qltb (cfg_cut_depth c - depth_tol) 0 = false).
  { unfold Qltb. apply negb_false_iff, Qle_bool_iff. unfold depth_tol. lra. }
  rewrite E. reflexivity.
Qed.

(** X13.  The tool built from a configuration has body diameter
    [tool_diameter] and flute length [10]; its effective cutting diameter is
    [effective_diameter] (or [tool_diameter] when that is absent) for
    ["face_mill"] and [tool_diameter] for every other tool type; a
    ["ball_end"] tool has corner radius [tool_diameter / 2]. *)
Theorem X13_tool_from_config_diameters (c : CamConfig) :
  diameter (tool_from_config c) = cfg_tool_diameter c /\
  flute_length (tool_from_config c) = 10 /\
  Tool_effective_diameter (tool_from_config c) =
    (if String.eqb (cfg_tool_type c) "face_mill"
     then match cfg_effective_diameter c with Some e => e | None => cfg_tool_diameter c end
     else cfg_tool_diameter c) /\
  (String.eqb (cfg_tool_type c) "ball_end" = true ->
     corner_radius (tool_from_config c) = cfg_tool_diameter c / 2).
Proof.
  unfold tool_from_config, Tool_effective_diameter.
  destruct (String.eqb (cfg_tool_type c) "ball_end") eqn:E1,
           (String.eqb (cfg_tool_type c) "face_mill") eqn:E2;
  try (rewrite String.eqb_eq in *; congruence);
  cbn; repeat split; try discriminate; reflexivity.
Qed.

End Orchestration.

(** *** Instances of the extra properties *)

Ltac qdec := vm_compute; first [reflexivity | discriminate | intro; discriminate].



Lemma X12_svg_nonnegative_depth_empty_witness :
  1 # 1000 <= cfg_cut_depth above_cfg /\ build_toolpaths_svg [square10] above_cfg = [].
Proof.
  split; [qdec|]. exact (X12_svg_nonnegative_depth_empty [square10] above_cfg ltac:(qdec)).
Defined.

(* ------------------------------------------------------------------ *)
(** *** The binary STL reader *)

Ltac nth_some :=
  repeat match goal with
  | |- context [nth_error ?d ?j] =>
      let H := fresh "Hn" in
      destruct (nth_error d j) eqn:H;
      [|apply nth_error_None in H; exfalso; lia]
  end.

Lemma read_f32_le_some f data off :
  (off + 4 <= length data)%nat -> exists v, read_f32_le f data off = Some v.
Proof. intro H. unfold read_f32_le. nth_some. eexists. reflexivity. Qed.

Lemma read_vec3_some f data off :
  (off + 12 <= length data)%nat -> exists v, read_vec3 f data off = Some v.
Proof.
  intro H. unfold read_vec3.
  destruct (read_f32_le_some f data off) as [a Ha]; [lia|].
  destruct (read_f32_le_some f data (off + 4)) as [b Hb]; [lia|].
  destruct (read_f32_le_some f data (off + 8)) as [c Hc]; [lia|].
  rewrite Ha, Hb, Hc. eexists. reflexivity.
Qed.

Lemma read_triangle_some f data base :
  (base + 48 <= length data)%nat -> exists t, read_triangle f data base = Some t.
Proof.
  intro H. unfold read_triangle.
  destruct (read_vec3_some f data base) as [a Ha]; [lia|].
  destruct (read_vec3_some f data (base + 12)) as [b Hb]; [lia|].
  destruct (read_vec3_some f data (base + 24)) as [c Hc]; [lia|].
  destruct (read_vec3_some f data (base + 36)) as [d Hd]; [lia|].
  rewrite Ha, Hb, Hc, Hd. eexists. reflexivity.
Qed.

Lemma nth_error_app_in {A} (l e : list A) (j : nat) :
  (j < length l)%nat -> nth_error (l ++ e) j = nth_error l j.
Proof. intro H. apply nth_error_app1. exact H. Qed.

Lemma read_f32_le_app f data e off :
  (off + 4 <= length data)%nat -> read_f32_le f (data ++ e) off = read_f32_le f data off.
Proof.
  intro H. unfold read_f32_le. rewrite !nth_error_app_in by lia. reflexivity.
Qed.

Lemma read_vec3_app f data e off :
  (off + 12 <= length data)%nat -> read_vec3 f (data ++ e) off = read_vec3 f data off.
Proof.
  intro H. unfold read_vec3. rewrite !read_f32_le_app by lia. reflexivity.
Qed.

Lemma read_triangle_app f data e base :
  (base + 48 <= length data)%nat -> read_triangle f (data ++ e) base = read_triangle f data base.
Proof.
  intro H. unfold read_triangle. rewrite !read_vec3_app by lia. reflexivity.
Qed.

Lemma read_triangles_spec f data i k :
  (84 + (i + k) * 50 <= length data)%nat ->
  exists ts, read_triangles f data i k = Some ts /\ length ts = k /\
    forall j, (j < k)%nat -> nth_error ts j = read_triangle f data (84 + (i + j) * 50).
Proof.
  revert i. induction k as [|k IH]; intros i H.
  - exists []. split; [reflexivity|]. split; [reflexivity|]. intros j Hj. lia.
  - destruct (read_triangle_some f data (84 + i * 50)) as [t Ht]; [lia|].
    destruct (IH (S i)) as [ts [E [L N]]]; [lia|].
    exists (t :: ts). cbn [read_triangles]. rewrite Ht, E.
    split; [reflexivity|]. split; [cbn; lia|].
    intros [|j] Hj.
    + rewrite Nat.add_0_r, Ht. reflexivity.
    + cbn [nth_error]. rewrite N by lia. f_equal. lia.
Qed.

Lemma read_triangles_app f data e i k :
  (84 + (i + k) * 50 <= length data)%nat ->
  read_triangles f (data ++ e) i k = read_triangles f data i k.
Proof.
  revert i. induction k as [|k IH]; intros i H; [reflexivity|].
  cbn [read_triangles]. rewrite read_triangle_app by lia. rewrite IH by lia. reflexivity.
Qed.

Lemma header_count_some data :
  (84 <= length data)%nat -> exists n, header_count data = Some n.
Proof. intro H. unfold header_count. nth_some. eexists. reflexivity. Qed.

Lemma header_count_app data e :
  (84 <= length data)%nat -> header_count (data ++ e) = header_count data.
Proof. intro H. unfold header_count. rewrite !nth_error_app_in by lia. reflexivity. Qed.

(** The outcome of [parse_binary_stl] in the model, where [usize] has 64
    bits: an error exactly on a file shorter than the 84-byte header or
    shorter than the [84 + 50 n] bytes its triangle count [n] announces, and
    otherwise a mesh of exactly [n] triangles, the [j]-th one read from the
    50-byte record at offset [84 + 50 j], with the bounds of [Mesh::new]. *)
Lemma parse_binary_stl_outcome f fu (data : list Byte.byte) :
  match parse_binary_stl f fu data with
  | StlOk m =>
      exists n, header_count data = Some n /\ (84 + n * 50 <= length data)%nat /\
        length (triangles m) = n /\
        bounds m = BoundingBox_from_triangles (triangles m) /\
        forall j, (j < n)%nat -> nth_error (triangles m) j = read_triangle f data (84 + j * 50)
  | StlErr _ =>
      (length data < 84)%nat \/
      exists n, header_count data = Some n /\ (length data < 84 + n * 50)%nat
  | StlPanic => False
  end.
Proof.
  unfold parse_binary_stl.
  destruct (Nat.ltb_spec (length data) 84) as [H84|H84]; [left; exact H84|].
  destruct (header_count_some data H84) as [n Hn]. rewrite Hn.
  destruct (Nat.ltb_spec (length data) (84 + n * 50)) as [Hl|Hl].
  - right. exists n. split; [reflexivity|exact Hl].
  - destruct (read_triangles_spec f data 0 n) as [ts [E [L N]]]; [exact Hl|].
    rewrite E. exists n. split; [reflexivity|]. split; [exact Hl|].
    split; [exact L|]. split; [reflexivity|].
    intros j Hj. apply N. exact Hj.
Qed.

(** X15.  Bytes after the last announced triangle are never read: a file
    that [parse_binary_stl] accepts gives the same mesh with anything
    appended to it. *)
Theorem X15_parse_binary_stl_trailing f fu (data extra : list Byte.byte) (m : Mesh) :
  parse_binary_stl f fu data = StlOk m -> parse_binary_stl f fu (data ++ extra) = StlOk m.
Proof.
  unfold parse_binary_stl. rewrite length_app.
  destruct (Nat.ltb_spec (length data) 84) as [H84|H84]; [discriminate|].
  destruct (Nat.ltb_spec (length data + length extra) 84); [lia|].
  rewrite header_count_app by exact H84.
  destruct (header_count data) as [n|]; [|discriminate].
  destruct (Nat.ltb_spec (length data) (84 + n * 50)) as [Hl|Hl]; [discriminate|].
  destruct (Nat.ltb_spec (length data + length extra) (84 + n * 50)); [lia|].
  rewrite read_triangles_app by exact Hl. exact (fun H => H).
Qed.

(** X16.  A file whose length is exactly the [84 + 50 n] bytes its
    triangle count [n] announces is read as binary STL, also when its
    header starts with "solid"; the mesh has [n] triangles. *)
Theorem X16_parse_stl_exact_size_binary f fu pa (data : list Byte.byte) (n : nat)
    (Hn : header_count data = Some n) (Hlen : length data = (84 + n * 50)%nat) :
  exists m, parse_stl f fu pa data = StlOk m /\ parse_binary_stl f fu data = StlOk m /\
    length (triangles m) = n.
Proof.
  assert (Hb : parse_stl f fu pa data = parse_binary_stl f fu data).
  { unfold parse_stl. destruct (Nat.ltb_spec (length data) 84); [lia|].
    destruct (starts_with data solid_bytes); [|reflexivity].
    rewrite Hn, Hlen, Nat.eqb_refl. reflexivity. }
  pose proof (parse_binary_stl_outcome f fu data) as H.
  destruct (parse_binary_stl f fu data) as [m|msg|]; [|destruct H as [H|[n' [Hn' H]]]|contradiction].
  - destruct H as [n' [Hn' [_ [L _]]]]. rewrite Hn in Hn'. injection Hn' as <-.
    exists m. split; [exact Hb|]. split; [reflexivity|exact L].
  - lia.
  - rewrite Hn in Hn'. injection Hn' as <-. lia.
Qed.

(* ------------------------------------------------------------------ *)
(** *** The path-data tokenizer *)

Ltac zbool :=
  repeat (match goal with
          | |- context [Z.leb ?a ?b] => destruct (Z.leb_spec a b); try (exfalso; lia)
          | |- context [Z.eqb ?a ?b] => destruct (Z.eqb_spec a b); try (exfalso; lia)
          end; cbn [andb orb]).

Lemma alpha_not_sep (c : Z) : is_ascii_alphabetic c = true -> is_sep c = false.
Proof.
  unfold is_ascii_alphabetic. intro H.
  apply Bool.orb_true_iff in H. rewrite !Bool.andb_true_iff, !Z.leb_le in H.
  unfold is_sep, is_whitespace. destruct H as [[H1 H2]|[H1 H2]]; zbool; reflexivity.
Qed.

Lemma dash_not_sep : is_sep 45 = false /\ is_ascii_alphabetic 45 = false.
Proof. split; reflexivity. Qed.

(** What a token may hold: no separator, and an ASCII letter only as a
    token of its own; a ['-'] only at the start or after an exponent
    marker. *)
Definition tok_char (c : Z) : Prop := is_sep c = false /\ is_ascii_alphabetic c = false.

Definition dash_ok (t : list Z) : Prop :=
  forall pre post, t = pre ++ 45%Z :: post ->
    pre = [] \/ ends_with pre 101 = true \/ ends_with pre 69 = true.

Definition good_token (t : list Z) : Prop :=
  t <> [] /\ Forall (fun c => is_sep c = false) t /\
  (forall c, In c t -> is_ascii_alphabetic c = true -> t = [c]) /\ dash_ok t.

Lemma flush_concat (buf : list Z) : concat (flush buf) = buf.
Proof. destruct buf; [reflexivity|apply app_nil_r]. Qed.

Lemma tokenize_from_concat (buf cs : list Z) :
  Forall (fun c => is_sep c = false) buf ->
  concat (tokenize_from buf cs) = buf ++ filter (fun c => negb (is_sep c)) cs.
Proof.
  revert buf. induction cs as [|ch cs IH]; intros buf Hb; cbn [tokenize_from filter].
  - rewrite flush_concat, app_nil_r. reflexivity.
  - destruct (is_ascii_alphabetic ch) eqn:Ha.
    + rewrite (alpha_not_sep ch Ha). cbn [negb].
      rewrite concat_app, flush_concat. cbn [concat].
      rewrite IH by constructor. reflexivity.
    + destruct (is_sep ch) eqn:Hs; cbn [negb].
      * rewrite concat_app, flush_concat, IH by constructor. reflexivity.
      * destruct (Z.eqb ch 45 && _ && _ && _).
        -- cbn [concat]. rewrite IH by (constructor; [exact Hs|constructor]).
           reflexivity.
        -- rewrite IH by (apply Forall_app; split; [exact Hb|constructor; [exact Hs|constructor]]).
           rewrite <- app_assoc. reflexivity.
Qed.

Lemma ends_with_app (l : list Z) (c e : Z) : ends_with (l ++ [c]) e = Z.eqb c e.
Proof. unfold ends_with. rewrite rev_app_distr. reflexivity. Qed.

Lemma dash_ok_snoc (buf : list Z) (ch : Z) :
  dash_ok buf ->
  (ch <> 45%Z \/ buf = [] \/ ends_with buf 101 = true \/ ends_with buf 69 = true) ->
  dash_ok (buf ++ [ch]).
Proof.
  intros Hd Hc pre post E.
  destruct post as [|q post'] using rev_ind.
  - apply app_inj_tail in E. destruct E as [-> ->].
    destruct Hc as [Hc|Hc]; [contradiction Hc; reflexivity|exact Hc].
  - rewrite app_comm_cons, app_assoc in E. apply app_inj_tail in E.
    destruct E as [E _]. exact (Hd pre post' E).
Qed.

Lemma dash_ok_nil : dash_ok [].
Proof. intros pre post E. destruct pre; discriminate. Qed.

Lemma dash_ok_single (c : Z) : dash_ok [c].
Proof.
  intros pre post E. destruct pre as [|a pre]; [left; reflexivity|].
  destruct pre; discriminate.
Qed.

Lemma flush_good (buf : list Z) :
  Forall tok_char buf -> dash_ok buf -> Forall good_token (flush buf).
Proof.
  intros Hb Hd. unfold flush. destruct buf as [|c0 buf0]; [constructor|].
  cbn [is_nil]. constructor; [|constructor].
  split; [discriminate|]. split.
  - eapply Forall_impl; [|exact Hb]. intros a [Ha _]. exact Ha.
  - split; [|exact Hd]. intros a Ha Hal.
    rewrite Forall_forall in Hb. destruct (Hb a Ha) as [_ Hn]. congruence.
Qed.

Lemma tokenize_from_good (buf cs : list Z) :
  Forall tok_char buf -> dash_ok buf -> Forall good_token (tokenize_from buf cs).
Proof.
  revert buf. induction cs as [|ch cs IH]; intros buf Hb Hd; cbn [tokenize_from].
  - apply flush_good; assumption.
  - destruct (is_ascii_alphabetic ch) eqn:Ha.
    + apply Forall_app. split; [apply flush_good; assumption|].
      constructor; [|apply IH; [constructor|exact dash_ok_nil]].
      split; [discriminate|]. split; [constructor; [apply alpha_not_sep; exact Ha|constructor]|].
      split; [|apply dash_ok_single].
      intros c [<-|[]] _. reflexivity.
    + destruct (is_sep ch) eqn:Hs.
      * apply Forall_app. split; [apply flush_good; assumption|].
        apply IH; [constructor|exact dash_ok_nil].
      * destruct (Z.eqb ch 45 && negb (is_nil buf) && negb (ends_with buf 101)
                  && negb (ends_with buf 69)) eqn:Hm.
        -- rewrite !Bool.andb_true_iff in Hm. destruct Hm as [[[H45 Hnil] _] _].
           constructor.
           ++ destruct buf as [|c0 buf']; [discriminate Hnil|].
              apply flush_good in Hd; [|exact Hb]. inversion Hd. assumption.
           ++ apply IH; [constructor; [split; assumption|constructor]|apply dash_ok_single].
        -- apply IH.
           ++ apply Forall_app. split; [exact Hb|constructor; [split; assumption|constructor]].
           ++ apply dash_ok_snoc; [exact Hd|].
              destruct (Z.eqb_spec ch 45) as [E|E]; [right|left; exact E].
              destruct buf as [|c0 buf']; [left; reflexivity|right].
              cbn [is_nil negb andb] in Hm.
              destruct (ends_with (c0 :: buf') 101); [left; reflexivity|].
              destruct (ends_with (c0 :: buf') 69); [right; reflexivity|discriminate Hm].
Qed.

(** X18.  [tokenize_d] splits the path data without losing or inventing a
    character: the tokens, put back together, are the input without its
    separators ([','] and white space).  Every token is non-empty and free
    of separators, an ASCII letter is always a token of its own, and a
    ['-'] sits only at the start of a token or right after an exponent
    marker ['e'] or ['E']. *)
Theorem X18_tokenize_d_round_trip (d : list Z) :
  concat (tokenize_d d) = filter (fun c => negb (is_sep c)) d /\
  Forall (fun t => t <> [] /\ Forall (fun c => is_sep c = false) t /\
                   (forall c, In c t -> is_ascii_alphabetic c = true -> t = [c]) /\
                   forall pre post, t = pre ++ 45%Z :: post ->
                     pre = [] \/ ends_with pre 101 = true \/ ends_with pre 69 = true)
    (tokenize_d d).
Proof.
  split.
  - unfold tokenize_d. rewrite tokenize_from_concat by constructor. reflexivity.
  - exact (tokenize_from_good [] d (Forall_nil _) dash_ok_nil).
Qed.

(* ------------------------------------------------------------------ *)
(** *** The [points] attribute *)

Lemma split_fields_concat (cur cs : list Z) :
  concat (split_fields cur cs) = cur ++ filter (fun c => negb (is_sep c)) cs.
Proof.
  revert cur. induction cs as [|c cs IH]; intro cur; cbn [split_fields filter].
  - cbn. rewrite !app_nil_r. reflexivity.
  - destruct (is_sep c); cbn [negb concat].
    + rewrite IH. reflexivity.
    + rewrite IH, <- app_assoc. reflexivity.
Qed.

Lemma split_fields_no_sep (cur cs : list Z) :
  Forall (fun c => is_sep c = false) cur ->
  Forall (Forall (fun c => is_sep c = false)) (split_fields cur cs).
Proof.
  revert cur. induction cs as [|c cs IH]; intros cur H; cbn [split_fields].
  - constructor; [exact H|constructor].
  - destruct (is_sep c) eqn:Hs.
    + constructor; [exact H|apply IH; constructor].
    + apply IH. apply Forall_app. split; [exact H|constructor; [exact Hs|constructor]].
Qed.

Lemma concat_filter_nonempty (fs : list (list Z)) :
  concat (filter (fun f => negb (is_nil f)) fs) = concat fs.
Proof.
  induction fs as [|f fs IH]; [reflexivity|].
  destruct f; cbn; [exact IH|]. rewrite IH. reflexivity.
Qed.

Lemma parse_all_spec pf (fs : list (list Z)) :
  match parse_all pf fs with
  | Some vs => Forall2 (fun f v => pf f = Some v) fs vs
  | None => exists f, In f fs /\ pf f = None
  end.
Proof.
  induction fs as [|f fs IH]; cbn [parse_all]; [constructor|].
  destruct (pf f) as [v|] eqn:Hf; [|exists f; split; [left; reflexivity|exact Hf]].
  destruct (parse_all pf fs) as [vs|].
  - constructor; assumption.
  - destruct IH as [g [Hg Hp]]. exists g. split; [right; exact Hg|exact Hp].
Qed.

Lemma coords_pairs (l : list Q) : Nat.even (length l) = true -> coords (pairs l) = l.
Proof.
  assert (H : forall k : list Q,
            (Nat.even (length k) = true -> coords (pairs k) = k) /\
            (forall a, Nat.even (length (a :: k)) = true -> coords (pairs (a :: k)) = a :: k)).
  { induction k as [|b t [IH1 IH2]]; split.
    - reflexivity.
    - intros a H. discriminate H.
    - intro H. apply IH2. exact H.
    - intros a H. cbn [pairs coords flat_map]. cbn [x y app].
      f_equal. f_equal. apply IH1. exact H. }
  exact (proj1 (H l)).
Qed.

(** X19.  [parse_points_attr] reads every number of the attribute, in
    order: the fields are the input's non-separator characters cut at the
    separators, none empty; the call fails exactly when a field is not a
    number or the count of fields is odd, and otherwise the coordinates of
    the points it returns, read [x, y, x, y, ...], are the fields' values. *)
Theorem X19_parse_points_attr_round_trip pf (s : list Z) :
  let fields := filter (fun f => negb (is_nil f)) (split_fields [] s) in
  concat fields = filter (fun c => negb (is_sep c)) s /\
  Forall (fun f => f <> [] /\ Forall (fun c => is_sep c = false) f) fields /\
  match parse_points_attr pf s with
  | inr pts => Forall2 (fun f v => pf f = Some v) fields (coords pts)
  | inl _ => (exists f, In f fields /\ pf f = None) \/ Nat.odd (length fields) = true
  end.
Proof.
  intro fields. split; [|split].
  - unfold fields. rewrite concat_filter_nonempty, split_fields_concat. reflexivity.
  - unfold fields. apply Forall_forall. intros f Hf.
    apply filter_In in Hf. destruct Hf as [Hf Hn].
    split; [destruct f; [discriminate Hn|discriminate]|].
    pose proof (split_fields_no_sep [] s (Forall_nil _)) as H.
    rewrite Forall_forall in H. exact (H f Hf).
  - unfold parse_points_attr. fold fields.
    pose proof (parse_all_spec pf fields) as H.
    destruct (parse_all pf fields) as [nums|]; [|left; exact H].
    pose proof (Forall2_length H) as L.
    destruct (Nat.even (length nums)) eqn:He; cbn [negb].
    + rewrite coords_pairs by exact He. exact H.
    + right. rewrite L, <- Nat.negb_even, He. reflexivity.
Qed.

(* ------------------------------------------------------------------ *)
(** *** The Bezier subdivisions *)





(* ------------------------------------------------------------------ *)
(** *** The path-data reader *)

Lemma lineto_loop_run pf rd fuel rel cur pts toks nums rest :
  Forall2 (fun t v => pf t = Some v) toks nums -> Nat.even (length nums) = true ->
  (length toks <= fuel)%nat -> next_is_number pf rest = false ->
  exists c', lineto_loop pf rd fuel rel cur pts (toks ++ rest) =
    inr (c', pts ++ (if rel then cumulative cur (pairs nums) else pairs nums), rest).
Proof.
  revert cur pts toks nums.
  induction fuel as [|fuel IH]; intros cur pts toks nums Hn He Hf Hr.
  - destruct toks; [|cbn in Hf; lia]. inversion Hn; subst.
    exists cur. destruct rel; cbn; rewrite app_nil_r; reflexivity.
  - destruct toks as [|t1 [|t2 toks]].
    + inversion Hn; subst. exists cur. cbn [app lineto_loop]. rewrite Hr.
      destruct rel; cbn; rewrite app_nil_r; reflexivity.
    + inversion Hn as [|? v1 ? nums' H1 H2]; subst. inversion H2; subst. discriminate He.
    + inversion Hn as [|? v1 ? nums1 H1 H2]; subst.
      inversion H2 as [|? v2 ? nums' H3 H4]; subst.
      cbn [length Nat.even] in He. cbn [length] in Hf.
      destruct (IH (rel_to rel cur v1 v2) (pts ++ [rel_to rel cur v1 v2]) toks nums' H4 He
                  ltac:(lia) Hr) as [c' E].
      exists c'. cbn [app lineto_loop next_is_number].
      unfold is_number, read_pair, read_one. rewrite H1, H3.
      fold (read_one pf rd). rewrite E. rewrite <- app_assoc.
      destruct rel; reflexivity.
Qed.

(** X22.  A path made of one move-to and its implicit line-to pairs,
    ["M x0 y0 x1 y1 ..."], gives the pairs of numbers as its points, in
    order; with ["m"] each pair is added to the point before it, starting
    from the origin; a trailing ["Z"] only sets [closed]. *)
Theorem X22_parse_path_polyline pf rd (toks : list (list Z)) (nums : list Q) (rel : bool)
    (Hn : Forall2 (fun t v => pf t = Some v) toks nums)
    (H2 : (2 <= length nums)%nat) (He : Nat.even (length nums) = true)
    (Hz : pf [90%Z] = None) :
  let cmd := if rel then [109%Z] else [77%Z] in
  let pts := if rel then cumulative origin2 (pairs nums) else pairs nums in
  parse_path_tokens pf rd (cmd :: toks) = inr (mkPolyline pts false) /\
  parse_path_tokens pf rd (cmd :: toks ++ [[90%Z]]) = inr (mkPolyline pts true).
Proof.
  intros cmd pts.
  destruct toks as [|t1 [|t2 toks]];
    [inversion Hn; subst; cbn in H2; lia|inversion Hn as [|? ? ? ? ? H']; subst;
       inversion H'; subst; cbn in H2; lia|].
  inversion Hn as [|? v1 ? nums1 E1 Hn1]; subst.
  inversion Hn1 as [|? v2 ? nums' E2 Hn']; subst.
  cbn [length Nat.even] in He.
  assert (Hrn : next_is_number pf [] = false) by reflexivity.
  assert (Hrz : next_is_number pf [[90%Z]] = false) by (cbn; unfold is_number; rewrite Hz; reflexivity).
  destruct (lineto_loop_run pf rd (length (toks ++ [])) rel (rel_to rel origin2 v1 v2)
              [rel_to rel origin2 v1 v2] toks nums' [] Hn' He
              ltac:(rewrite length_app; lia) Hrn) as [c1 L1].
  rewrite app_nil_r in L1.
  destruct (lineto_loop_run pf rd (length (toks ++ [[90%Z]])) rel (rel_to rel origin2 v1 v2)
              [rel_to rel origin2 v1 v2] toks nums' [[90%Z]] Hn' He
              ltac:(rewrite length_app; lia) Hrz) as [c2 L2].
  unfold cmd, pts, parse_path_tokens. split.
  - destruct rel.
    + cbn [app length path_loop tok_is Z.eqb orb read_pair read_one Pos.eqb].
      unfold read_pair, read_one. rewrite E1, E2. rewrite L1.
      destruct (length toks); reflexivity.
    + cbn [app length path_loop tok_is Z.eqb orb read_pair read_one Pos.eqb].
      unfold read_pair, read_one. rewrite E1, E2. rewrite L1.
      destruct (length toks); reflexivity.
  - destruct rel.
    + cbn [app length path_loop tok_is Z.eqb orb read_pair read_one Pos.eqb].
      unfold read_pair, read_one. rewrite E1, E2. rewrite L2. cbn. destruct (length (toks ++ [[90%Z]])); reflexivity.
    + cbn [app length path_loop tok_is Z.eqb orb read_pair read_one Pos.eqb].
      unfold read_pair, read_one. rewrite E1, E2. rewrite L2. cbn. destruct (length (toks ++ [[90%Z]])); reflexivity.
Qed.





(* ------------------------------------------------------------------ *)
(** *** The 2-D bounding box is tight *)

Lemma fold_fmin {A} (f : A -> Q) (l : list A) (u : Q) :
  let m := fold_left (fun acc p => fmin acc (f p)) l u in
  m <= u /\ (forall p, In p l -> m <= f p) /\ (m == u \/ exists p, In p l /\ m == f p).
Proof.
  revert u. induction l as [|p l IH]; intro u; cbn [fold_left].
  - split; [apply Qle_refl|]. split; [intros _ []|left; apply Qeq_refl].
  - destruct (IH (fmin u (f p))) as [H1 [H2 H3]].
    pose proof (fmin_le_l u (f p)). pose proof (fmin_le_r u (f p)).
    split; [eapply Qle_trans; eassumption|]. split.
    + intros q [<-|Hq]; [eapply Qle_trans; eassumption|exact (H2 q Hq)].
    + destruct H3 as [H3|[q [Hq H3]]]; [|right; exists q; split; [right; exact Hq|exact H3]].
      assert (Hc : fmin u (f p) = u \/ fmin u (f p) = f p)
        by (unfold fmin; destruct (Qle_bool _ _); auto).
      destruct Hc as [Hc|Hc]; rewrite Hc in H3 |- *; [left; exact H3|].
      right. exists p. split; [left; reflexivity|exact H3].
Qed.

Lemma fold_fmax {A} (f : A -> Q) (l : list A) (u : Q) :
  let m := fold_left (fun acc p => fmax acc (f p)) l u in
  u <= m /\ (forall p, In p l -> f p <= m) /\ (m == u \/ exists p, In p l /\ m == f p).
Proof.
  revert u. induction l as [|p l IH]; intro u; cbn [fold_left].
  - split; [apply Qle_refl|]. split; [intros _ []|left; apply Qeq_refl].
  - destruct (IH (fmax u (f p))) as [H1 [H2 H3]].
    pose proof (fmax_ge_l u (f p)). pose proof (fmax_ge_r u (f p)).
    split; [eapply Qle_trans; eassumption|]. split.
    + intros q [<-|Hq]; [eapply Qle_trans; eassumption|exact (H2 q Hq)].
    + destruct H3 as [H3|[q [Hq H3]]]; [|right; exists q; split; [right; exact Hq|exact H3]].
      assert (Hc : fmax u (f p) = u \/ fmax u (f p) = f p)
        by (unfold fmax; destruct (Qle_bool _ _); auto).
      destruct Hc as [Hc|Hc]; rewrite Hc in H3 |- *; [left; exact H3|].
      right. exists p. split; [left; reflexivity|exact H3].
Qed.

Lemma bb2_fold_proj (pts : list Vec2) (mn mx : Vec2) :
  let '(mn', mx') := fold_left bb2_step pts (mn, mx) in
  x mn' = fold_left (fun acc p => fmin acc (x p)) pts (x mn) /\
  y mn' = fold_left (fun acc p => fmin acc (y p)) pts (y mn) /\
  x mx' = fold_left (fun acc p => fmax acc (x p)) pts (x mx) /\
  y mx' = fold_left (fun acc p => fmax acc (y p)) pts (y mx).
Proof.
  revert mn mx. induction pts as [|p pts IH]; intros mn mx; [repeat split|].
  cbn [fold_left bb2_step]. exact (IH _ _).
Qed.

(** The least of the values [f p], for a non-empty list whose values lie
    below the start value, is reached. *)
Lemma fold_fmin_reached {A} (f : A -> Q) (l : list A) (u : Q) :
  l <> [] -> Forall (fun p => f p <= u) l ->
  exists p, In p l /\ fold_left (fun acc p => fmin acc (f p)) l u == f p.
Proof.
  intros Hl Hu. destruct (fold_fmin f l u) as [H1 [H2 [H3|H3]]]; [|exact H3].
  destruct l as [|p l]; [contradiction Hl; reflexivity|].
  exists p. split; [left; reflexivity|].
  pose proof (H2 p (or_introl eq_refl)). pose proof (Forall_inv Hu). cbn beta in *. lra.
Qed.

Lemma fold_fmax_reached {A} (f : A -> Q) (l : list A) (u : Q) :
  l <> [] -> Forall (fun p => u <= f p) l ->
  exists p, In p l /\ fold_left (fun acc p => fmax acc (f p)) l u == f p.
Proof.
  intros Hl Hu. destruct (fold_fmax f l u) as [H1 [H2 [H3|H3]]]; [|exact H3].
  destruct l as [|p l]; [contradiction Hl; reflexivity|].
  exists p. split; [left; reflexivity|].
  pose proof (H2 p (or_introl eq_refl)). pose proof (Forall_inv Hu). cbn beta in *. lra.
Qed.

(** X24.  [BoundingBox2::from_points] gives the smallest box: when every
    coordinate is a finite [f64] (between [f64::MIN] and [f64::MAX]), each
    point lies in the box and each of its four sides is reached by a
    point. *)
Theorem X24_bounds2_tight (pts : list Vec2) (bb : BoundingBox2)
    (Hb : BoundingBox2_from_points pts = Some bb)
    (Hf : Forall (fun p => f64_MIN <= x p <= f64_MAX /\ f64_MIN <= y p <= f64_MAX) pts) :
  (forall p, In p pts -> x (bmin2 bb) <= x p <= x (bmax2 bb) /\ y (bmin2 bb) <= y p <= y (bmax2 bb)) /\
  (exists p, In p pts /\ x (bmin2 bb) == x p) /\ (exists p, In p pts /\ y (bmin2 bb) == y p) /\
  (exists p, In p pts /\ x (bmax2 bb) == x p) /\ (exists p, In p pts /\ y (bmax2 bb) == y p).
Proof.
  unfold BoundingBox2_from_points in Hb.
  destruct pts as [|p0 ps] eqn:Ep; [discriminate|]. rewrite <- Ep in *.
  assert (Hne : pts <> []) by (rewrite Ep; discriminate).
  pose proof (bb2_fold_proj pts (mkVec2 f64_MAX f64_MAX) (mkVec2 f64_MIN f64_MIN)) as P.
  destruct (fold_left bb2_step pts _) as [mn mx]. injection Hb as <-. cbn [bmin2 bmax2].
  cbn [x y] in P. destruct P as [Px [Py [Qx Qy]]].
  rewrite Px, Py, Qx, Qy.
  split; [|split; [|split; [|split]]].
  - intros p Hp. destruct (fold_fmin x pts f64_MAX) as [_ [A1 _]].
    destruct (fold_fmin y pts f64_MAX) as [_ [A2 _]].
    destruct (fold_fmax x pts f64_MIN) as [_ [A3 _]].
    destruct (fold_fmax y pts f64_MIN) as [_ [A4 _]].
    split; split; auto.
  - apply fold_fmin_reached; [exact Hne|]. eapply Forall_impl; [|exact Hf]. intros p H; apply H.
  - apply fold_fmin_reached; [exact Hne|]. eapply Forall_impl; [|exact Hf]. intros p H; apply H.
  - apply fold_fmax_reached; [exact Hne|]. eapply Forall_impl; [|exact Hf]. intros p H; apply H.
  - apply fold_fmax_reached; [exact Hne|]. eapply Forall_impl; [|exact Hf]. intros p H; apply H.
Qed.

(* ------------------------------------------------------------------ *)
(** *** Attribute lookup *)

Lemma is_prefix_app (p r : list Z) : is_prefix p (p ++ r) = true.
Proof. induction p as [|c p IH]; [reflexivity|]. cbn. rewrite Z.eqb_refl. exact IH. Qed.

Lemma is_prefix_app_long (p l1 l2 : list Z) :
  (length p <= length l1)%nat -> is_prefix p (l1 ++ l2) = is_prefix p l1.
Proof.
  revert l1. induction p as [|c p IH]; intros l1 H; [destruct l1; reflexivity|].
  destruct l1 as [|d l1]; [cbn in H; lia|]. cbn. rewrite IH by (cbn in H; lia). reflexivity.
Qed.

Lemma find_sub_at (pat pre rest : list Z) :
  (forall i, (i < length pre)%nat -> is_prefix pat (skipn i (pre ++ pat)) = false) ->
  find_sub pat (pre ++ pat ++ rest) = Some (length pre).
Proof.
  induction pre as [|c pre IH]; intro H.
  - destruct pat as [|c pat]; [destruct rest; reflexivity|].
    cbn [app find_sub is_prefix]. rewrite Z.eqb_refl, is_prefix_app. reflexivity.
  - cbn [app find_sub length].
    pose proof (H O ltac:(cbn; lia)) as H0. cbn [skipn app] in H0.
    rewrite app_comm_cons, app_assoc, is_prefix_app_long, <- app_comm_cons, H0
      by (cbn; rewrite length_app; lia).
    rewrite IH; [reflexivity|]. intros i Hi. exact (H (S i) ltac:(cbn; lia)).
Qed.

Lemma skipn_length_app {A} (l r : list A) : skipn (length l) (l ++ r) = r.
Proof. induction l as [|c l IH]; [reflexivity|]. exact IH. Qed.

Lemma find_sub_quote (q : Z) (v post : list Z) :
  ~ In q v -> find_sub [q] (v ++ q :: post) = Some (length v).
Proof.
  induction v as [|c v IH]; intro H.
  - cbn. rewrite Z.eqb_refl. reflexivity.
  - cbn [app find_sub is_prefix length].
    destruct (Z.eqb_spec q c) as [->|Hc]; [contradiction H; left; reflexivity|].
    cbn [andb]. rewrite IH; [reflexivity|]. intro Hv. apply H. right. exact Hv.
Qed.

(** X25.  [extract_attr] returns the text between the first [name=] followed
    by a double quote in the tag and the next double quote.  The match is not anchored at the
    start of an attribute name: any earlier attribute whose name ends in
    [name] (such as [rx] for [x]) is the one read. *)
Theorem X25_extract_attr_first_match (pre name v post : list Z)
    (Hpre : forall i, (i < length pre)%nat ->
              is_prefix (name ++ [61%Z; 34%Z]) (skipn i (pre ++ name ++ [61%Z; 34%Z])) = false)
    (Hv : ~ In 34%Z v) :
  extract_attr (pre ++ name ++ [61%Z; 34%Z] ++ v ++ 34%Z :: post) name = Some v.
Proof.
  unfold extract_attr, extract_quoted. cbv zeta.
  replace (pre ++ name ++ [61%Z; 34%Z] ++ v ++ 34%Z :: post)
    with (pre ++ (name ++ [61%Z; 34%Z]) ++ v ++ 34%Z :: post) by (rewrite <- app_assoc; reflexivity).
  rewrite (find_sub_at (name ++ [61%Z; 34%Z]) pre (v ++ 34%Z :: post) Hpre).
  replace (length pre + length (name ++ [61%Z; 34%Z]))%nat
    with (length (pre ++ name ++ [61%Z; 34%Z])) by (rewrite length_app; reflexivity).
  rewrite (app_assoc pre (name ++ [61%Z; 34%Z]) (v ++ 34%Z :: post)), skipn_length_app,
    find_sub_quote by exact Hv.
  rewrite firstn_app, firstn_all, Nat.sub_diag. cbn [firstn]. rewrite app_nil_r. reflexivity.
Qed.

(* ------------------------------------------------------------------ *)
(** *** Instances of the reader properties *)

Lemma X15_parse_binary_stl_trailing_witness :
  exists m,
    parse_binary_stl inject_Z (fun _ => String.EmptyString) stl_sample = StlOk m /\
    parse_binary_stl inject_Z (fun _ => String.EmptyString) (stl_sample ++ [Byte.x2a]) = StlOk m.
Proof.
  destruct (parse_binary_stl inject_Z (fun _ => String.EmptyString) stl_sample) as [m|e|] eqn:E;
    [|vm_compute in E; discriminate|vm_compute in E; discriminate].
  exists m. split; [reflexivity|].
  exact (X15_parse_binary_stl_trailing inject_Z (fun _ => String.EmptyString) stl_sample [Byte.x2a] m E).
Defined.

Lemma X16_parse_stl_exact_size_binary_witness :
  header_count stl_sample = Some 1%nat /\ length stl_sample = (84 + 1 * 50)%nat /\
  exists m,
    parse_stl inject_Z (fun _ => String.EmptyString) (fun _ => StlErr String.EmptyString) stl_sample = StlOk m /\
    parse_binary_stl inject_Z (fun _ => String.EmptyString) stl_sample = StlOk m /\
    length (triangles m) = 1%nat.
Proof.
  split; [vm_compute; reflexivity|]. split; [vm_compute; reflexivity|].
  exact (X16_parse_stl_exact_size_binary inject_Z (fun _ => String.EmptyString)
           (fun _ => StlErr String.EmptyString) stl_sample 1
           ltac:(vm_compute; reflexivity) ltac:(vm_compute; reflexivity)).
Defined.

Lemma X22_parse_path_polyline_witness :
  Forall2 (fun t v => digit_value t = Some v) [[49%Z]; [50%Z]; [51%Z]; [52%Z]]
    [inject_Z 1; inject_Z 2; inject_Z 3; inject_Z 4] /\
  (2 <= length [inject_Z 1; inject_Z 2; inject_Z 3; inject_Z 4])%nat /\
  Nat.even (length [inject_Z 1; inject_Z 2; inject_Z 3; inject_Z 4]) = true /\
  digit_value [90%Z] = None /\
  (let cmd := if true then [109%Z] else [77%Z] in
   let pts := if true then cumulative origin2 (pairs [inject_Z 1; inject_Z 2; inject_Z 3; inject_Z 4])
              else pairs [inject_Z 1; inject_Z 2; inject_Z 3; inject_Z 4] in
   parse_path_tokens digit_value (fun _ => String.EmptyString) (cmd :: [[49%Z]; [50%Z]; [51%Z]; [52%Z]])
     = inr (mkPolyline pts false) /\
   parse_path_tokens digit_value (fun _ => String.EmptyString)
     (cmd :: [[49%Z]; [50%Z]; [51%Z]; [52%Z]] ++ [[90%Z]]) = inr (mkPolyline pts true)).
Proof.
  assert (Hn : Forall2 (fun t v => digit_value t = Some v) [[49%Z]; [50%Z]; [51%Z]; [52%Z]]
                 [inject_Z 1; inject_Z 2; inject_Z 3; inject_Z 4]) by (repeat constructor).
  split; [exact Hn|]. split; [vm_compute; lia|]. split; [reflexivity|]. split; [reflexivity|].
  exact (X22_parse_path_polyline digit_value (fun _ => String.EmptyString) _ _ true Hn
           ltac:(vm_compute; lia) eq_refl eq_refl).
Defined.


Lemma X24_bounds2_tight_witness :
  exists bb, BoundingBox2_from_points (points square10) = Some bb /\
  Forall (fun p => f64_MIN <= x p <= f64_MAX /\ f64_MIN <= y p <= f64_MAX) (points square10) /\
  (forall p, In p (points square10) ->
     x (bmin2 bb) <= x p <= x (bmax2 bb) /\ y (bmin2 bb) <= y p <= y (bmax2 bb)) /\
  (exists p, In p (points square10) /\ x (bmin2 bb) == x p) /\
  (exists p, In p (points square10) /\ y (bmin2 bb) == y p) /\
  (exists p, In p (points square10) /\ x (bmax2 bb) == x p) /\
  (exists p, In p (points square10) /\ y (bmax2 bb) == y p).
Proof.
  destruct (BoundingBox2_from_points (points square10)) as [bb|] eqn:E;
    [|vm_compute in E; discriminate].
  assert (Hf : Forall (fun p => f64_MIN <= x p <= f64_MAX /\ f64_MIN <= y p <= f64_MAX)
                 (points square10)).
  { apply Forall_forall. intros p Hp. vm_compute in Hp.
    repeat (destruct Hp as [<-|Hp]; [vm_compute; repeat split; discriminate|]). destruct Hp. }
  exists bb. split; [reflexivity|]. split; [exact Hf|].
  exact (X24_bounds2_tight (points square10) bb E Hf).
Defined.

Lemma X25_extract_attr_first_match_witness :
  (forall i, (i < length rect_tag_pre)%nat ->
     is_prefix (attr_x ++ [61%Z; 34%Z]) (skipn i (rect_tag_pre ++ attr_x ++ [61%Z; 34%Z])) = false) /\
  ~ In 34%Z attr_val /\
  extract_attr (rect_tag_pre ++ attr_x ++ [61%Z; 34%Z] ++ attr_val ++ 34%Z :: rect_tag_post) attr_x
    = Some attr_val.
Proof.
  assert (Hpre : forall i, (i < length rect_tag_pre)%nat ->
     is_prefix (attr_x ++ [61%Z; 34%Z]) (skipn i (rect_tag_pre ++ attr_x ++ [61%Z; 34%Z])) = false).
  { intros i Hi. vm_compute in Hi. do 7 (destruct i as [|i]; [vm_compute; reflexivity|]). lia. }
  assert (Hv : ~ In 34%Z attr_val) by (vm_compute; intros [H|[]]; discriminate).
  split; [exact Hpre|]. split; [exact Hv|].
  exact (X25_extract_attr_first_match rect_tag_pre attr_x attr_val rect_tag_post Hpre Hv).
Defined.
